(** * Cellular-automaton traffic model: embedding of [Project2.py]

    The road is a cyclic array of cells; a cell holds an occupancy flag
    ([state], 1 for a car) and a velocity (-1 for an empty cell).  The file
    embeds the single-lane model (sections 1.1 and 1.2 of the notebook) and
    the two-lane model (section 1.4), with Python's exceptions and in-place
    mutation made explicit: an expression yields a value or raises, and a
    statement runs on a store that survives a raise. *)

From Stdlib Require Import ZArith QArith Lia.
From stdpp Require Import base tactics option list.

Local Open Scope Z_scope.

(** ** Python values and exceptions *)

Inductive Error := TypeError | IndexError | ZeroDivisionError | ValueError.

(** Result of evaluating an expression: a value or a raised exception. *)
Inductive Res (A : Type) := Ok (a : A) | Raise (e : Error).
Arguments Ok {A} a.
Arguments Raise {A} e.

#[global] Instance Res_ret : MRet Res := λ A a, Ok a.
#[global] Instance Res_bind : MBind Res := λ A B f r,
  match r with Ok a => f a | Raise e => Raise e end.

(** Result of running a statement on a mutable store [S]: the store is
    kept when an exception propagates, since every mutation made before
    the raise stays visible to the caller. *)
Inductive Outcome (S : Type) := Normal (s : S) | Raised (e : Error) (s : S).
Arguments Normal {S} s.
Arguments Raised {S} e s.

Definition final {S} (o : Outcome S) : S :=
  match o with Normal s => s | Raised _ s => s end.

Definition and_then {S} (o : Outcome S) (k : S → Outcome S) : Outcome S :=
  match o with Normal s => k s | Raised e s => Raised e s end.

(** Evaluate an expression inside a statement running on store [s]. *)
Definition eval {S A} (r : Res A) (s : S) (k : A → Outcome S) : Outcome S :=
  match r with Ok a => k a | Raise e => Raised e s end.

(** [for x in xs: body] *)
Fixpoint for_each {S I} (body : I → S → Outcome S) (xs : list I) (s : S)
  : Outcome S :=
  match xs with
  | [] => Normal s
  | x :: xs' => and_then (body x s) (for_each body xs')
  end.

(** [a % b] on Python integers: the sign follows the divisor, as [Z.modulo]. *)
Definition py_mod (a b : Z) : Res Z :=
  if decide (b = 0) then Raise ZeroDivisionError else Ok (a `mod` b).

(** Position designated by the subscript [l[i]]; negative subscripts count
    from the end. *)
Definition py_pos {A} (l : list A) (i : Z) : Res nat :=
  let n := Z.of_nat (length l) in
  if decide (0 ≤ i < n) then Ok (Z.to_nat i)
  else if decide (- n ≤ i < 0) then Ok (Z.to_nat (i + n))
  else Raise IndexError.

Definition py_get {A} (l : list A) (i : Z) : Res A :=
  k ← py_pos l i;
  match l !! k with Some x => Ok x | None => Raise IndexError end.

(** [range(a, b)] *)
Definition py_range (a b : Z) : list Z :=
  (λ k : nat, a + Z.of_nat k) <$> seq 0 (Z.to_nat (b - a)).

Definition len {A} (l : list A) : Z := Z.of_nat (length l).

(** ** Cells *)

Record Cell := mkCell { state : Z; velocity : Z }.

#[global] Instance Cell_eq_dec : EqDecision Cell.
Proof. solve_decision. Defined.

(** [Cell()] *)
Definition empty_cell : Cell := mkCell 0 (-1).

Definition set_state (s : Z) (c : Cell) : Cell := mkCell s (velocity c).
Definition set_velocity (v : Z) (c : Cell) : Cell := mkCell (state c) v.

(** A value that is either an integer or [None]. *)
Definition PyInt := option Z.

(** ** Motion rules, shared by both models *)

Definition accelerate (cell : Cell) (max_vel : Z) : Cell :=
  set_velocity (Z.min (velocity cell + 1) max_vel) cell.

(** [cell.velocity > next_distance] raises [TypeError] when the distance
    is [None]. *)
Definition decelerate (cell : Cell) (next_distance : PyInt) : Res Cell :=
  match next_distance with
  | None => Raise TypeError
  | Some d => Ok (if decide (velocity cell > d) then set_velocity d cell else cell)
  end.

(** Scan [for i in ...: if fetch(i).state == 1: return i - 1]; [None] when
    the loop falls through. *)
Fixpoint first_occupied (fetch : Z → Res Cell) (idxs : list Z) : Res PyInt :=
  match idxs with
  | [] => Ok None
  | i :: idxs' =>
      next_cell ← fetch i;
      if decide (state next_cell = 1) then Ok (Some (i - 1))
      else first_occupied fetch idxs'
  end.

(** [enumerate(l)] *)
Definition enumerate {A} (l : list A) : list (nat * A) := zip (seq 0 (length l)) l.

(** Number of cars of a lane. *)
Definition count_cars (lane : list Cell) : nat :=
  length (filter (λ c, state c = 1) lane).

(** ** The random source

    Python's [random] module is a generator with a hidden state.  The model
    takes it as an interface: each operation is a transition on the
    generator's state.  [random.random()] yields a number of [0,1), and its
    comparison with [p] is exact on floats, so draws and probabilities are
    rationals.  [randint] and [sample] raise [ValueError] on an empty range
    or an oversized sample. *)

Class RandomSource (G : Type) := {
  random : G → Q * G;
  randint : Z → Z → G → Res Z * G;
  sample : Z → Z → G → Res (list Z) * G
}.

(** A replayed random source for tests: the draws of [random()] are read
    off a list (1/2 once it is exhausted), [randint] yields its lower bound
    and [sample] the first [k] positions. *)
#[global] Instance replay : RandomSource (list Q) := {
    random g := match g with [] => ((1 # 2)%Q, []) | r :: g' => (r, g') end;
    randint a b g := (if decide (a ≤ b) then Ok a else Raise ValueError, g);
    sample n k g := (if decide (0 ≤ k ≤ n) then Ok (py_range 0 k) else Raise ValueError, g)
  }.

Definition randomize `{RandomSource G} (cell : Cell) (p : Q) (g : G) : Cell * G :=
  let '(r, g') := random g in
  (if Qle_bool r p then set_velocity (Z.max (velocity cell - 1) 0) cell else cell, g').

(** The global [max_vel = 5], read by [add_impulse]. *)
Definition max_vel : Z := 5.

(** ** Single-lane model (section 1.2, with the distance and move of 1.1) *)

Module SingleLane.
Section Model.
Context `{RandomSource G}.

(** The store a step runs on: the lane, what was printed, and the
    generator. *)
Record World := mkWorld { lane : list Cell; stdout : list Z; gen : G }.

Definition with_lane (f : list Cell → list Cell) (w : World) : World :=
  mkWorld (f (lane w)) (stdout w) (gen w).

(** [print(f"Collision at {next_cell}")]; the printed line is recorded by
    its cell number. *)
Definition print_collision (next_cell : Z) (w : World) : World :=
  mkWorld (lane w) (stdout w ++ [next_cell]) (gen w).

Definition distance (cells : list Cell) (index num_cells : Z) : Res PyInt :=
  first_occupied (λ i, m ← py_mod (i + index) num_cells; py_get cells m)
                 (py_range 1 (len cells)).

(** One iteration of the loop of [move]; [cell] comes from the deep
    copy, the writes go to the live lane.  The three subscripts
    [cells[next_cell]] designate one position, and only the first can
    raise. *)
Definition move_body (num_cells : Z) (ic : nat * Cell) (w : World) : Outcome World :=
  let '(index, cell) := ic in
  if decide (state cell = 1) then
    eval (py_mod (Z.of_nat index + velocity cell) num_cells) w (λ next_cell,
    eval (py_pos (lane w) next_cell) w (λ k,
    eval (py_get (lane w) next_cell) w (λ target,
      let w1 := if decide (state target = 1 ∧ Z.of_nat index ≠ next_cell)
                then print_collision next_cell w else w in
      Normal (with_lane (λ l,
        alter (set_velocity (velocity cell)) k
          (alter (set_state 1) k
            (alter (set_velocity (-1)) index
              (alter (set_state 0) index l)))) w1))))
  else Normal w.

Definition move (num_cells : Z) (w : World) : Outcome World :=
  let cells_copy := lane w in
  for_each (move_body num_cells) (enumerate cells_copy) w.

(** One iteration of the loop of [update] (the version of section 1.2);
    [cell] is the live cell at [index]. *)
Definition update_body (num_cells max_vel : Z) (p : Q) (index : nat) (w : World)
  : Outcome World :=
  match lane w !! index with
  | None => Normal w
  | Some cell =>
      if decide (state cell = 1) then
        eval (distance (lane w) (Z.of_nat index) num_cells) w (λ next_distance,
        let c1 := accelerate cell max_vel in
        let w1 := with_lane (λ l, <[index := c1]> l) w in
        eval (decelerate c1 next_distance) w1 (λ c2,
        let '(c3, g') := randomize c2 p (gen w1) in
        Normal (mkWorld (<[index := c3]> (lane w1)) (stdout w1) g')))
      else Normal w
  end.

Definition update (num_cells max_vel : Z) (p : Q) (w : World) : Outcome World :=
  and_then (for_each (update_body num_cells max_vel p) (seq 0 (length (lane w))) w)
           (move num_cells).

Definition add_impulse (impulse : Z) (w : World) : World :=
  with_lane (fmap (λ cell,
    if decide (state cell = 1)
    then set_velocity (Z.min (velocity cell + impulse) max_vel) cell
    else cell)) w.

(** [(int)((occupancy_percent/100) * num_cells)] is computed in floating
    point; the model takes the resulting count as a function of the two
    arguments. *)
Context (num_cars_of : Q → Z → Z).

Definition place_car (index : Z) (w : World) : Outcome World :=
  eval (py_pos (lane w) index) w (λ k,
  let '(v, g') := randint 0 5 (gen w) in
  let w1 := mkWorld (alter (set_state 1) k (lane w)) (stdout w) g' in
  eval v w1 (λ v, Normal (with_lane (alter (set_velocity v) k) w1))).

Definition initilize (num_cells : Z) (occupancy_percent : Q) (g : G) : Outcome World :=
  let cells := replicate (Z.to_nat num_cells) empty_cell in
  let num_cars := num_cars_of occupancy_percent num_cells in
  let '(indices, g') := sample num_cells num_cars g in
  let w := mkWorld cells [] g' in
  eval indices w (λ indices, for_each place_car indices w).

(** The store of a run: the world and the matrix of recorded velocities. *)
Record Run := mkRun { world : World; velocities : list (list Z) }.

Definition lift_world (o : Outcome World) (r : Run) : Outcome Run :=
  match o with
  | Normal w => Normal (mkRun w (velocities r))
  | Raised e w => Raised e (mkRun w (velocities r))
  end.

Definition record_row (time : nat) (r : Run) : Run :=
  mkRun (world r)
    (alter (λ row, foldl (λ row ic, <[ic.1 := velocity ic.2]> row) row
                         (enumerate (lane (world r))))
           time (velocities r)).

Definition simulate_step (num_cells max_vel : Z) (p : Q) (impulse : Z)
    (time : nat) (r : Run) : Outcome Run :=
  and_then (lift_world (update num_cells max_vel p (world r)) r) (λ r1,
    let r2 := if decide (impulse > 0 ∧ time = 0%nat)
              then mkRun (add_impulse impulse (world r1)) (velocities r1)
              else r1 in
    Normal (record_row time r2)).

(** [np.zeros] raises [ValueError] on a negative dimension. *)
Definition simulate (max_vel : Z) (occupancy_percent : Q)
    (num_cells num_time_steps : Z) (p : Q) (impulse : Z) (g : G) : Outcome Run :=
  and_then (lift_world (initilize num_cells occupancy_percent g)
                       (mkRun (mkWorld [] [] g) []))
    (λ r0,
      if decide (num_time_steps < 0 ∨ num_cells < 0) then Raised ValueError r0
      else
        let zeros := replicate (Z.to_nat num_time_steps)
                               (replicate (Z.to_nat num_cells) 0) in
        for_each (simulate_step num_cells max_vel p impulse)
                 (seq 0 (Z.to_nat num_time_steps))
                 (mkRun (world r0) zeros)).
End Model.
Arguments World G : clear implicits.
Arguments Run G : clear implicits.
End SingleLane.

(** ** The first model (section 1.1): the update step without dallying

    This [update] is the one in force until section 1.2 redefines it; it
    takes [p] and ignores it. *)

Module FirstModel.
Section Model.
Context {G : Type}.

Definition update_body (num_cells max_vel : Z) (index : nat) (w : SingleLane.World G)
  : Outcome (SingleLane.World G) :=
  match SingleLane.lane w !! index with
  | None => Normal w
  | Some cell =>
      if decide (state cell = 1) then
        eval (SingleLane.distance (SingleLane.lane w) (Z.of_nat index) num_cells) w
          (λ next_distance,
          let c1 := accelerate cell max_vel in
          let w1 := SingleLane.with_lane (λ l, <[index := c1]> l) w in
          eval (decelerate c1 next_distance) w1 (λ c2,
          Normal (SingleLane.with_lane (λ l, <[index := c2]> l) w1)))
      else Normal w
  end.

Definition update (num_cells max_vel : Z) (p : Q) (w : SingleLane.World G)
  : Outcome (SingleLane.World G) :=
  and_then (for_each (update_body num_cells max_vel)
                     (seq 0 (length (SingleLane.lane w))) w)
           (SingleLane.move num_cells).
End Model.
End FirstModel.

(** ** Two-lane model (section 1.4) *)

Module TwoLane.

(** The road is a list of lanes ([cells[0]] left, [cells[1]] right). *)
Abbreviation Road := (list (list Cell)).

Section Model.
Context `{RandomSource G}.

Record World := mkWorld { road : Road; gen : G }.

Definition cell_at (cells : Road) (i index : nat) : option Cell :=
  cells !! i ≫= (.!! index).

Definition alter_cell (f : Cell → Cell) (i index : nat) (cells : Road) : Road :=
  alter (alter f index) i cells.

Definition with_road (f : Road → Road) (w : World) : World :=
  mkWorld (f (road w)) (gen w).

Definition distance (cells : Road) (curr_cells : list Cell)
    (index num_cells curr_lane intended_lane direction : Z) : Res Z :=
  found ←
    (if decide (curr_lane = intended_lane) then
       first_occupied
         (λ i, m ← py_mod (direction * i + index) num_cells; py_get curr_cells m)
         (py_range 1 (len curr_cells))
     else
       first_occupied
         (λ i, other_lane ← py_get cells intended_lane;
               m ← py_mod (direction * i + index) num_cells;
               py_get other_lane m)
         (py_range 1 (len curr_cells)));
  Ok (default num_cells found).

Definition can_change_lanes (cells : Road) (cell : Cell)
    (i index num_cells : Z) (max_vels : list Z) : Res bool :=
  curr_lane ← py_get cells i;
  other_lane ← py_get cells ((i + 1) `mod` 2);
  dist_ahead ← distance cells curr_lane index num_cells i i 1;
  dist_behind ← distance cells curr_lane index num_cells i i (-1);
  dist_ahead_other ← distance cells curr_lane index num_cells i ((i + 1) `mod` 2) 1;
  dist_behind_other ← distance cells curr_lane index num_cells i ((i + 1) `mod` 2) (-1);
  m1 ← py_mod (index + dist_ahead + 1) num_cells;
  ahead ← py_get curr_lane m1;
  let cond1 := bool_decide (velocity cell < velocity ahead - 1 + dist_ahead + 1) in
  let cond2 := bool_decide (dist_ahead_other >= velocity cell) in
  m3 ← py_mod (index - (dist_behind + 1)) num_cells;
  behind ← py_get curr_lane m3;
  let cond3 := bool_decide (velocity behind - (dist_behind + 1) < velocity cell - 1) in
  m4 ← py_mod (index - (dist_behind_other + 1)) num_cells;
  behind_other ← py_get other_lane m4;
  let cond4 :=
    bool_decide (velocity behind_other - (dist_behind_other + 1) < velocity cell - 1) in
  limit ← py_get max_vels ((i + 1) `mod` 2);
  if decide (velocity cell ≤ limit) then
    beside ← py_get other_lane index;
    if decide (state beside = 0) then Ok (cond1 && cond2 && cond3 && cond4)
    else Ok false
  else Ok false.

(** The lanes and the cell are located once; after the first statement
    none of the subscripts can raise. *)
Definition change_lanes (i index : Z) (w : World) : Outcome World :=
  eval (py_pos (road w) i) w (λ ki,
  eval (py_get (road w) i) w (λ curr_lane,
  eval (py_pos (road w) ((i + 1) `mod` 2)) w (λ ko,
  eval (py_get (road w) ((i + 1) `mod` 2)) w (λ other_lane,
  eval (py_pos curr_lane index) w (λ pc,
  eval (py_get curr_lane index) w (λ cell,
  eval (py_pos other_lane index) w (λ po,
    Normal (with_road (λ r,
      alter_cell (set_state 0) ki pc
        (alter_cell (set_velocity (-1)) ki pc
          (alter_cell (set_state 1) ko po
            (alter_cell (set_velocity (velocity cell)) ko po r)))) w)))))))).

(** [move] runs on one lane; its store is the live lane and the
    [lane_change] flag. *)
Definition move_body (cells_copy : list Cell) (num_cells : Z) (ic : nat * Cell)
    (s : list Cell * bool) : Outcome (list Cell * bool) :=
  let '(index, cell) := ic in
  let '(cells, lane_change) := s in
  if decide (state cell = 1) then
    eval (py_mod (Z.of_nat index + velocity cell) num_cells) s (λ next_cell,
    let cells1 := if lane_change then cells
                  else alter (set_velocity (-1)) index (alter (set_state 0) index cells) in
    eval (py_pos cells1 next_cell) (cells1, lane_change) (λ k,
    let cells2 := alter (set_velocity (velocity cell)) k (alter (set_state 1) k cells1) in
    eval (py_get cells_copy next_cell) (cells2, lane_change) (λ target,
      Normal (cells2, bool_decide (state target = 1 ∧ Z.of_nat index ≠ next_cell)))))
  else Normal s.

Definition move (num_cells : Z) (cells : list Cell) : Outcome (list Cell) :=
  let cells_copy := cells in
  match for_each (move_body cells_copy num_cells) (enumerate cells_copy) (cells, false) with
  | Normal s => Normal s.1
  | Raised e s => Raised e s.1
  end.

(** [for i in range(2): curr_cells = cells[i]; for index, cell in
    enumerate(curr_cells): body]: the loop nest shared by the first three
    phases of [update]. *)
Definition for_lanes (body : nat → nat → World → Outcome World) (w : World)
  : Outcome World :=
  for_each (λ i w,
    eval (py_get (road w) (Z.of_nat i)) w (λ curr_cells,
      for_each (body i) (seq 0 (length curr_cells)) w))
    [0%nat; 1%nat] w.

Definition accelerate_body (max_vels : list Z) (i index : nat) (w : World)
  : Outcome World :=
  match cell_at (road w) i index with
  | None => Normal w
  | Some cell =>
      if decide (state cell = 1) then
        eval (py_get max_vels (Z.of_nat i)) w (λ limit,
          Normal (with_road (alter_cell (λ c, accelerate c limit) i index) w))
      else Normal w
  end.

Definition lane_change_body (cells_copy : Road) (num_cells : Z) (max_vels : list Z)
    (i index : nat) (w : World) : Outcome World :=
  match cell_at (road w) i index with
  | None => Normal w
  | Some cell =>
      if decide (state cell = 1) then
        eval (py_get cells_copy (Z.of_nat i)) w (λ copy_lane,
        eval (distance cells_copy copy_lane (Z.of_nat index) num_cells
                       (Z.of_nat i) (Z.of_nat i) 1) w (λ next_distance,
        if decide (velocity cell > next_distance) then
          eval (py_get copy_lane (Z.of_nat index)) w (λ copy_cell,
          eval (can_change_lanes cells_copy copy_cell (Z.of_nat i) (Z.of_nat index)
                                 num_cells max_vels) w (λ granted,
            if granted : bool then change_lanes (Z.of_nat i) (Z.of_nat index) w
            else Normal w))
        else Normal w))
      else Normal w
  end.

Definition decelerate_body (cells_copy : Road) (num_cells : Z) (p : Q)
    (i index : nat) (w : World) : Outcome World :=
  match cell_at (road w) i index with
  | None => Normal w
  | Some cell =>
      if decide (state cell = 1) then
        eval (py_get cells_copy (Z.of_nat i)) w (λ copy_lane,
        eval (distance cells_copy copy_lane (Z.of_nat index) num_cells
                       (Z.of_nat i) (Z.of_nat i) 1) w (λ next_distance,
        eval (decelerate cell (Some next_distance)) w (λ c2,
        let '(c3, g') := randomize c2 p (gen w) in
        Normal (mkWorld (alter_cell (λ _, c3) i index (road w)) g'))))
      else Normal w
  end.

Definition move_lane (num_cells : Z) (i : nat) (w : World) : Outcome World :=
  eval (py_get (road w) (Z.of_nat i)) w (λ curr_cells,
    match move num_cells curr_cells with
    | Normal l => Normal (with_road (λ r, <[i := l]> r) w)
    | Raised e l => Raised e (with_road (λ r, <[i := l]> r) w)
    end).

Definition update (num_cells : Z) (max_vels : list Z) (p : Q) (w : World)
  : Outcome World :=
  and_then (for_lanes (accelerate_body max_vels) w) (λ w1,
  let cells_copy := road w1 in
  and_then (for_lanes (lane_change_body cells_copy num_cells max_vels) w1) (λ w2,
  and_then (for_lanes (decelerate_body cells_copy num_cells p) w2) (λ w3,
  for_each (move_lane num_cells) [0%nat; 1%nat] w3))).

(** [(int)((occupancy_percent/100) * num_cells)], as in the single-lane
    model. *)
Context (num_cars_of : Q → Z → Z).

(** Filling one lane: the store is the lane under construction and the
    generator. *)
Definition place_car (max_vel : Z) (index : Z) (s : list Cell * G)
  : Outcome (list Cell * G) :=
  eval (py_pos s.1 index) s (λ k,
  let '(v, g') := randint 0 max_vel s.2 in
  let s1 := (alter (set_state 1) k s.1, g') in
  eval v s1 (λ v, Normal (alter (set_velocity v) k s1.1, g'))).

Definition initilize_lane (num_cells : Z) (occupancy_percents : list Q)
    (max_vels : list Z) (i : nat) (w : World) : Outcome World :=
  eval (py_get occupancy_percents (Z.of_nat i)) w (λ occupancy_percent,
  eval (py_get max_vels (Z.of_nat i)) w (λ max_vel,
  let curr_cells := replicate (Z.to_nat num_cells) empty_cell in
  let num_cars := num_cars_of occupancy_percent num_cells in
  let '(indices, g') := sample num_cells num_cars (gen w) in
  let w1 := mkWorld (road w) g' in
  eval indices w1 (λ indices,
    match for_each (place_car max_vel) indices (curr_cells, g') with
    | Normal s => Normal (mkWorld (road w ++ [s.1]) s.2)
    | Raised e s => Raised e (mkWorld (road w) s.2)
    end))).

Definition initilize (num_cells : Z) (occupancy_percents : list Q)
    (max_vels : list Z) (g : G) : Outcome World :=
  for_each (initilize_lane num_cells occupancy_percents max_vels)
           [0%nat; 1%nat] (mkWorld [] g).

(** The store of a run: the world and the three recorded matrices. *)
Record Run := mkRun {
  world : World;
  velocities_both : list (list Z);
  velocities_left : list (list Z);
  velocities_right : list (list Z)
}.

Definition lift_world (o : Outcome World) (r : Run) : Outcome Run :=
  match o with
  | Normal w => Normal (mkRun w (velocities_both r) (velocities_left r) (velocities_right r))
  | Raised e w => Raised e (mkRun w (velocities_both r) (velocities_left r) (velocities_right r))
  end.

Definition record_cell (time i : nat) (ic : nat * Cell) (r : Run) : Outcome Run :=
  let '(index, cell) := ic in
  let put (row : nat) := alter (λ cells : list Z, <[index := velocity cell]> cells) row in
  let r1 := if decide (i = 0%nat)
            then mkRun (world r) (velocities_both r)
                       (put time (velocities_left r)) (velocities_right r)
            else mkRun (world r) (velocities_both r)
                       (velocities_left r) (put time (velocities_right r)) in
  Normal (mkRun (world r1) (put (3 * time + i)%nat (velocities_both r1))
                (velocities_left r1) (velocities_right r1)).

Definition simulate_step (num_cells : Z) (max_vels : list Z) (p : Q)
    (time : nat) (r : Run) : Outcome Run :=
  and_then (lift_world (update num_cells max_vels p (world r)) r) (λ r1,
    for_each (λ i r,
      eval (py_get (road (world r)) (Z.of_nat i)) r (λ lane,
        for_each (record_cell time i) (enumerate lane) r))
      [0%nat; 1%nat] r1).

Definition simulate (max_vels : list Z) (occupancy_percents : list Q)
    (num_cells num_time_steps : Z) (p : Q) (g : G) : Outcome Run :=
  and_then (lift_world (initilize num_cells occupancy_percents max_vels g)
                       (mkRun (mkWorld [] g) [] [] []))
    (λ r0,
      if decide (3 * num_time_steps + 2 < 0 ∨ num_cells < 0) then Raised ValueError r0
      else
        let zeros (rows : Z) :=
          replicate (Z.to_nat rows) (replicate (Z.to_nat num_cells) 0) in
        for_each (simulate_step num_cells max_vels p)
                 (seq 0 (Z.to_nat (num_time_steps + 1)))
                 (mkRun (world r0) (zeros (3 * num_time_steps + 2))
                        (zeros (num_time_steps + 1)) (zeros (num_time_steps + 1)))).
End Model.
Arguments World G : clear implicits.
Arguments Run G : clear implicits.
End TwoLane.

(** * Specification vocabulary *)

(** Position of the cell at offset [x] on a cyclic lane of [n] cells. *)
Definition cyc (n : nat) (x : Z) : nat := Z.to_nat (x `mod` Z.of_nat n).

(** The road has two lanes of [n] cells each. *)
Definition two_lanes (cells : TwoLane.Road) (n : nat) : Prop :=
  ∃ l0 l1, cells = [l0; l1] ∧ length l0 = n ∧ length l1 = n.

(** The gap returned by the two-lane [distance]: either the cells at
    offsets [1..d] of the scanned lane are free and the one at offset
    [d + 1] is occupied, or the lane has no occupied cell at any offset
    [1..n-1] and the gap is the road length. *)
Definition gap_of (lane : list Cell) (n : nat) (index direction d : Z) : Prop :=
  (0 ≤ d < Z.of_nat n - 1 ∧
   (∃ c, lane !! cyc n (direction * (d + 1) + index) = Some c ∧ state c = 1) ∧
   ∀ j, 1 ≤ j ≤ d →
        ∃ c', lane !! cyc n (direction * j + index) = Some c' ∧ state c' ≠ 1)
  ∨ (d = Z.of_nat n ∧
     ∀ j, 1 ≤ j < Z.of_nat n →
          ∃ c', lane !! cyc n (direction * j + index) = Some c' ∧ state c' ≠ 1).

(** ** The cautious lane change, as the specification words it

    A vehicle [cell] of lane [i] at [index] may change lanes when both
    guards and the four safety conditions hold; the gaps are those of the
    distance query in the corresponding lane and direction, and the
    neighbours are the cells just past those gaps. *)

Record Neighbourhood := mkNeighbourhood {
  limit : Z;                (* max velocity of the destination lane *)
  beside : Cell;            (* destination-lane cell at the same index *)
  gap_ahead_same : Z;
  gap_behind_same : Z;
  gap_ahead_other : Z;
  gap_behind_other : Z;
  ahead_same : Cell;
  behind_same : Cell;
  behind_other : Cell
}.

Definition observes (cells : TwoLane.Road) (i index n : nat) (max_vels : list Z)
    (nb : Neighbourhood) : Prop :=
  ∃ curr_lane other_lane,
    cells !! i = Some curr_lane ∧ cells !! (1 - i)%nat = Some other_lane ∧
    max_vels !! (1 - i)%nat = Some (limit nb) ∧
    other_lane !! index = Some (beside nb) ∧
    TwoLane.distance cells curr_lane (Z.of_nat index) (Z.of_nat n)
      (Z.of_nat i) (Z.of_nat i) 1 = Ok (gap_ahead_same nb) ∧
    TwoLane.distance cells curr_lane (Z.of_nat index) (Z.of_nat n)
      (Z.of_nat i) (Z.of_nat i) (-1) = Ok (gap_behind_same nb) ∧
    TwoLane.distance cells curr_lane (Z.of_nat index) (Z.of_nat n)
      (Z.of_nat i) (Z.of_nat (1 - i)) 1 = Ok (gap_ahead_other nb) ∧
    TwoLane.distance cells curr_lane (Z.of_nat index) (Z.of_nat n)
      (Z.of_nat i) (Z.of_nat (1 - i)) (-1) = Ok (gap_behind_other nb) ∧
    curr_lane !! Z.to_nat ((Z.of_nat index + gap_ahead_same nb + 1) `mod` Z.of_nat n)
      = Some (ahead_same nb) ∧
    curr_lane !! Z.to_nat ((Z.of_nat index - (gap_behind_same nb + 1)) `mod` Z.of_nat n)
      = Some (behind_same nb) ∧
    other_lane !! Z.to_nat ((Z.of_nat index - (gap_behind_other nb + 1)) `mod` Z.of_nat n)
      = Some (behind_other nb).

Definition guards_hold (cell : Cell) (nb : Neighbourhood) : Prop :=
  velocity cell ≤ limit nb ∧ state (beside nb) = 0.

Definition conditions_hold (cell : Cell) (nb : Neighbourhood) : Prop :=
  velocity cell < velocity (ahead_same nb) - 1 + gap_ahead_same nb + 1 ∧
  gap_ahead_other nb >= velocity cell ∧
  velocity (behind_same nb) - (gap_behind_same nb + 1) < velocity cell - 1 ∧
  velocity (behind_other nb) - (gap_behind_other nb + 1) < velocity cell - 1.

Definition cautious_change (cells : TwoLane.Road) (cell : Cell) (i index n : nat)
    (max_vels : list Z) : Prop :=
  ∃ nb, observes cells i index n max_vels nb ∧
        guards_hold cell nb ∧ conditions_hold cell nb.

(** ** The lane-change phase, as a function of the snapshot

    [wants_change] is the decision taken for the cell of lane [i] at
    [index], read off the post-acceleration snapshot alone: the cell holds
    a vehicle, its velocity exceeds its same-lane forward gap, and the
    lane change is granted. *)

Definition wants_change (snapshot : TwoLane.Road) (n : nat) (max_vels : list Z)
    (i index : nat) : bool :=
  match snapshot !! i, TwoLane.cell_at snapshot i index with
  | Some lane, Some cell =>
      bool_decide (state cell = 1)
      && match TwoLane.distance snapshot lane (Z.of_nat index) (Z.of_nat n)
                 (Z.of_nat i) (Z.of_nat i) 1 with
         | Ok gap => bool_decide (velocity cell > gap)
         | Raise _ => false
         end
      && match TwoLane.can_change_lanes snapshot cell (Z.of_nat i) (Z.of_nat index)
                 (Z.of_nat n) max_vels with
         | Ok granted => granted
         | Raise _ => false
         end
  | _, _ => false
  end.

(** The cell of lane [i] at [j] once the decisions [wants] are committed
    all at once: emptied when its vehicle leaves, taken by the vehicle
    beside it when that one changes lanes, untouched otherwise. *)
Definition changed_cell (snapshot : TwoLane.Road) (wants : nat → nat → bool)
    (i j : nat) (c : Cell) : Cell :=
  if wants i j then empty_cell
  else if wants (1 - i)%nat j
       then mkCell 1 (velocity (default c (TwoLane.cell_at snapshot (1 - i) j)))
       else c.

Definition after_changes (snapshot : TwoLane.Road) (wants : nat → nat → bool)
  : TwoLane.Road :=
  imap (λ i lane, imap (changed_cell snapshot wants i) lane) snapshot.

(** The decisions already committed when the loops have covered the
    first [k0] cells of lane 0 and the first [k1] cells of lane 1. *)
Definition progress (wants : nat → nat → bool) (k0 k1 : nat) (i j : nat) : bool :=
  wants i j && bool_decide (j < (if i is O then k0 else k1))%nat.

(** Velocity bounds of a cell in a lane of maximal velocity [limit]. *)
Definition cell_ok (limit : Z) (c : Cell) : Prop :=
  (state c = 1 ∧ 0 ≤ velocity c ≤ limit) ∨ (state c = 0 ∧ velocity c = -1).

Definition road_ok (max_vels : list Z) (cells : TwoLane.Road) : Prop :=
  ∀ (i k : nat) limit c,
    max_vels !! i = Some limit → TwoLane.cell_at cells i k = Some c → cell_ok limit c.

(** Number of cars on the whole road. *)
Definition count_road (cells : TwoLane.Road) : nat :=
  foldr (λ lane total, (count_cars lane + total)%nat) 0%nat cells.

(** The decisions committed once the loop over lane [i] has covered its
    first [k] cells. *)
Definition reached (W : nat → nat → bool) (n i k : nat) : nat → nat → bool :=
  if i is O then progress W k 0 else progress W n k.

(** The invariant of the phases of the two-lane step: shape and bounds. *)
Definition phase_inv {G} (n : nat) (max_vels : list Z) (w : TwoLane.World G) : Prop :=
  two_lanes (TwoLane.road w) n ∧ road_ok max_vels (TwoLane.road w).

(** What the single-lane move may print: the target cell of a vehicle of
    the lane that differs from the vehicle's own cell. *)
Definition reported_target (cells : list Cell) (num_cells c : Z) : Prop :=
  ∃ (index : nat) (cell : Cell),
    cells !! index = Some cell ∧ state cell = 1 ∧
    c = (Z.of_nat index + velocity cell) `mod` num_cells ∧ Z.of_nat index ≠ c.

(** A stand-in for the floating-point count of cars. *)
Definition floor_percent (occupancy_percent : Q) (num_cells : Z) : Z :=
  (Qnum occupancy_percent * num_cells) `div` (Z.pos (Qden occupancy_percent) * 100).

(** No draw of the generator, from state [g] on, is at most [p]: the dally
    test [random.random() <= p] never holds. *)
Definition never_dallies `{RandomSource G} (p : Q) (g : G) : Prop :=
  ∀ k : nat, ¬ ((random (Nat.iter k (λ g, (random g).2) g)).1 <= p)%Q.

(** ** Runs that cannot be told apart

    [same_draws R]: generator states related by [R] yield the same values
    for every operation, and related states again.  Identical states of
    one generator are so related by the equality. *)

Definition same_draws `{RandomSource G1} `{RandomSource G2} (R : G1 → G2 → Prop) : Prop :=
  ∀ g1 g2, R g1 g2 →
    ((random g1).1 = (random g2).1 ∧ R (random g1).2 (random g2).2) ∧
    (∀ a b, (randint a b g1).1 = (randint a b g2).1 ∧
            R (randint a b g1).2 (randint a b g2).2) ∧
    (∀ n k, (sample n k g1).1 = (sample n k g2).1 ∧
            R (sample n k g1).2 (sample n k g2).2).

(** Two runs end alike: both normally or both by the same exception, with
    related stores. *)
Definition outcome_rel {S1 S2} (RS : S1 → S2 → Prop)
    (o1 : Outcome S1) (o2 : Outcome S2) : Prop :=
  match o1, o2 with
  | Normal s1, Normal s2 => RS s1 s2
  | Raised e1 s1, Raised e2 s2 => e1 = e2 ∧ RS s1 s2
  | _, _ => False
  end.

Definition same_world {G1 G2} (R : G1 → G2 → Prop)
    (w1 : SingleLane.World G1) (w2 : SingleLane.World G2) : Prop :=
  SingleLane.lane w1 = SingleLane.lane w2 ∧
  SingleLane.stdout w1 = SingleLane.stdout w2 ∧
  R (SingleLane.gen w1) (SingleLane.gen w2).

Definition same_run {G1 G2} (R : G1 → G2 → Prop)
    (r1 : SingleLane.Run G1) (r2 : SingleLane.Run G2) : Prop :=
  SingleLane.velocities r1 = SingleLane.velocities r2 ∧
  same_world R (SingleLane.world r1) (SingleLane.world r2).

Definition same_road {G1 G2} (R : G1 → G2 → Prop)
    (w1 : TwoLane.World G1) (w2 : TwoLane.World G2) : Prop :=
  TwoLane.road w1 = TwoLane.road w2 ∧ R (TwoLane.gen w1) (TwoLane.gen w2).

Definition same_road_run {G1 G2} (R : G1 → G2 → Prop)
    (r1 : TwoLane.Run G1) (r2 : TwoLane.Run G2) : Prop :=
  TwoLane.velocities_both r1 = TwoLane.velocities_both r2 ∧
  TwoLane.velocities_left r1 = TwoLane.velocities_left r2 ∧
  TwoLane.velocities_right r1 = TwoLane.velocities_right r2 ∧
  same_road R (TwoLane.world r1) (TwoLane.world r2).

(** ** Occupancy, targets and safe speeds

    A vehicle of velocity [v] at [index] passes over the cells at offsets
    [1..v] ahead of it and lands on the last one.  The speed is safe when
    each of these cells is free or is the vehicle's own cell. *)

Definition occupied_at (lane : list Cell) (i : nat) : Prop :=
  ∃ c, lane !! i = Some c ∧ state c = 1.

Definition target_of (lane : list Cell) (i : nat) : nat :=
  match lane !! i with
  | Some c => cyc (length lane) (Z.of_nat i + velocity c)
  | None => i
  end.

Definition safe_speed (lane : list Cell) (i : nat) (v : Z) : Prop :=
  0 ≤ v ∧
  ∀ j, 1 ≤ j ≤ v →
       occupied_at lane (cyc (length lane) (Z.of_nat i + j)) →
       cyc (length lane) (Z.of_nat i + j) = i.

Definition safe_lane (lane : list Cell) : Prop :=
  ∀ i c, lane !! i = Some c → state c = 1 → safe_speed lane i (velocity c).

(** No vehicle's target is a cell that another vehicle occupies. *)
Definition targets_clear (lane : list Cell) : Prop :=
  ∀ i, occupied_at lane i →
       target_of lane i = i ∨ ¬ occupied_at lane (target_of lane i).

(** 1 for a car, 0 otherwise. *)
Definition car (c : Cell) : nat := if decide (state c = 1) then 1%nat else 0%nat.

(** The lane is free of collisions: no vehicle aims at a cell that
    another vehicle occupies, and no two vehicles aim at the same cell. *)
Definition collision_free (lane : list Cell) : Prop :=
  targets_clear lane ∧
  ∀ i1 i2, occupied_at lane i1 → occupied_at lane i2 →
           target_of lane i1 = target_of lane i2 → i1 = i2.

(** The live lane [l] once the loop of [move] has visited the first [k]
    cells of the deep copy [copy]: a cell holds the vehicle that arrived in
    it, or is cleared when its vehicle has left, or is as in the copy. *)
Definition move_inv (copy : list Cell) (k : nat) (l : list Cell) : Prop :=
  length l = length copy ∧ count_cars l = count_cars copy ∧
  ∀ j cj, copy !! j = Some cj →
    (∃ i ci, (i < k)%nat ∧ copy !! i = Some ci ∧ state ci = 1 ∧
             target_of copy i = j ∧ l !! j = Some (mkCell 1 (velocity ci)))
    ∨ ((∀ i, (i < k)%nat → occupied_at copy i → target_of copy i ≠ j) ∧
       l !! j = Some (if decide ((j < k)%nat ∧ state cj = 1) then mkCell 0 (-1) else cj)).

(** The occupancy flags of a road. *)
Definition road_states (cells : TwoLane.Road) : list (list Z) :=
  (λ lane : list Cell, state <$> lane) <$> cells.

(** The deceleration loops of the two-lane step, once they have covered
    the lanes before [i] and the first [k] cells of lane [i]: the vehicles
    are where the snapshot has them, and those already visited have a
    speed that is safe in their lane of the snapshot. *)
Definition decelerate_inv {G} (n : nat) (max_vels : list Z) (snapshot : TwoLane.Road)
    (i k : nat) (w : TwoLane.World G) : Prop :=
  phase_inv n max_vels w ∧
  road_states (TwoLane.road w) = road_states snapshot ∧
  ∀ i' k' lane c,
    (i' < i ∨ i' = i ∧ k' < k)%nat →
    snapshot !! i' = Some lane → TwoLane.cell_at (TwoLane.road w) i' k' = Some c →
    state c = 1 → safe_speed lane k' (velocity c).

(** The random source behaves as Python documents it: [randint(a, b)]
    with [a <= b] yields an integer of [a..b], and [sample(range(n), k)]
    with [0 <= k <= n] yields [k] distinct positions of [0..n-1]. *)
Definition lawful (G : Type) `{RandomSource G} : Prop :=
  (∀ a b (g : G), a ≤ b → ∃ v, (randint a b g).1 = Ok v ∧ a ≤ v ≤ b) ∧
  (∀ n k (g : G), 0 ≤ k ≤ n →
     ∃ l, (sample n k g).1 = Ok l ∧ NoDup l ∧ length l = Z.to_nat k ∧
          Forall (λ i, 0 ≤ i < n) l).

(** The state of a single-lane run after [t] steps: a lane of [num_cells]
    cells within bounds holding [cars] vehicles, nothing printed, a matrix
    of [rows] rows of [num_cells] entries of [-1..max_vel], whose row
    [t - 1] holds the velocities of the lane. *)
Definition run_inv {G} (num_cells max_vel : Z) (cars rows : nat) (t : nat)
    (r : SingleLane.Run G) : Prop :=
  let lane := SingleLane.lane (SingleLane.world r) in
  length lane = Z.to_nat num_cells ∧
  Forall (cell_ok max_vel) lane ∧
  count_cars lane = cars ∧
  SingleLane.stdout (SingleLane.world r) = [] ∧
  length (SingleLane.velocities r) = rows ∧
  Forall (λ row, length row = Z.to_nat num_cells ∧ Forall (λ v, -1 ≤ v ≤ max_vel) row)
         (SingleLane.velocities r) ∧
  ((0 < t)%nat → SingleLane.velocities r !! (t - 1)%nat = Some (velocity <$> lane)).

(** The state of a two-lane run after [t] steps: a road of two lanes of
    [n] cells within bounds; three matrices of [3 * T + 2], [T + 1] and
    [T + 1] rows of [n] entries; rows [3 * t'] and [3 * t' + 1] of the
    first are the rows [t'] of the left and right matrices, for each step
    [t'] taken; its rows [3 * t' + 2] are still zero; and the last rows
    written hold the velocities of the lanes. *)
Definition two_lane_run_inv {G} (n : nat) (max_vels : list Z) (T t : nat)
    (r : TwoLane.Run G) : Prop :=
  let zeros := replicate n 0 in
  phase_inv n max_vels (TwoLane.world r) ∧
  length (TwoLane.velocities_both r) = (3 * T + 2)%nat ∧
  length (TwoLane.velocities_left r) = (T + 1)%nat ∧
  length (TwoLane.velocities_right r) = (T + 1)%nat ∧
  Forall (λ row, length row = n) (TwoLane.velocities_both r) ∧
  Forall (λ row, length row = n) (TwoLane.velocities_left r) ∧
  Forall (λ row, length row = n) (TwoLane.velocities_right r) ∧
  (∀ t', (t' < t)%nat →
     TwoLane.velocities_both r !! (3 * t')%nat = TwoLane.velocities_left r !! t' ∧
     TwoLane.velocities_both r !! (3 * t' + 1)%nat = TwoLane.velocities_right r !! t') ∧
  (∀ t', (t' < T)%nat → TwoLane.velocities_both r !! (3 * t' + 2)%nat = Some zeros) ∧
  ((0 < t)%nat →
     TwoLane.velocities_left r !! (t - 1)%nat =
       (λ lane : list Cell, velocity <$> lane) <$> TwoLane.road (TwoLane.world r) !! 0%nat ∧
     TwoLane.velocities_right r !! (t - 1)%nat =
       (λ lane : list Cell, velocity <$> lane) <$> TwoLane.road (TwoLane.world r) !! 1%nat).

(** ** What the move phase reports *)

(** A conflict at cell [t] in the move of a lane: two vehicles aim at
    [t], or a vehicle aims at [t] while a vehicle further along the lane,
    which has not moved yet, still stands there. *)
Definition conflict (lane : list Cell) (t : nat) : Prop :=
  (∃ i1 i2, i1 ≠ i2 ∧ occupied_at lane i1 ∧ occupied_at lane i2 ∧
            target_of lane i1 = t ∧ target_of lane i2 = t)
  ∨ (∃ i, occupied_at lane i ∧ target_of lane i = t ∧ occupied_at lane t ∧ (i < t)%nat).

(** The occupied cell [c'] at [j] holds a vehicle of [lane] that has
    arrived there, one of the first [k] cells of the lane. *)
Definition arrival (lane : list Cell) (k j : nat) (c' : Cell) : Prop :=
  ∃ i c, (i < k)%nat ∧ lane !! i = Some c ∧ state c = 1 ∧
         target_of lane i = j ∧ c' = mkCell 1 (velocity c).

(** The live lane [l] and the lines [msgs] printed once the loop of the
    single-lane [move] has visited the first [k] cells of the deep copy. *)
Definition report_inv (copy : list Cell) (num_cells : Z) (k : nat)
    (l : list Cell) (msgs : list Z) : Prop :=
  length l = length copy ∧
  Forall (reported_target copy num_cells) msgs ∧
  (∀ m, m ∈ msgs → ∃ t, m = Z.of_nat t ∧ conflict copy t) ∧
  (∀ i, (i < k)%nat → occupied_at copy i → occupied_at copy (target_of copy i) →
        (i < target_of copy i)%nat → Z.of_nat (target_of copy i) ∈ msgs) ∧
  (∀ i1 i2, (i1 < i2)%nat → (i2 < k)%nat → occupied_at copy i1 → occupied_at copy i2 →
            target_of copy i1 = target_of copy i2 → Z.of_nat (target_of copy i1) ∈ msgs) ∧
  (∀ j, (k ≤ j)%nat → occupied_at copy j → occupied_at l j) ∧
  (∀ i, (i < k)%nat → occupied_at copy i →
        occupied_at l (target_of copy i)
        ∨ (occupied_at copy (target_of copy i) ∧ (i < target_of copy i < k)%nat)) ∧
  (∀ j c', l !! j = Some c' → state c' = 1 →
           arrival copy k j c' ∨ ((k ≤ j)%nat ∧ copy !! j = Some c')) ∧
  (∀ i c, (i < k)%nat → copy !! i = Some c → state c = 1 →
          (∀ j, (i < j < k)%nat → ¬ occupied_at copy j) →
          l !! target_of copy i = Some (mkCell 1 (velocity c))).

(** * Properties *)

(** ** Python subscripts and loops *)

Lemma py_mod_ok a b : b ≠ 0 → py_mod a b = Ok (a `mod` b).
Proof. intros Hb. unfold py_mod. by destruct (decide (b = 0)). Qed.

Lemma py_pos_ok {A} (l : list A) (i : Z) :
  0 ≤ i < len l → py_pos l i = Ok (Z.to_nat i).
Proof. intros Hi. unfold py_pos, len in *. by rewrite decide_True. Qed.

Lemma py_get_ok {A} (l : list A) (i : Z) x :
  0 ≤ i → l !! Z.to_nat i = Some x → py_get l i = Ok x.
Proof.
  intros Hi Hx. unfold py_get.
  rewrite py_pos_ok; [simpl; by rewrite Hx|].
  apply lookup_lt_Some in Hx. unfold len. lia.
Qed.

Lemma py_get_nat {A} (l : list A) (k : nat) x :
  l !! k = Some x → py_get l (Z.of_nat k) = Ok x.
Proof. intros Hx. apply py_get_ok; [lia|]. by rewrite Nat2Z.id. Qed.

Lemma py_get_total {A} (l : list A) (i : Z) :
  0 ≤ i < len l → ∃ x, l !! Z.to_nat i = Some x ∧ py_get l i = Ok x.
Proof.
  intros Hi. destruct (lookup_lt_is_Some_2 l (Z.to_nat i)) as [x Hx].
  { unfold len in Hi. lia. }
  exists x. split; [done|]. apply py_get_ok; [lia|done].
Qed.

Lemma elem_of_py_range i a b : i ∈ py_range a b ↔ a ≤ i < b.
Proof.
  unfold py_range. rewrite list_elem_of_fmap. split.
  - intros (k & -> & Hk). apply elem_of_seq in Hk. lia.
  - intros Hi. exists (Z.to_nat (i - a)). split; [lia|].
    apply elem_of_seq. lia.
Qed.

Lemma for_each_app {S I} (body : I → S → Outcome S) xs ys s :
  for_each body (xs ++ ys) s = and_then (for_each body xs s) (for_each body ys).
Proof.
  revert s. induction xs as [|x xs IH]; intros s; simpl; [done|].
  destruct (body x s); simpl; [apply IH|done].
Qed.

Lemma for_each_skip {S I} (body : I → S → Outcome S) xs s :
  (∀ x, x ∈ xs → body x s = Normal s) → for_each body xs s = Normal s.
Proof.
  induction xs as [|x xs IH]; intros Hskip; simpl; [done|].
  rewrite Hskip by left. simpl. apply IH. intros y Hy. apply Hskip. by right.
Qed.

(** An invariant of the loop body holds for the store the loop ends with,
    whether it ends normally or by an exception. *)
Lemma for_each_final {S I} (P : S → Prop) (body : I → S → Outcome S) xs s :
  P s → (∀ x s, x ∈ xs → P s → P (final (body x s))) → P (final (for_each body xs s)).
Proof.
  revert s. induction xs as [|x xs IH]; intros s Hs Hbody; simpl; [done|].
  pose proof (Hbody x s ltac:(left) Hs) as Hx.
  destruct (body x s) as [s'|e s']; simpl in *; [|done].
  apply IH; [done|]. intros y s0 Hy. apply Hbody. by right.
Qed.

(** A loop whose body always ends normally ends normally. *)
Lemma for_each_normal {S I} (P : S → Prop) (body : I → S → Outcome S) xs s :
  P s → (∀ x s, x ∈ xs → P s → ∃ s', body x s = Normal s' ∧ P s') →
  ∃ s', for_each body xs s = Normal s' ∧ P s'.
Proof.
  revert s. induction xs as [|x xs IH]; intros s Hs Hbody; simpl; [by exists s|].
  destruct (Hbody x s ltac:(left) Hs) as (s1 & -> & Hs1). simpl.
  apply IH; [done|]. intros y s0 Hy. apply Hbody. by right.
Qed.

Lemma first_occupied_none fetch idxs :
  (∀ i, i ∈ idxs → ∃ c, fetch i = Ok c ∧ state c ≠ 1) →
  first_occupied fetch idxs = Ok None.
Proof.
  induction idxs as [|i idxs IH]; intros Hfree; simpl; [done|].
  destruct (Hfree i ltac:(left)) as (c & -> & Hc). simpl.
  rewrite decide_False by done. apply IH. intros j Hj. apply Hfree. by right.
Qed.

(** What the scan returns when every fetch succeeds: the cell at offset
    [g + 1] is the first occupied one, or no scanned cell is occupied. *)
Lemma first_occupied_spec fetch a b :
  (∀ i, a ≤ i < b → ∃ c, fetch i = Ok c) →
  (∃ g c, first_occupied fetch (py_range a b) = Ok (Some g) ∧
          a ≤ g + 1 < b ∧ fetch (g + 1) = Ok c ∧ state c = 1 ∧
          ∀ j, a ≤ j < g + 1 → ∃ c', fetch j = Ok c' ∧ state c' ≠ 1)
  ∨ (first_occupied fetch (py_range a b) = Ok None ∧
     ∀ j, a ≤ j < b → ∃ c', fetch j = Ok c' ∧ state c' ≠ 1).
Proof.
  unfold py_range. remember (Z.to_nat (b - a)) as n eqn:Hn.
  revert a Hn. induction n as [|n IH]; intros a Hn Hfetch.
  - right. split; [done|]. intros j Hj. lia.
  - simpl. rewrite Z.add_0_r.
    destruct (Hfetch a ltac:(lia)) as (c & Hc). rewrite Hc. simpl.
    destruct (decide (state c = 1)) as [Hocc|Hfree].
    + left. exists (a - 1), c. replace (a - 1 + 1) with a by lia.
      repeat split; [lia|lia|done|done|]. intros j Hj. lia.
    + rewrite <- fmap_S_seq, <- list_fmap_compose.
      erewrite (list_fmap_ext _ (λ k : nat, (a + 1) + Z.of_nat k)); last first.
      { intros k. simpl. lia. }
      destruct (IH (a + 1) ltac:(lia)) as [(g & c' & Hg & Hb & Hc' & Hs & Hpre)|[Hg Hall]].
      { intros i Hi. apply Hfetch. lia. }
      * left. exists g, c'. repeat split; [done|lia|lia|done|done|].
        intros j Hj. destruct (decide (j = a)) as [->|]; [by exists c|].
        apply Hpre. lia.
      * right. split; [done|]. intros j Hj.
        destruct (decide (j = a)) as [->|]; [by exists c|]. apply Hall. lia.
Qed.

(** ** The notebook's test vectors (section 1.4.4) and the single-lane scenario *)

Section TestVectors.
Let E := empty_cell.
Let C := mkCell.
Let free := [E; E; E; E; E].

Example test_distance :
  TwoLane.distance [[C 1 0; E; C 1 0; E; E]; free] [C 1 0; E; C 1 0; E; E] 2 5 0 0 1 = Ok 2 ∧
  TwoLane.distance [[E; E; C 1 0; E; C 1 0]; free] [E; E; C 1 0; E; C 1 0] 2 5 0 0 (-1) = Ok 2 ∧
  TwoLane.distance [[E; E; C 1 0; E; E]; [C 1 0; E; E; E; E]] [E; E; C 1 0; E; E] 2 5 0 1 1 = Ok 2 ∧
  TwoLane.distance [[E; E; C 1 0; E; E]; [E; E; E; E; C 1 0]] [E; E; C 1 0; E; E] 2 5 0 1 (-1) = Ok 2.
Proof. by vm_compute. Qed.

Example test_condition_1 :
  TwoLane.can_change_lanes [[C 1 2; C 1 2; E; E; E]; free] (C 1 2) 0 0 5 [5; 7] = Ok false ∧
  TwoLane.can_change_lanes [[C 1 2; C 1 0; E; E; E]; free] (C 1 2) 0 0 5 [5; 7] = Ok false ∧
  TwoLane.can_change_lanes [[C 1 2; C 1 3; E; E; E]; free] (C 1 2) 0 0 5 [5; 7] = Ok true.
Proof. by vm_compute. Qed.

Example test_condition_2 :
  TwoLane.can_change_lanes [[E; C 1 5; E; E; E]; [C 1 2; E; E; E; E]] (C 1 2) 1 0 5 [5; 7] = Ok false ∧
  TwoLane.can_change_lanes [[E; E; C 1 2; E; E]; [C 1 2; E; E; E; E]] (C 1 2) 1 0 5 [5; 7] = Ok false ∧
  TwoLane.can_change_lanes [[E; E; E; C 1 0; E]; [C 1 2; E; E; E; E]] (C 1 2) 1 0 5 [5; 7] = Ok true.
Proof. by vm_compute. Qed.

Example test_condition_3 :
  TwoLane.can_change_lanes [free; [C 1 2; E; E; E; C 1 4]] (C 1 2) 1 0 5 [5; 7] = Ok false ∧
  TwoLane.can_change_lanes [free; [C 1 2; E; E; E; C 1 2]] (C 1 2) 1 0 5 [5; 7] = Ok false ∧
  TwoLane.can_change_lanes [free; [C 1 2; E; E; E; C 1 1]] (C 1 2) 1 0 5 [5; 7] = Ok true.
Proof. by vm_compute. Qed.

Example test_condition_4 :
  TwoLane.can_change_lanes [[C 1 2; E; E; E; E]; [E; E; E; E; C 1 3]] (C 1 2) 0 0 5 [5; 7] = Ok false ∧
  TwoLane.can_change_lanes [[C 1 2; E; E; E; E]; [E; E; E; E; C 1 2]] (C 1 2) 0 0 5 [5; 7] = Ok false ∧
  TwoLane.can_change_lanes [[C 1 2; E; E; E; E]; [E; E; E; E; C 1 1]] (C 1 2) 0 0 5 [5; 7] = Ok true.
Proof. by vm_compute. Qed.

Example test_guards :
  TwoLane.can_change_lanes [[C 1 4; E; E; E; E]; [E; E; E; E; C 1 1]] (C 1 4) 0 0 5 [7; 3] = Ok false ∧
  TwoLane.can_change_lanes [[C 1 4; E; E; E; E]; [C 0 0; E; E; E; C 1 1]] (C 1 4) 0 0 5 [7; 7] = Ok false.
Proof. by vm_compute. Qed.

Example test_update_1 :
  TwoLane.update 10 [5; 7] 0%Q
    (TwoLane.mkWorld [[C 1 2; E; C 1 1; E; E; E; E; C 1 3; E; E];
                      [E; E; C 1 3; C 1 0; E; C 1 1; E; E; E; E]] ([] : list Q))
  = Normal (TwoLane.mkWorld [[E; C 1 1; E; E; C 1 2; E; E; E; E; E];
                             [E; C 1 4; C 1 0; E; C 1 1; E; E; C 1 2; E; E]] []).
Proof. by vm_compute. Qed.

Example test_update_2 :
  TwoLane.update 10 [5; 6] 0%Q
    (TwoLane.mkWorld [[C 1 1; E; C 1 2; C 1 3; E; C 1 0; E; E; E; E];
                      [E; E; E; E; E; E; E; E; E; C 1 0]] ([] : list Q))
  = Normal (TwoLane.mkWorld [[E; E; E; E; C 1 1; E; C 1 1; E; E; E];
                             [C 1 1; E; C 1 2; E; E; C 1 3; E; E; E; E]] []).
Proof. by vm_compute. Qed.

Example test_update_3 :
  TwoLane.update 10 [6; 5] 0%Q
    (TwoLane.mkWorld [[C 1 1; E; C 1 5; C 1 5; E; C 1 0; E; E; E; E];
                      [E; E; E; E; E; E; E; E; E; C 1 0]] ([] : list Q))
  = Normal (TwoLane.mkWorld [[E; E; C 1 0; E; C 1 1; E; C 1 1; E; E; E];
                             [C 1 1; E; C 1 2; E; E; E; E; E; E; E]] []).
Proof. by vm_compute. Qed.

Example test_update_4 :
  TwoLane.update 10 [6; 5] 0%Q
    (TwoLane.mkWorld [[E; C 1 2; E; E; C 1 2; E; E; E; E; E];
                      [C 1 0; E; E; E; E; E; C 1 3; E; E; E]] ([] : list Q))
  = Normal (TwoLane.mkWorld [[E; E; E; E; E; E; E; C 1 3; E; E];
                             [E; C 1 1; E; E; C 1 3; E; E; E; E; C 1 3]] []).
Proof. by vm_compute. Qed.

Example test_update_5 :
  TwoLane.update 10 [6; 5] 0%Q
    (TwoLane.mkWorld [[E; C 1 1; E; C 1 0; E; C 1 0; C 1 2; C 1 5; E; E];
                      [C 1 1; E; E; E; E; E; E; E; E; E]] ([] : list Q))
  = Normal (TwoLane.mkWorld [[C 1 3; E; C 1 1; E; C 1 1; E; E; E; E; E];
                             [E; E; C 1 2; E; E; E; C 1 1; E; E; C 1 3]] []).
Proof. by vm_compute. Qed.

(** Road of 5 cells, vehicles of velocity 0 at cells 0 and 2, [p = 0]. *)
Example single_lane_scenario :
  SingleLane.update 5 5 0%Q (SingleLane.mkWorld [C 1 0; E; C 1 0; E; E] [] ([] : list Q))
  = Normal (SingleLane.mkWorld [E; C 1 1; E; C 1 1; E] [] []).
Proof. by vm_compute. Qed.

End TestVectors.

(** ** Single-lane model: the lone vehicle *)

Lemma count_cars_one (cells : list Cell) :
  count_cars cells = 1%nat →
  ∃ k c, cells !! k = Some c ∧ state c = 1 ∧
         ∀ j c', j ≠ k → cells !! j = Some c' → state c' ≠ 1.
Proof.
  unfold count_cars. induction cells as [|a cells IH]; [done|].
  rewrite filter_cons. case_decide as Ha; simpl; intros Hlen.
  - exists 0%nat, a. repeat split; [done|]. intros [|j] c' Hj Hc'; [done|].
    simpl in Hc'. intros Hocc.
    assert (c' ∈ filter (λ c, state c = 1) cells) as Hin.
    { apply list_elem_of_filter. split; [done|]. by eapply list_elem_of_lookup_2. }
    destruct (filter _ cells); [by apply elem_of_nil in Hin|done].
  - destruct (IH Hlen) as (k & c & Hk & Hc & Hothers).
    exists (S k), c. repeat split; [done..|]. intros [|j] c' Hj Hc'.
    + simpl in Hc'. by injection Hc' as <-.
    + simpl in Hc'. apply (Hothers j); [lia|done].
Qed.

Lemma shifted_index_differs i k n :
  1 ≤ i < n → 0 ≤ k < n → (i + k) `mod` n ≠ k ∧ 0 ≤ (i + k) `mod` n < n.
Proof.
  intros Hi Hk. destruct (decide (i + k < n)).
  - rewrite Z.mod_small; lia.
  - replace (i + k) with (i + k - n + 1 * n) by lia.
    rewrite Z_mod_plus_full, Z.mod_small; lia.
Qed.

Section SingleLaneFacts.
Context `{RandomSource G}.
Import SingleLane.

Lemma distance_alone (cells : list Cell) (k : nat) (c : Cell) :
  cells !! k = Some c →
  (∀ j c', j ≠ k → cells !! j = Some c' → state c' ≠ 1) →
  distance cells (Z.of_nat k) (len cells) = Ok None.
Proof.
  intros Hk Hothers. unfold distance. apply first_occupied_none.
  intros i Hi%elem_of_py_range.
  apply lookup_lt_Some in Hk as Hlt.
  destruct (shifted_index_differs i (Z.of_nat k) (len cells)) as [Hne Hm];
    [done|unfold len; lia|].
  rewrite py_mod_ok by (unfold len in *; lia). simpl.
  destruct (py_get_total cells _ Hm) as (c' & Hc' & ->).
  exists c'. split; [done|]. eapply Hothers; [|exact Hc']. lia.
Qed.

Lemma update_body_skip num_cells max_vel p j (w : World G) c' :
  lane w !! j = Some c' → state c' ≠ 1 →
  update_body num_cells max_vel p j w = Normal w.
Proof. intros Hj Hfree. unfold update_body. rewrite Hj. by rewrite decide_False. Qed.
End SingleLaneFacts.

(** C10: on a single-lane road that holds exactly one vehicle, the distance
    scan from that vehicle falls through with no gap ([None]) and the update
    step ends with the [TypeError] raised by the comparison in [decelerate],
    the vehicle having been accelerated and not moved. *)
Theorem single_vehicle_update_raises `{RandomSource G}
    (w : SingleLane.World G) (num_cells max_vel : Z) (p : Q) :
  num_cells = len (SingleLane.lane w) →
  count_cars (SingleLane.lane w) = 1%nat →
  ∃ (k : nat) (c : Cell),
    SingleLane.lane w !! k = Some c ∧ state c = 1 ∧
    SingleLane.distance (SingleLane.lane w) (Z.of_nat k) num_cells = Ok None ∧
    SingleLane.update num_cells max_vel p w =
      Raised TypeError
        (SingleLane.with_lane (λ l, <[k := accelerate c max_vel]> l) w).
Proof.
  intros -> Hone.
  destruct (count_cars_one _ Hone) as (k & c & Hk & Hc & Hothers).
  exists k, c. pose proof (distance_alone _ _ _ Hk Hothers) as Hdist.
  repeat split; [done..|].
  unfold SingleLane.update.
  apply lookup_lt_Some in Hk as Hlt.
  replace (length (SingleLane.lane w)) with (k + S (length (SingleLane.lane w) - S k))%nat by lia.
  rewrite seq_app, for_each_app, for_each_skip.
  - simpl. unfold SingleLane.update_body at 1. rewrite Hk, decide_True by done.
    rewrite Hdist. done.
  - intros j Hj%elem_of_seq.
    destruct (lookup_lt_is_Some_2 (SingleLane.lane w) j ltac:(lia)) as [c' Hc'].
    eapply update_body_skip; [done|].
    apply (Hothers j); [lia|done].
Qed.

Lemma single_vehicle_update_raises_witness :
  ∃ (k : nat) (c : Cell),
    [mkCell 1 0; empty_cell; empty_cell] !! k = Some c ∧ state c = 1 ∧
    SingleLane.distance [mkCell 1 0; empty_cell; empty_cell] (Z.of_nat k) 3 = Ok None ∧
    SingleLane.update 3 5 0%Q (SingleLane.mkWorld [mkCell 1 0; empty_cell; empty_cell] [] ([] : list Q)) =
      Raised TypeError
        (SingleLane.mkWorld (<[k := accelerate c 5]> [mkCell 1 0; empty_cell; empty_cell]) [] []).
Proof.
  apply (single_vehicle_update_raises
           (SingleLane.mkWorld [mkCell 1 0; empty_cell; empty_cell] [] ([] : list Q)) 3 5 0%Q);
    reflexivity.
Defined.

Lemma elem_of_enumerate {A} (l : list A) (i : nat) (x : A) :
  (i, x) ∈ enumerate l → l !! i = Some x.
Proof.
  unfold enumerate. intros (k & Hk)%list_elem_of_lookup.
  apply lookup_zip_with_Some in Hk as (i' & x' & [= -> ->] & Hi & Hx).
  apply lookup_seq in Hi as [-> _]. done.
Qed.

(** C5: on a lane whose only vehicle is the querying one, the single-lane
    distance function falls through and yields [None], where both branches
    of the two-lane distance function yield the road length. *)
Theorem single_lane_gap_of_lone_vehicle :
  let lane := [mkCell 1 0; empty_cell; empty_cell] in
  let free := [empty_cell; empty_cell; empty_cell] in
  SingleLane.distance lane 0 3 = Ok None ∧
  TwoLane.distance [lane; free] lane 0 3 0 0 1 = Ok 3 ∧
  TwoLane.distance [lane; free] lane 0 3 0 1 1 = Ok 3.
Proof. by vm_compute. Qed.

(** ** The dally step *)

Lemma randomize_unfold `{RandomSource G} (cell : Cell) (p : Q) (g : G) :
  randomize cell p g =
    (if Qle_bool (random g).1 p then set_velocity (Z.max (velocity cell - 1) 0) cell
     else cell, (random g).2).
Proof. unfold randomize. by destruct (random g). Qed.

(** For a draw [r], the velocity becomes [max(v - 1, 0)] exactly when
    [r <= p]; the occupancy flag is never touched. *)
Lemma randomize_spec `{RandomSource G} (cell : Cell) (p : Q) (g : G) :
  state (randomize cell p g).1 = state cell ∧
  (((random g).1 <= p)%Q → velocity (randomize cell p g).1 = Z.max (velocity cell - 1) 0) ∧
  (¬ ((random g).1 <= p)%Q → (randomize cell p g).1 = cell).
Proof.
  rewrite randomize_unfold. simpl.
  destruct (Qle_bool (random g).1 p) eqn:Hle.
  - apply Qle_bool_iff in Hle. split; [done|]. split; [done|]. by intros [].
  - split; [done|]. split; [|done].
    intros Hle'. apply Qle_bool_iff in Hle'. congruence.
Qed.

(** With [p = 0] every positive draw leaves the vehicle as it is. *)
Lemma randomize_zero_positive_draw `{RandomSource G} (cell : Cell) (g : G) :
  (0 < (random g).1)%Q → (randomize cell 0%Q g).1 = cell.
Proof.
  intros Hpos. apply randomize_spec. intros Hle. by apply Qle_not_lt in Hle.
Qed.

(** C9: with dally probability 0 and the draw 0.0, which lies in [0,1), the
    comparison [random.random() <= p] holds and a vehicle of velocity 3 is
    slowed to 2. *)
Theorem dally_zero_probability_zero_draw :
  randomize (mkCell 1 3) 0%Q [0%Q] = (mkCell 1 2, []).
Proof. reflexivity. Qed.

(** ** The move phase and destination collisions *)

(** C2, as stated, fails: on a 3-cell lane the vehicles at cells 0 and 1,
    of velocities 2 and 1, both target the free cell 2.  The single-lane
    move ends normally, having printed the cell number 2, and the first
    vehicle is overwritten by the second; the two-lane move ends normally
    with the same lane. *)
Lemma move_collision_not_fatal :
  let lane := [mkCell 1 2; mkCell 1 1; empty_cell] in
  SingleLane.move 3 (SingleLane.mkWorld lane [] ([] : list Q)) =
    Normal (SingleLane.mkWorld [empty_cell; empty_cell; mkCell 1 1] [2] []) ∧
  TwoLane.move 3 lane = Normal [empty_cell; empty_cell; mkCell 1 1] ∧
  count_cars lane = 2%nat ∧
  count_cars [empty_cell; empty_cell; mkCell 1 1] = 1%nat.
Proof. by vm_compute. Qed.

Section MoveFacts.
Context `{RandomSource G}.

Lemma single_move_total (w : SingleLane.World G) (num_cells : Z) :
  num_cells = len (SingleLane.lane w) →
  ∃ w' : SingleLane.World G, SingleLane.move num_cells w = Normal w' ∧
        length (SingleLane.lane w') = length (SingleLane.lane w) ∧
        SingleLane.gen w' = SingleLane.gen w ∧
        ∃ msgs : list Z, SingleLane.stdout w' = SingleLane.stdout w ++ msgs ∧
                Forall (reported_target (SingleLane.lane w) num_cells) msgs.
Proof.
  intros Hn. unfold SingleLane.move.
  apply (for_each_normal (λ s,
    length (SingleLane.lane s) = length (SingleLane.lane w) ∧
    SingleLane.gen s = SingleLane.gen w ∧
    ∃ msgs : list Z, SingleLane.stdout s = SingleLane.stdout w ++ msgs ∧
            Forall (reported_target (SingleLane.lane w) num_cells) msgs)).
  { repeat split. exists []. by rewrite app_nil_r. }
  intros [index cell] s Hin%elem_of_enumerate (Hlen & Hgen & msgs & Hout & Hmsgs).
  unfold SingleLane.move_body. case_decide as Hocc; last first.
  { exists s. do 3 (split; [done|]). by exists msgs. }
  apply lookup_lt_Some in Hin as Hlt.
  rewrite py_mod_ok by (unfold len in Hn; lia). simpl.
  set (next_cell := (Z.of_nat index + velocity cell) `mod` num_cells).
  assert (0 ≤ next_cell < len (SingleLane.lane s)) as Hnext.
  { unfold len. rewrite Hlen. fold (len (SingleLane.lane w)). rewrite <- Hn.
    apply Z.mod_pos_bound. unfold len in Hn. lia. }
  rewrite py_pos_ok by done. simpl.
  destruct (py_get_total _ _ Hnext) as (target & _ & ->). simpl.
  eexists. split; [done|]. case_decide as Hrep; simpl.
  - rewrite !length_alter. do 2 (split; [done|]).
    exists (msgs ++ [next_cell]). rewrite Hout, app_assoc. split; [done|].
    apply Forall_app. split; [done|]. apply Forall_singleton.
    exists index, cell. by destruct Hrep.
  - rewrite !length_alter. do 2 (split; [done|]). by exists msgs.
Qed.

Lemma two_lane_move_total (cells : list Cell) (num_cells : Z) :
  num_cells = len cells →
  ∃ cells', TwoLane.move num_cells cells = Normal cells' ∧
            length cells' = length cells.
Proof.
  intros Hn. unfold TwoLane.move.
  destruct (for_each_normal (λ s : list Cell * bool, length s.1 = length cells)
              (TwoLane.move_body cells num_cells) (enumerate cells) (cells, false))
    as (s' & -> & Hs'); [done| |by exists s'.1].
  intros [index cell] [live flag] Hin%elem_of_enumerate Hlen. simpl in Hlen.
  unfold TwoLane.move_body. case_decide as Hocc; [|by eexists].
  apply lookup_lt_Some in Hin as Hlt.
  rewrite py_mod_ok by (unfold len in Hn; lia). simpl.
  set (next_cell := (Z.of_nat index + velocity cell) `mod` num_cells).
  assert (0 ≤ next_cell < len cells) as Hnext.
  { rewrite <- Hn. apply Z.mod_pos_bound. unfold len in Hn. lia. }
  rewrite py_pos_ok; last first.
  { unfold len in *. destruct flag; rewrite ?length_alter; lia. }
  simpl. destruct (py_get_total _ _ Hnext) as (target & _ & ->). simpl.
  eexists. split; [done|]. simpl.
  destruct flag; rewrite ?length_alter; done.
Qed.
End MoveFacts.

(** ** Two-lane model: the gap query *)

Lemma two_lanes_lookup cells n (i : nat) :
  two_lanes cells n → (i < 2)%nat → ∃ l, cells !! i = Some l ∧ length l = n.
Proof.
  intros (l0 & l1 & -> & H0 & H1) Hi.
  destruct i as [|[|i]]; [by exists l0|by exists l1|lia].
Qed.

Lemma two_lanes_cell cells n (i index : nat) :
  two_lanes cells n → (i < 2)%nat → (index < n)%nat →
  ∃ l c, cells !! i = Some l ∧ length l = n ∧ l !! index = Some c.
Proof.
  intros Hshape Hi Hindex.
  destruct (two_lanes_lookup _ _ _ Hshape Hi) as (l & Hl & Hlen).
  destruct (lookup_lt_is_Some_2 l index ltac:(lia)) as [c Hc]. by exists l, c.
Qed.

Lemma fetch_cyclic (lane : list Cell) (n : nat) (x : Z) :
  length lane = n → (0 < n)%nat →
  ∃ c, lane !! cyc n x = Some c ∧
       (m ← py_mod x (Z.of_nat n); py_get lane m) = Ok c.
Proof.
  intros Hlen Hn. rewrite py_mod_ok by lia. simpl.
  apply py_get_total. unfold len. rewrite Hlen. apply Z.mod_pos_bound. lia.
Qed.

Lemma scan_gap (fetch : Z → Res Cell) (target : list Cell) n index direction :
  length target = n → (0 < n)%nat →
  (∀ j, fetch j = (m ← py_mod (direction * j + index) (Z.of_nat n); py_get target m)) →
  ∃ found, first_occupied fetch (py_range 1 (Z.of_nat n)) = Ok found ∧
           gap_of target n index direction (default (Z.of_nat n) found).
Proof.
  intros Htarget Hn Hfetch.
  assert (∀ j c, fetch j = Ok c → target !! cyc n (direction * j + index) = Some c)
    as Hcell.
  { intros j c Hc. rewrite Hfetch in Hc.
    destruct (fetch_cyclic target n (direction * j + index)) as (c' & Hc' & Hf);
      [done..|]. congruence. }
  destruct (first_occupied_spec fetch 1 (Z.of_nat n))
    as [(g & c & -> & Hg & Hc & Hocc & Hfree)|[-> Hfree]].
  - intros j _. rewrite Hfetch.
    destruct (fetch_cyclic target n (direction * j + index)) as (c & _ & Hc);
      [done..|]. by exists c.
  - exists (Some g). split; [done|]. simpl. left. split; [lia|]. split.
    + exists c. split; [by apply Hcell|done].
    + intros j Hj. destruct (Hfree j ltac:(lia)) as (c' & Hc' & Hs).
      exists c'. split; [by apply Hcell|done].
  - exists None. split; [done|]. simpl. right. split; [done|].
    intros j Hj. destruct (Hfree j Hj) as (c' & Hc' & Hs).
    exists c'. split; [by apply Hcell|done].
Qed.

Lemma distance_gap cells n (i t : nat) curr target index direction :
  two_lanes cells n → (0 < n)%nat →
  cells !! i = Some curr → cells !! t = Some target →
  ∃ d, TwoLane.distance cells curr index (Z.of_nat n)
         (Z.of_nat i) (Z.of_nat t) direction = Ok d ∧
       gap_of target n index direction d.
Proof.
  intros Hshape Hn Hi Ht.
  assert (length curr = n ∧ length target = n) as [Hcurr Htarget].
  { destruct Hshape as (l0 & l1 & -> & H0 & H1).
    destruct i as [|[|i]], t as [|[|t]]; simplify_eq/=; done. }
  unfold TwoLane.distance, len. rewrite Hcurr. case_decide as Heq.
  - assert (i = t) as -> by lia. assert (curr = target) as -> by congruence.
    destruct (scan_gap
                (λ j, m ← py_mod (direction * j + index) (Z.of_nat n); py_get target m)
                target n index direction Htarget Hn) as (found & -> & Hgap);
      [done|]. by eexists.
  - destruct (scan_gap
                (λ j, other_lane ← py_get cells (Z.of_nat t);
                      m ← py_mod (direction * j + index) (Z.of_nat n);
                      py_get other_lane m)
                target n index direction Htarget Hn) as (found & -> & Hgap);
      [|by eexists].
    intros j. by rewrite (py_get_nat _ _ _ Ht).
Qed.

Lemma gap_of_bounds lane n index direction d :
  gap_of lane n index direction d → 0 ≤ d ≤ Z.of_nat n.
Proof. intros [[? _]|[-> _]]; lia. Qed.

(** ** Two-lane model: the lane-change decision *)

Lemma res_bind_ok {A B} (a : A) (f : A → Res B) : (Ok a ≫= f) = f a.
Proof. done. Qed.

Lemma py_get_cyc (lane : list Cell) (n : nat) (x : Z) (c : Cell) :
  (0 < n)%nat → lane !! cyc n x = Some c → py_get lane (x `mod` Z.of_nat n) = Ok c.
Proof.
  intros Hn Hc. apply py_get_ok; [|done].
  pose proof (Z.mod_pos_bound x (Z.of_nat n)). lia.
Qed.

Lemma other_lane_index (i : nat) :
  (i < 2)%nat → (Z.of_nat i + 1) `mod` 2 = Z.of_nat (1 - i).
Proof. intros Hi. destruct i as [|[|i]]; [done|done|lia]. Qed.

Lemma observes_unique cells i index n max_vels nb nb' :
  observes cells i index n max_vels nb → observes cells i index n max_vels nb' →
  nb = nb'.
Proof.
  intros (curr & other & ?) (curr' & other' & ?). destruct_and!.
  destruct nb, nb'. simplify_eq/=. congruence.
Qed.

(** On a well-shaped road the evaluation of [can_change_lanes] raises
    nothing: it observes a neighbourhood and returns the conjunction of the
    guards and conditions on it. *)
Lemma can_change_lanes_eval cells cell (i index n : nat) (max_vels : list Z) :
  two_lanes cells n → length max_vels = 2%nat → (i < 2)%nat → (index < n)%nat →
  ∃ nb, observes cells i index n max_vels nb ∧
    TwoLane.can_change_lanes cells cell (Z.of_nat i) (Z.of_nat index) (Z.of_nat n) max_vels
    = Ok (bool_decide (guards_hold cell nb) && bool_decide (conditions_hold cell nb)).
Proof.
  intros Hshape Hmax Hi Hindex.
  destruct (two_lanes_lookup _ _ i Hshape Hi) as (curr & Hcurr & Hlc).
  destruct (two_lanes_cell _ _ (1 - i) index Hshape ltac:(lia) Hindex)
    as (other & bes & Hother & Hlo & Hbes).
  destruct (lookup_lt_is_Some_2 max_vels (1 - i) ltac:(lia)) as [lim Hlim].
  destruct (distance_gap cells n i i curr curr (Z.of_nat index) 1 Hshape ltac:(lia) Hcurr Hcurr)
    as (gas & Hgas & _).
  destruct (distance_gap cells n i i curr curr (Z.of_nat index) (-1) Hshape ltac:(lia) Hcurr Hcurr)
    as (gbs & Hgbs & _).
  destruct (distance_gap cells n i (1 - i) curr other (Z.of_nat index) 1 Hshape ltac:(lia) Hcurr Hother)
    as (gao & Hgao & _).
  destruct (distance_gap cells n i (1 - i) curr other (Z.of_nat index) (-1) Hshape ltac:(lia) Hcurr Hother)
    as (gbo & Hgbo & _).
  destruct (fetch_cyclic curr n (Z.of_nat index + gas + 1) Hlc ltac:(lia)) as (a & Ha & Hfa).
  destruct (fetch_cyclic curr n (Z.of_nat index - (gbs + 1)) Hlc ltac:(lia)) as (b & Hb & Hfb).
  destruct (fetch_cyclic other n (Z.of_nat index - (gbo + 1)) Hlo ltac:(lia)) as (bo & Hbo & Hfbo).
  exists (mkNeighbourhood lim bes gas gbs gao gbo a b bo). split.
  { exists curr, other. by repeat split. }
  unfold TwoLane.can_change_lanes.
  rewrite (other_lane_index i Hi), (py_get_nat _ _ _ Hcurr), res_bind_ok,
    (py_get_nat _ _ _ Hother), res_bind_ok, Hgas, res_bind_ok, Hgbs, res_bind_ok,
    Hgao, res_bind_ok, Hgbo, res_bind_ok.
  assert (0 < n)%nat as Hn by lia.
  rewrite !py_mod_ok by lia.
  rewrite res_bind_ok, (py_get_cyc _ _ _ _ Hn Ha), res_bind_ok,
    res_bind_ok, (py_get_cyc _ _ _ _ Hn Hb), res_bind_ok,
    res_bind_ok, (py_get_cyc _ _ _ _ Hn Hbo), res_bind_ok,
    (py_get_nat _ _ _ Hlim), res_bind_ok.
  rewrite (py_get_nat _ _ _ Hbes).
  unfold guards_hold, conditions_hold. simpl.
  repeat case_decide; repeat case_bool_decide; simpl; try done; exfalso; tauto.
Qed.

(** C3: on a road of two lanes of [n] cells, [can_change_lanes] returns
    true exactly when both guards and the four safety conditions hold on
    the neighbourhood observed by the distance queries, and returns false
    (the vehicle stays in its lane) otherwise. *)
Theorem can_change_lanes_iff_cautious cells cell (i index n : nat) (max_vels : list Z) :
  two_lanes cells n → length max_vels = 2%nat → (i < 2)%nat → (index < n)%nat →
  (TwoLane.can_change_lanes cells cell (Z.of_nat i) (Z.of_nat index) (Z.of_nat n) max_vels
     = Ok true ↔ cautious_change cells cell i index n max_vels) ∧
  (¬ cautious_change cells cell i index n max_vels →
   TwoLane.can_change_lanes cells cell (Z.of_nat i) (Z.of_nat index) (Z.of_nat n) max_vels
     = Ok false).
Proof.
  intros Hshape Hmax Hi Hindex.
  destruct (can_change_lanes_eval cells cell i index n max_vels Hshape Hmax Hi Hindex)
    as (nb & Hobs & ->).
  assert (bool_decide (guards_hold cell nb) && bool_decide (conditions_hold cell nb) = true
          ↔ cautious_change cells cell i index n max_vels) as Hiff.
  { rewrite andb_true_iff, !bool_decide_eq_true. split.
    - intros [Hg Hc]. by exists nb.
    - intros (nb' & Hobs' & Hg & Hc).
      by rewrite (observes_unique _ _ _ _ _ _ _ Hobs Hobs'). }
  split.
  - split; [intros [= Hb]; by apply Hiff|intros Hc; f_equal; by apply Hiff].
  - intros Hnot. f_equal. apply not_true_is_false. by rewrite Hiff.
Qed.

(** ** Two-lane model: the lane-change phase *)

Lemma cell_at_lookup (cells : TwoLane.Road) (i index : nat) lane :
  cells !! i = Some lane → TwoLane.cell_at cells i index = lane !! index.
Proof. intros Hl. unfold TwoLane.cell_at. by rewrite Hl. Qed.

Lemma two_lanes_py_get cells n (i : nat) :
  two_lanes cells n → (i < 2)%nat →
  ∃ lane, cells !! i = Some lane ∧ length lane = n ∧ py_get cells (Z.of_nat i) = Ok lane.
Proof.
  intros Hshape Hi. destruct (two_lanes_lookup _ _ _ Hshape Hi) as (lane & Hl & Hlen).
  exists lane. by rewrite (py_get_nat _ _ _ Hl).
Qed.

Lemma alter_twice {A} (f g : A → A) (k : nat) (l : list A) :
  alter f k (alter g k l) = alter (f ∘ g) k l.
Proof. apply list_alter_alter_eq. Qed.

Section LaneChangePhase.
Context `{RandomSource G}.
Context (snapshot : TwoLane.Road) (n : nat) (max_vels : list Z).
Context (Hshape : two_lanes snapshot n) (Hmax : length max_vels = 2%nat).

Local Abbreviation wants := (wants_change snapshot n max_vels).

(** A granted change: the cell holds a vehicle, the cell beside it is
    free, and the vehicle is faster than its gap and within the limit of
    the other lane. *)
Lemma wants_change_inv (i k : nat) :
  (i < 2)%nat → (k < n)%nat → wants i k = true →
  ∃ lane c c' gap limit,
    snapshot !! i = Some lane ∧ lane !! k = Some c ∧ state c = 1 ∧
    TwoLane.cell_at snapshot (1 - i) k = Some c' ∧ state c' = 0 ∧
    TwoLane.distance snapshot lane (Z.of_nat k) (Z.of_nat n)
      (Z.of_nat i) (Z.of_nat i) 1 = Ok gap ∧ velocity c > gap ∧
    max_vels !! (1 - i)%nat = Some limit ∧ velocity c ≤ limit.
Proof.
  intros Hi Hk. unfold wants_change.
  destruct (two_lanes_cell _ _ i k Hshape Hi Hk) as (lane & c & Hl & Hlen & Hc).
  rewrite Hl, (cell_at_lookup _ _ _ _ Hl), Hc.
  destruct (can_change_lanes_eval snapshot c i k n max_vels Hshape Hmax Hi Hk)
    as (nb & (curr & other & Hobs) & ->).
  destruct (TwoLane.distance snapshot lane _ _ _ _ 1) as [gap|] eqn:Hgap;
    [|by rewrite andb_false_r].
  rewrite !andb_true_iff, !bool_decide_eq_true. intros [[Hocc Hfast] [[Hlim Hfree] _]].
  destruct_and!.
  exists lane, c, (beside nb), gap, (limit nb).
  repeat split; try done. by erewrite cell_at_lookup.
Qed.

Lemma wants_change_exclusive (i k : nat) :
  (i < 2)%nat → (k < n)%nat → wants i k = true → wants (1 - i) k = false.
Proof.
  intros Hi Hk Hw.
  destruct (wants_change_inv i k Hi Hk Hw)
    as (lane & c & c' & gap & limit & _ & _ & _ & Hc' & Hfree & _).
  unfold wants_change. rewrite Hc'.
  destruct (snapshot !! (1 - i)%nat); [|done].
  rewrite bool_decide_eq_false_2; [done|lia].
Qed.

(** The loop body on a cell that still is the snapshot's: the decision is
    the snapshot's. *)
Lemma lane_change_body_settled (w : TwoLane.World G) (i k : nat) :
  (i < 2)%nat → (k < n)%nat →
  TwoLane.cell_at (TwoLane.road w) i k = TwoLane.cell_at snapshot i k →
  TwoLane.lane_change_body snapshot (Z.of_nat n) max_vels i k w =
    if wants i k then TwoLane.change_lanes (Z.of_nat i) (Z.of_nat k) w else Normal w.
Proof.
  intros Hi Hk Hlive. unfold TwoLane.lane_change_body, wants_change.
  destruct (two_lanes_cell _ _ i k Hshape Hi Hk) as (lane & c & Hl & Hlen & Hc).
  rewrite Hlive, Hl, (cell_at_lookup _ _ _ _ Hl), Hc.
  rewrite (py_get_nat _ _ _ Hl). simpl.
  destruct (distance_gap snapshot n i i lane lane (Z.of_nat k) 1 Hshape ltac:(lia) Hl Hl)
    as (gap & -> & _). simpl.
  rewrite (py_get_nat _ _ _ Hc). simpl.
  destruct (can_change_lanes_eval snapshot c i k n max_vels Hshape Hmax Hi Hk)
    as (nb & _ & ->). simpl.
  case_decide as Hocc;
    [rewrite (bool_decide_eq_true_2 _ Hocc)|by rewrite (bool_decide_eq_false_2 _ Hocc)].
  simpl. case_decide as Hfast;
    [rewrite (bool_decide_eq_true_2 _ Hfast)|by rewrite (bool_decide_eq_false_2 _ Hfast)].
  simpl. by destruct (bool_decide _ && bool_decide _).
Qed.

(** The loop body on a cell whose snapshot neighbour is occupied, as is the
    cell a vehicle has just arrived in: no lane change is granted. *)
Lemma lane_change_body_beside_occupied (w : TwoLane.World G) (i k : nat) c' :
  (i < 2)%nat → (k < n)%nat →
  TwoLane.cell_at snapshot (1 - i) k = Some c' → state c' ≠ 0 →
  TwoLane.lane_change_body snapshot (Z.of_nat n) max_vels i k w = Normal w.
Proof.
  intros Hi Hk Hbeside Hocc. unfold TwoLane.lane_change_body.
  destruct (TwoLane.cell_at (TwoLane.road w) i k) as [live|]; [|done].
  case_decide; [|done].
  destruct (two_lanes_cell _ _ i k Hshape Hi Hk) as (lane & c & Hl & Hlen & Hc).
  rewrite (py_get_nat _ _ _ Hl). simpl.
  destruct (distance_gap snapshot n i i lane lane (Z.of_nat k) 1 Hshape ltac:(lia) Hl Hl)
    as (gap & -> & _). simpl.
  case_decide; [|done].
  rewrite (py_get_nat _ _ _ Hc). simpl.
  destruct (can_change_lanes_eval snapshot c i k n max_vels Hshape Hmax Hi Hk)
    as (nb & (curr & other & Hobs) & ->). simpl.
  destruct_and!.
  assert (beside nb = c') as Hnb.
  { erewrite cell_at_lookup in Hbeside by done. congruence. }
  rewrite (bool_decide_eq_false_2 (guards_hold c nb)); [done|].
  intros [_ Hfree]. congruence.
Qed.

Lemma change_lanes_eval (w : TwoLane.World G) (i k : nat) c :
  two_lanes (TwoLane.road w) n → (i < 2)%nat → (k < n)%nat →
  TwoLane.cell_at (TwoLane.road w) i k = Some c →
  TwoLane.change_lanes (Z.of_nat i) (Z.of_nat k) w =
    Normal (TwoLane.with_road (λ r,
      TwoLane.alter_cell (λ _, empty_cell) i k
        (TwoLane.alter_cell (λ _, mkCell 1 (velocity c)) (1 - i) k r)) w).
Proof.
  intros Hw Hi Hk Hc. unfold TwoLane.change_lanes.
  destruct (two_lanes_py_get _ _ i Hw Hi) as (curr & Hcurr & Hlc & Hgc).
  destruct (two_lanes_py_get _ _ (1 - i) Hw ltac:(lia)) as (other & Hother & Hlo & Hgo).
  rewrite (other_lane_index i Hi), Hgc, Hgo.
  rewrite (cell_at_lookup _ _ _ _ Hcurr) in Hc.
  apply lookup_lt_Some in Hcurr as Hi', Hother as Ho'.
  rewrite !py_pos_ok by (unfold len; lia). simpl.
  rewrite !py_pos_ok by (unfold len; lia). simpl.
  rewrite (py_get_nat _ _ _ Hc). simpl. rewrite !Nat2Z.id.
  unfold TwoLane.with_road, TwoLane.alter_cell. do 2 f_equal.
  rewrite !alter_twice. apply list_alter_ext.
  - intros l _. simpl. rewrite alter_twice. by apply list_alter_ext.
  - apply list_alter_ext; [|done].
    intros l _. simpl. rewrite alter_twice. by apply list_alter_ext.
Qed.

Lemma alter_imap_point {A} (f g : nat → A → A) (x : A) (k : nat) (l : list A) :
  (∀ j a, j ≠ k → l !! j = Some a → f j a = g j a) →
  (∀ a, l !! k = Some a → g k a = x) →
  alter (λ _, x) k (imap f l) = imap g l.
Proof.
  intros Hother Hpoint. apply list_eq. intros j.
  rewrite list_lookup_alter, !list_lookup_imap. case_decide as Hj.
  - subst j. destruct (l !! k) as [a|] eqn:Ha; simpl; [|done].
    by rewrite (Hpoint a).
  - destruct (l !! j) as [a|] eqn:Ha; simpl; [|done]. f_equal. by apply Hother.
Qed.

Lemma after_changes_two (l0 l1 : list Cell) (W : nat → nat → bool) :
  after_changes [l0; l1] W =
    [imap (changed_cell [l0; l1] W 0) l0; imap (changed_cell [l0; l1] W 1) l1].
Proof. reflexivity. Qed.

Lemma after_changes_shape (W : nat → nat → bool) :
  two_lanes (after_changes snapshot W) n.
Proof.
  destruct Hshape as (l0 & l1 & -> & H0 & H1). rewrite after_changes_two.
  eexists _, _. split; [reflexivity|]. by rewrite !length_imap.
Qed.

Lemma after_changes_cell (W : nat → nat → bool) (i j : nat) lane c :
  snapshot !! i = Some lane → lane !! j = Some c →
  TwoLane.cell_at (after_changes snapshot W) i j = Some (changed_cell snapshot W i j c).
Proof.
  intros Hl Hc. unfold TwoLane.cell_at, after_changes.
  rewrite list_lookup_imap, Hl. simpl. by rewrite list_lookup_imap, Hc.
Qed.

Lemma after_changes_ext (W W' : nat → nat → bool) :
  (∀ i j, (i < 2)%nat → (j < n)%nat → W i j = W' i j) →
  after_changes snapshot W = after_changes snapshot W'.
Proof.
  intros Hext. unfold after_changes. apply imap_ext. intros i lane Hl.
  assert (i < 2)%nat as Hi.
  { destruct Hshape as (l0 & l1 & -> & _). by apply lookup_lt_Some in Hl. }
  destruct (two_lanes_lookup _ _ i Hshape Hi) as (lane' & Hl' & Hlen).
  assert (lane' = lane) as -> by congruence.
  apply imap_ext. intros j c Hc. apply lookup_lt_Some in Hc as Hj.
  unfold changed_cell. by rewrite !Hext by lia.
Qed.

(** Committing one more decision, at lane [i] and cell [k]. *)
Lemma after_changes_commit (W : nat → nat → bool) (i k : nat) c :
  (i < 2)%nat → (k < n)%nat → TwoLane.cell_at snapshot i k = Some c →
  W (1 - i)%nat k = false →
  TwoLane.alter_cell (λ _, empty_cell) i k
    (TwoLane.alter_cell (λ _, mkCell 1 (velocity c)) (1 - i) k (after_changes snapshot W))
  = after_changes snapshot
      (λ i' j', if decide (i' = i ∧ j' = k) then true else W i' j').
Proof.
  intros Hi Hk Hc Hfree.
  destruct Hshape as (l0 & l1 & -> & H0 & H1).
  rewrite !after_changes_two. unfold TwoLane.alter_cell.
  destruct i as [|[|i]]; [| |lia]; simpl in *; f_equal; [|f_equal| |f_equal].
  - apply alter_imap_point.
    + intros j a Hj _. unfold changed_cell. simpl.
      repeat case_decide; destruct_and?; try done; lia.
    + intros a _. unfold changed_cell. by rewrite decide_True.
  - apply alter_imap_point.
    + intros j a Hj _. unfold changed_cell. simpl.
      repeat case_decide; destruct_and?; try done; lia.
    + intros a _. unfold changed_cell, TwoLane.cell_at. simpl.
      rewrite Hfree, decide_True by done.
      unfold TwoLane.cell_at in Hc. simpl in Hc. by rewrite Hc.
  - apply alter_imap_point.
    + intros j a Hj _. unfold changed_cell. simpl.
      repeat case_decide; destruct_and?; try done; lia.
    + intros a _. unfold changed_cell, TwoLane.cell_at. simpl.
      rewrite Hfree, decide_True by done.
      unfold TwoLane.cell_at in Hc. simpl in Hc. by rewrite Hc.
  - apply alter_imap_point.
    + intros j a Hj _. unfold changed_cell. simpl.
      repeat case_decide; destruct_and?; try done; lia.
    + intros a _. unfold changed_cell. by rewrite decide_True.
Qed.

Lemma after_changes_none (W : nat → nat → bool) :
  (∀ i j, W i j = false) → after_changes snapshot W = snapshot.
Proof.
  intros Hnone. unfold after_changes. apply list_eq. intros i.
  rewrite list_lookup_imap. destruct (snapshot !! i) as [lane|]; simpl; [|done].
  f_equal. apply list_eq. intros j. rewrite list_lookup_imap.
  destruct (lane !! j) as [c|]; simpl; [|done].
  unfold changed_cell. by rewrite !Hnone.
Qed.

(** One iteration of the lane-change loops, on the road where the
    decisions [W] are committed: it commits the snapshot's decision for the
    cell it visits, and nothing else. *)
Lemma lane_change_step (W W' : nat → nat → bool) (i k : nat) (g : G) :
  (i < 2)%nat → (k < n)%nat →
  W i k = false →
  (W (1 - i)%nat k = true → wants (1 - i)%nat k = true) →
  (∀ i' j', (i' < 2)%nat → (j' < n)%nat →
     W' i' j' = if decide (i' = i ∧ j' = k) then wants i k else W i' j') →
  TwoLane.lane_change_body snapshot (Z.of_nat n) max_vels i k
    (TwoLane.mkWorld (after_changes snapshot W) g)
  = Normal (TwoLane.mkWorld (after_changes snapshot W') g).
Proof.
  intros Hi Hk Hown Harrived HW'.
  destruct (two_lanes_cell _ _ i k Hshape Hi Hk) as (lane & c & Hl & Hlen & Hc).
  destruct (W (1 - i)%nat k) eqn:Hbeside.
  - (* a vehicle has arrived in this cell *)
    specialize (Harrived eq_refl).
    destruct (wants_change_inv (1 - i) k ltac:(lia) Hk Harrived)
      as (lane' & c' & _ & _ & _ & Hl' & Hc' & Hocc & _).
    rewrite (lane_change_body_beside_occupied _ i k c' Hi Hk);
      [|by rewrite (cell_at_lookup _ _ _ _ Hl')|lia].
    do 2 f_equal. apply after_changes_ext. intros i' j' Hi' Hj'.
    rewrite HW' by done. case_decide as Heq; [|done]. destruct Heq as [-> ->].
    rewrite Hown. pose proof (wants_change_exclusive (1 - i) k ltac:(lia) Hk Harrived) as Hex.
    by replace (1 - (1 - i))%nat with i in Hex by lia.
  - (* the cell still is the snapshot's *)
    assert (TwoLane.cell_at (after_changes snapshot W) i k = Some c) as Hlive.
    { rewrite (after_changes_cell W i k lane c Hl Hc).
      unfold changed_cell. by rewrite Hown, Hbeside. }
    rewrite lane_change_body_settled; [|done..|]; last first.
    { simpl. by rewrite Hlive, (cell_at_lookup _ _ _ _ Hl). }
    destruct (wants i k) eqn:Hw.
    + rewrite (change_lanes_eval _ i k c); [|apply after_changes_shape|done..].
      unfold TwoLane.with_road. simpl. do 2 f_equal.
      rewrite after_changes_commit; [|done|done|by rewrite (cell_at_lookup _ _ _ _ Hl)|done].
      apply after_changes_ext. intros i' j' Hi' Hj'. rewrite HW' by done.
      by case_decide.
    + do 2 f_equal. apply after_changes_ext. intros i' j' Hi' Hj'.
      rewrite HW' by done. case_decide as Heq; [|done]. by destruct Heq as [-> ->].
Qed.

Lemma lane_change_pass (i : nat) (g : G) (m k : nat) :
  (i < 2)%nat → (k + m ≤ n)%nat →
  for_each (TwoLane.lane_change_body snapshot (Z.of_nat n) max_vels i) (seq k m)
    (TwoLane.mkWorld (after_changes snapshot (reached wants n i k)) g)
  = Normal (TwoLane.mkWorld (after_changes snapshot (reached wants n i (k + m))) g).
Proof.
  intros Hi. revert k. induction m as [|m IH]; intros k Hkm; simpl.
  { by rewrite Nat.add_0_r. }
  rewrite (lane_change_step _ (reached wants n i (S k))); [|done|lia|..].
  - simpl. rewrite IH by lia. by replace (S k + m)%nat with (k + S m)%nat by lia.
  - destruct i as [|[|i]]; [| |lia]; unfold reached, progress;
      rewrite bool_decide_eq_false_2; try lia; apply andb_false_r.
  - destruct i as [|[|i]]; [| |lia]; unfold reached, progress; simpl;
      intros [Hw _]%andb_true_iff; done.
  - intros i' j' Hi' Hj'.
    destruct i as [|[|i]], i' as [|[|i']]; try lia; unfold reached, progress;
      repeat case_decide; repeat case_bool_decide; destruct_and?;
      simplify_eq; rewrite ?andb_true_r, ?andb_false_r; try done; lia.
Qed.

(** The whole lane-change phase, run on the post-acceleration snapshot,
    commits exactly the decisions read off that snapshot. *)
Lemma lane_change_phase (g : G) :
  TwoLane.for_lanes (TwoLane.lane_change_body snapshot (Z.of_nat n) max_vels)
    (TwoLane.mkWorld snapshot g)
  = Normal (TwoLane.mkWorld (after_changes snapshot wants) g).
Proof.
  unfold TwoLane.for_lanes. simpl.
  destruct (two_lanes_py_get _ _ 0 Hshape ltac:(lia)) as (l0 & _ & Hl0 & ->). simpl.
  rewrite Hl0.
  rewrite <- (after_changes_none (reached wants n 0 0)) at 2; last first.
  { intros i j. unfold reached, progress.
    rewrite bool_decide_eq_false_2; [apply andb_false_r|destruct i; lia]. }
  rewrite (lane_change_pass 0 g n 0) by lia. simpl.
  destruct (two_lanes_py_get _ _ 1 (after_changes_shape (progress wants n 0)) ltac:(lia))
    as (l1 & _ & Hl1 & ->). simpl. rewrite Hl1.
  pose proof (lane_change_pass 1 g n 0 ltac:(lia) ltac:(lia)) as Hpass.
  unfold reached in *. simpl in *. rewrite Hpass. simpl.
  do 2 f_equal. apply after_changes_ext. intros i j Hi Hj.
  unfold progress. rewrite bool_decide_eq_true_2; [apply andb_true_r|].
  destruct i; lia.
Qed.

End LaneChangePhase.

(** ** Two-lane model: velocity bounds through the phases *)

Lemma cell_at_alter_cell (f : Cell → Cell) (i k i' k' : nat) (cells : TwoLane.Road) :
  TwoLane.cell_at (TwoLane.alter_cell f i k cells) i' k' =
    if decide (i = i' ∧ k = k') then f <$> TwoLane.cell_at cells i k
    else TwoLane.cell_at cells i' k'.
Proof.
  unfold TwoLane.cell_at, TwoLane.alter_cell. rewrite list_lookup_alter.
  destruct (decide (i = i')) as [<-|Hi].
  - destruct (cells !! i) as [lane|]; simpl.
    + rewrite list_lookup_alter. repeat case_decide; destruct_and?; try done.
      * exfalso. tauto.
    + by case_decide.
  - rewrite decide_False; [done|]. by intros [? _].
Qed.

Lemma two_lanes_alter_cell (f : Cell → Cell) (i k n : nat) (cells : TwoLane.Road) :
  two_lanes cells n → two_lanes (TwoLane.alter_cell f i k cells) n.
Proof.
  intros (l0 & l1 & -> & H0 & H1). unfold TwoLane.alter_cell.
  destruct i as [|[|i]]; simpl; eexists _, _; (split; [reflexivity|]);
    by rewrite ?length_alter.
Qed.

Lemma road_ok_alter_cell (f : Cell → Cell) (i k : nat) max_vels (cells : TwoLane.Road) :
  road_ok max_vels cells →
  (∀ limit c, max_vels !! i = Some limit → TwoLane.cell_at cells i k = Some c →
              cell_ok limit (f c)) →
  road_ok max_vels (TwoLane.alter_cell f i k cells).
Proof.
  intros Hok Hf i' k' limit c Hlimit. rewrite cell_at_alter_cell.
  case_decide as Heq; [|by apply Hok]. destruct Heq as [<- <-].
  destruct (TwoLane.cell_at cells i k) as [c0|] eqn:Hc0; [|done].
  intros [= <-]. by apply Hf.
Qed.

Lemma cell_ok_empty limit : cell_ok limit empty_cell.
Proof. by right. Qed.

Lemma cell_ok_accelerate limit c :
  cell_ok limit c → state c = 1 → cell_ok limit (accelerate c limit).
Proof.
  intros [[_ Hv]|[Hs _]] Hocc; [|congruence]. left. split; [done|]. simpl. lia.
Qed.

Lemma cell_ok_decelerate limit c gap c' :
  cell_ok limit c → state c = 1 → 0 ≤ gap → decelerate c (Some gap) = Ok c' →
  cell_ok limit c' ∧ state c' = 1.
Proof.
  intros [[_ Hv]|[Hs _]] Hocc Hgap [= <-]; [|congruence].
  case_decide; (split; [left|done]); (split; [done|]); simpl; lia.
Qed.

Lemma cell_ok_randomize `{RandomSource G} limit c p (g : G) :
  cell_ok limit c → state c = 1 → cell_ok limit (randomize c p g).1.
Proof.
  intros [[_ Hv]|[Hs _]] Hocc; [|congruence]. rewrite randomize_unfold. simpl.
  destruct (Qle_bool _ _); left; (split; [done|]); simpl; lia.
Qed.

Section TwoLanePhases.
Context `{RandomSource G}.
Context (n : nat) (max_vels : list Z) (Hmax : length max_vels = 2%nat).

Local Abbreviation phase_inv := (phase_inv (G:=G) n max_vels).

(** The loop nest of a phase ends normally when each iteration does, and
    carries an invariant that entails the shape of the road. *)
Lemma for_lanes_normal (P : TwoLane.World G → Prop)
    (body : nat → nat → TwoLane.World G → Outcome (TwoLane.World G)) w :
  P w → (∀ w, P w → two_lanes (TwoLane.road w) n) →
  (∀ i k w, (i < 2)%nat → (k < n)%nat → P w → ∃ w', body i k w = Normal w' ∧ P w') →
  ∃ w', TwoLane.for_lanes body w = Normal w' ∧ P w'.
Proof.
  intros Hw Hshape Hbody. unfold TwoLane.for_lanes.
  apply (for_each_normal P); [done|].
  intros i w0 Hi Hw0.
  assert (i < 2)%nat as Hi2.
  { apply list_elem_of_lookup in Hi as [j Hj]. destruct j as [|[|j]]; simplify_eq/=; lia. }
  destruct (two_lanes_py_get _ _ i (Hshape _ Hw0) Hi2) as (lane & _ & Hlen & ->).
  simpl. rewrite Hlen. apply (for_each_normal P); [done|].
  intros k w1 Hk%elem_of_seq Hw1. apply Hbody; [done|lia|done].
Qed.

Lemma accelerate_phase w :
  phase_inv w →
  ∃ w', TwoLane.for_lanes (TwoLane.accelerate_body max_vels) w = Normal w' ∧
        phase_inv w' ∧ TwoLane.gen w' = TwoLane.gen w.
Proof.
  intros Hw.
  destruct (for_lanes_normal (λ w', phase_inv w' ∧ TwoLane.gen w' = TwoLane.gen w)
              (TwoLane.accelerate_body max_vels) w) as (w' & Hrun & Hinv);
    [done|by intros ? [[? _] _]| |by exists w'].
  intros i k w0 Hi Hk [[Hshape Hok] Hgen]. unfold TwoLane.accelerate_body.
  destruct (TwoLane.cell_at (TwoLane.road w0) i k) as [c|] eqn:Hc; [|by exists w0].
  case_decide as Hocc; [|by exists w0].
  destruct (lookup_lt_is_Some_2 max_vels i ltac:(lia)) as [limit Hlimit].
  rewrite (py_get_nat _ _ _ Hlimit). simpl. eexists. split; [done|].
  split; [split|done]; simpl.
  - by apply two_lanes_alter_cell.
  - apply road_ok_alter_cell; [done|]. intros limit' c' Hl' Hc'. simplify_eq.
    apply cell_ok_accelerate; [|done]. by eapply Hok.
Qed.

(** The deceleration loop body at an occupied cell: the gap is read off
    the snapshot, whatever the live road has become. *)
Lemma decelerate_body_eval (snapshot : TwoLane.Road) (p : Q) (w : TwoLane.World G)
    (i k : nat) c :
  two_lanes snapshot n → (i < 2)%nat → (k < n)%nat →
  TwoLane.cell_at (TwoLane.road w) i k = Some c → state c = 1 →
  ∃ lane gap,
    snapshot !! i = Some lane ∧
    TwoLane.distance snapshot lane (Z.of_nat k) (Z.of_nat n)
      (Z.of_nat i) (Z.of_nat i) 1 = Ok gap ∧
    gap_of lane n (Z.of_nat k) 1 gap ∧
    TwoLane.decelerate_body snapshot (Z.of_nat n) p i k w =
      let slowed := if decide (velocity c > gap) then set_velocity gap c else c in
      Normal (TwoLane.mkWorld
                (TwoLane.alter_cell (λ _, (randomize slowed p (TwoLane.gen w)).1) i k
                                    (TwoLane.road w))
                (randomize slowed p (TwoLane.gen w)).2).
Proof.
  intros Hsnap Hi Hk Hc Hocc.
  destruct (two_lanes_py_get _ _ i Hsnap Hi) as (lane & Hl & Hlen & Hget).
  destruct (distance_gap snapshot n i i lane lane (Z.of_nat k) 1 Hsnap ltac:(lia) Hl Hl)
    as (gap & Hgap & Hspec).
  exists lane, gap. repeat split; [done..|].
  unfold TwoLane.decelerate_body. rewrite Hc, decide_True by done.
  rewrite Hget. simpl. rewrite Hgap. simpl.
  by destruct (randomize _ p (TwoLane.gen w)).
Qed.

Lemma decelerate_phase (snapshot : TwoLane.Road) (p : Q) w :
  two_lanes snapshot n → phase_inv w →
  ∃ w', TwoLane.for_lanes (TwoLane.decelerate_body snapshot (Z.of_nat n) p) w = Normal w' ∧
        phase_inv w'.
Proof.
  intros Hsnap Hw. apply (for_lanes_normal phase_inv); [done|by intros ? [? _]|].
  intros i k w0 Hi Hk [Hshape Hok].
  destruct (TwoLane.cell_at (TwoLane.road w0) i k) as [c|] eqn:Hc; last first.
  { exists w0. unfold TwoLane.decelerate_body. by rewrite Hc. }
  destruct (decide (state c = 1)) as [Hocc|Hfree]; last first.
  { exists w0. unfold TwoLane.decelerate_body. by rewrite Hc, decide_False. }
  destruct (decelerate_body_eval snapshot p w0 i k c Hsnap Hi Hk Hc Hocc)
    as (lane & gap & _ & _ & Hgap%gap_of_bounds & ->).
  eexists. split; [done|]. split; simpl.
  - by apply two_lanes_alter_cell.
  - apply road_ok_alter_cell; [done|]. intros limit c' Hlimit Hc'. simplify_eq.
    assert (cell_ok limit c) as Hcok by by eapply Hok.
    destruct (cell_ok_decelerate limit c gap _ Hcok Hocc ltac:(lia) eq_refl) as [Hslow Hs].
    by apply cell_ok_randomize.
Qed.

Lemma road_ok_two (m0 m1 : Z) (l0 l1 : list Cell) :
  road_ok [m0; m1] [l0; l1] ↔ Forall (cell_ok m0) l0 ∧ Forall (cell_ok m1) l1.
Proof.
  unfold road_ok, TwoLane.cell_at. split.
  - intros Hok. split; apply Forall_lookup; intros k c Hc.
    + by apply (Hok 0%nat k).
    + by apply (Hok 1%nat k).
  - intros [H0 H1] i k limit c Hlimit Hc.
    destruct i as [|[|i]]; simplify_eq/=; by eapply Forall_lookup_1.
Qed.

Lemma Forall_alter_to {A} (P : A → Prop) (f : A → A) (k : nat) (l : list A) :
  Forall P l → (∀ x, P (f x)) → Forall P (alter f k l).
Proof. intros Hl Hf. apply Forall_alter; [done|]. intros x _ _. apply Hf. Qed.

Lemma cell_ok_arrive limit v c :
  0 ≤ v ≤ limit → cell_ok limit (set_velocity v (set_state 1 c)).
Proof. intros Hv. by left. Qed.

Lemma cell_ok_leave limit c : cell_ok limit (set_velocity (-1) (set_state 0 c)).
Proof. by right. Qed.

Lemma cell_ok_speed limit c : cell_ok limit c → state c = 1 → 0 ≤ velocity c ≤ limit.
Proof. intros [[_ Hv]|[Hs _]] Hocc; [done|congruence]. Qed.

(** The two-lane move keeps the velocity bounds of its lane. *)
Lemma two_lane_move_bounds (limit : Z) (cells : list Cell) (num_cells : Z) :
  num_cells = len cells → Forall (cell_ok limit) cells →
  ∃ cells', TwoLane.move num_cells cells = Normal cells' ∧
            length cells' = length cells ∧ Forall (cell_ok limit) cells'.
Proof.
  intros Hn Hok.
  destruct (two_lane_move_total cells num_cells Hn) as (cells' & Hmove & Hlen).
  exists cells'. repeat split; [done..|].
  unfold TwoLane.move in Hmove.
  pose proof (for_each_final (λ s : list Cell * bool, Forall (cell_ok limit) s.1)
                (TwoLane.move_body cells num_cells) (enumerate cells) (cells, false) Hok)
    as Hfinal.
  destruct (for_each _ _ _) as [s|e s]; [|done]. injection Hmove as <-.
  apply Hfinal. clear Hfinal.
  intros [index cell] [live flag] Hin%elem_of_enumerate Hlive. simpl in Hlive.
  unfold TwoLane.move_body. case_decide as Hocc; [|done].
  pose proof (cell_ok_speed limit cell (Forall_lookup_1 _ _ _ _ Hok Hin) Hocc) as Hv.
  destruct (py_mod _ _) as [next_cell|]; [|done]. simpl.
  set (cells1 := if flag then live else _).
  assert (Forall (cell_ok limit) cells1) as Hcells1.
  { unfold cells1. destruct flag; [done|]. rewrite alter_twice.
    apply Forall_alter_to; [done|]. intros x. apply cell_ok_leave. }
  destruct (py_pos cells1 next_cell) as [k|]; [|done]. simpl.
  assert (Forall (cell_ok limit)
            (alter (set_velocity (velocity cell)) k (alter (set_state 1) k cells1))).
  { rewrite alter_twice. apply Forall_alter_to; [done|]. intros x.
    by apply cell_ok_arrive. }
  by destruct (py_get cells next_cell).
Qed.

Lemma move_phase (w : TwoLane.World G) :
  phase_inv w →
  ∃ w', for_each (TwoLane.move_lane (Z.of_nat n)) [0%nat; 1%nat] w = Normal w' ∧
        phase_inv w' ∧ TwoLane.gen w' = TwoLane.gen w.
Proof.
  destruct w as [cells g]. intros [(l0 & l1 & Hroad & H0 & H1) Hok].
  simpl in Hroad. subst cells. simpl in Hok. unfold phase_inv.
  assert (∃ m0 m1, max_vels = [m0; m1]) as (m0 & m1 & Hmv).
  { destruct max_vels as [|m0 [|m1 [|]]]; try done. by exists m0, m1. }
  rewrite Hmv in *.
  apply road_ok_two in Hok as [Hok0 Hok1].
  destruct (two_lane_move_bounds m0 l0 (Z.of_nat n)) as (l0' & Hm0 & Hl0 & Hok0');
    [unfold len; congruence|done|].
  destruct (two_lane_move_bounds m1 l1 (Z.of_nat n)) as (l1' & Hm1 & Hl1 & Hok1');
    [unfold len; congruence|done|].
  unfold TwoLane.move_lane. simpl.
  change (py_get [l0; l1] 0) with (Ok l0). simpl. rewrite Hm0. simpl.
  change (py_get [l0'; l1] 1) with (Ok l1). simpl. rewrite Hm1. simpl.
  eexists. split; [done|]. split; [split|done].
  - exists l0', l1'. repeat split; congruence.
  - by apply (proj2 (road_ok_two m0 m1 l0' l1')).
Qed.

Lemma after_changes_ok (snapshot : TwoLane.Road) :
  two_lanes snapshot n → road_ok max_vels snapshot →
  road_ok max_vels (after_changes snapshot (wants_change snapshot n max_vels)).
Proof.
  intros Hshape Hok i k limit c Hlimit Hc.
  unfold TwoLane.cell_at, after_changes in Hc. rewrite list_lookup_imap in Hc.
  destruct (snapshot !! i) as [lane|] eqn:Hl; [|done]. simpl in Hc.
  rewrite list_lookup_imap in Hc.
  destruct (lane !! k) as [c0|] eqn:Hc0; [|done]. injection Hc as <-.
  assert (i < 2)%nat as Hi.
  { destruct Hshape as (l0 & l1 & -> & _). by apply lookup_lt_Some in Hl. }
  assert (k < n)%nat as Hk.
  { destruct (two_lanes_lookup _ _ i Hshape Hi) as (lane' & Hl' & Hlen).
    apply lookup_lt_Some in Hc0. congruence. }
  unfold changed_cell. destruct (wants_change snapshot n max_vels i k);
    [apply cell_ok_empty|].
  destruct (wants_change snapshot n max_vels (1 - i) k) eqn:Hw; last first.
  { apply (Hok i k); [done|]. by rewrite (cell_at_lookup _ _ _ _ Hl). }
  destruct (wants_change_inv snapshot n max_vels Hshape Hmax (1 - i) k ltac:(lia) Hk Hw)
    as (lane' & c' & _ & _ & limit' & Hl' & Hc' & Hocc & _ & _ & _ & _ & Hlimit' & Hle).
  replace (1 - (1 - i))%nat with i in Hlimit' by lia.
  rewrite (cell_at_lookup _ _ _ _ Hl'), Hc'. simpl.
  destruct (lookup_lt_is_Some_2 max_vels (1 - i) ltac:(lia)) as [limit0 Hlimit0].
  assert (cell_ok limit0 c') as Hc'ok.
  { apply (Hok (1 - i)%nat k); [done|]. by rewrite (cell_at_lookup _ _ _ _ Hl'). }
  apply cell_ok_speed in Hc'ok; [|done]. left. simpl. simplify_eq. lia.
Qed.

(** The update step on a well-shaped road within bounds: each phase ends
    normally; the lane-change phase amounts to committing the decisions
    read off the post-acceleration snapshot [road w1], and the deceleration
    phase reads its gaps off that same snapshot. *)
Lemma update_eval (p : Q) (w : TwoLane.World G) :
  phase_inv w →
  ∃ w1 w3 w4,
    TwoLane.for_lanes (TwoLane.accelerate_body max_vels) w = Normal w1 ∧
    phase_inv w1 ∧
    TwoLane.for_lanes (TwoLane.decelerate_body (TwoLane.road w1) (Z.of_nat n) p)
      (TwoLane.mkWorld
         (after_changes (TwoLane.road w1) (wants_change (TwoLane.road w1) n max_vels))
         (TwoLane.gen w1)) = Normal w3 ∧
    phase_inv w3 ∧
    for_each (TwoLane.move_lane (Z.of_nat n)) [0%nat; 1%nat] w3 = Normal w4 ∧
    phase_inv w4 ∧
    TwoLane.update (Z.of_nat n) max_vels p w = Normal w4.
Proof.
  intros Hw.
  destruct (accelerate_phase w Hw) as (w1 & Hacc & [Hshape1 Hok1] & _).
  set (w2 := TwoLane.mkWorld
         (after_changes (TwoLane.road w1) (wants_change (TwoLane.road w1) n max_vels))
         (TwoLane.gen w1)).
  assert (phase_inv w2) as Hw2.
  { split; [apply after_changes_shape|apply after_changes_ok]; done. }
  destruct (decelerate_phase (TwoLane.road w1) p w2 Hshape1 Hw2) as (w3 & Hdec & Hw3).
  destruct (move_phase w3 Hw3) as (w4 & Hmove & Hw4 & _).
  exists w1, w3, w4. repeat split; try done; try apply Hw3; try apply Hw4.
  unfold TwoLane.update. rewrite Hacc. simpl.
  destruct w1 as [snapshot g1]. simpl in *.
  rewrite (lane_change_phase snapshot n max_vels Hshape1 Hmax g1). simpl.
  fold w2. rewrite Hdec. simpl. done.
Qed.

End TwoLanePhases.

(** ** Single-lane model: velocity bounds *)

Lemma first_occupied_some fetch idxs g :
  first_occupied fetch idxs = Ok (Some g) → g + 1 ∈ idxs.
Proof.
  induction idxs as [|i idxs IH]; simpl; [done|].
  destruct (fetch i) as [c|]; simpl; [|done]. case_decide.
  - intros [= <-]. replace (i - 1 + 1) with i by lia. left.
  - intros Hrest. right. by apply IH.
Qed.

Lemma final_and_then {S} (P : S → Prop) (o : Outcome S) (k : S → Outcome S) :
  P (final o) → (∀ s, P s → P (final (k s))) → P (final (and_then o k)).
Proof. destruct o as [s|e s]; simpl; [|done]. intros Hs Hk. by apply Hk. Qed.

Section SingleLaneBounds.
Context `{RandomSource G}.
Context (max_vel : Z).

Lemma single_move_bounds (num_cells : Z) (w : SingleLane.World G) :
  Forall (cell_ok max_vel) (SingleLane.lane w) →
  Forall (cell_ok max_vel) (SingleLane.lane (final (SingleLane.move num_cells w))).
Proof.
  intros Hok. unfold SingleLane.move.
  apply (for_each_final (λ s, Forall (cell_ok max_vel) (SingleLane.lane s))); [done|].
  intros [index cell] s Hin%elem_of_enumerate Hs.
  unfold SingleLane.move_body. case_decide as Hocc; [|done].
  pose proof (cell_ok_speed _ cell (Forall_lookup_1 _ _ _ _ Hok Hin) Hocc) as Hv.
  destruct (py_mod _ _) as [next_cell|]; [|done]. simpl.
  destruct (py_pos _ next_cell) as [k|]; [|done]. simpl.
  destruct (py_get _ next_cell) as [target|]; [|done]. simpl.
  assert (∀ l, Forall (cell_ok max_vel) l →
    Forall (cell_ok max_vel)
      (alter (set_velocity (velocity cell)) k
         (alter (set_state 1) k
            (alter (set_velocity (-1)) index (alter (set_state 0) index l))))) as Hwrite.
  { intros l Hl. rewrite !alter_twice. apply Forall_alter_to.
    - apply Forall_alter_to; [done|]. intros x. apply cell_ok_leave.
    - intros x. by apply cell_ok_arrive. }
  case_decide; simpl; by apply Hwrite.
Qed.

Lemma single_update_bounds (num_cells : Z) (p : Q) (w : SingleLane.World G) :
  Forall (cell_ok max_vel) (SingleLane.lane w) →
  Forall (cell_ok max_vel)
         (SingleLane.lane (final (SingleLane.update num_cells max_vel p w))).
Proof.
  intros Hok. unfold SingleLane.update.
  apply (final_and_then (λ s, Forall (cell_ok max_vel) (SingleLane.lane s)));
    [|intros s; apply single_move_bounds].
  apply (for_each_final (λ s, Forall (cell_ok max_vel) (SingleLane.lane s))); [done|].
  intros index s _ Hs. unfold SingleLane.update_body.
  destruct (SingleLane.lane s !! index) as [cell|] eqn:Hcell; [|done].
  case_decide as Hocc; [|done].
  pose proof (Forall_lookup_1 _ _ _ _ Hs Hcell) as Hcellok.
  destruct (SingleLane.distance _ _ _) as [next_distance|] eqn:Hdist; [|done]. simpl.
  pose proof (cell_ok_accelerate _ _ Hcellok Hocc) as Hc1.
  destruct next_distance as [gap|]; simpl; [|by apply Forall_insert].
  apply first_occupied_some, elem_of_py_range in Hdist.
  destruct (cell_ok_decelerate max_vel (accelerate cell max_vel) gap _ Hc1 Hocc
              ltac:(lia) eq_refl) as [Hc2 Hs2].
  pose proof (cell_ok_randomize max_vel _ p (SingleLane.gen s) Hc2 Hs2) as Hc3.
  destruct (randomize _ p (SingleLane.gen s)) as [c3 g']. simpl in *.
  apply Forall_insert; [by apply Forall_insert|done].
Qed.

End SingleLaneBounds.

(** ** The two-lane step: snapshot isolation, lane changes, bounds, conservation *)

(** C4: in the two-lane update, once the acceleration phase has produced
    the snapshot [road w1], (a) the lane-change phase amounts to committing
    at once the decisions [wants_change] read off that snapshot alone,
    (b) such a decision is positive only for a vehicle whose velocity
    strictly exceeds its same-lane forward gap in the snapshot, and (c) the
    deceleration of an occupied cell, on whatever live road the lane
    changes have left, raises nothing and slows the vehicle to the
    same-lane forward gap measured in the snapshot before it dallies. *)
Theorem lane_change_and_deceleration_read_snapshot `{RandomSource G}
    (n : nat) (max_vels : list Z) (p : Q) (w w1 : TwoLane.World G) :
  TwoLane.for_lanes (TwoLane.accelerate_body max_vels) w = Normal w1 →
  two_lanes (TwoLane.road w1) n → length max_vels = 2%nat →
  let snapshot := TwoLane.road w1 in
  TwoLane.update (Z.of_nat n) max_vels p w =
    and_then
      (TwoLane.for_lanes (TwoLane.decelerate_body snapshot (Z.of_nat n) p)
         (TwoLane.mkWorld (after_changes snapshot (wants_change snapshot n max_vels))
                          (TwoLane.gen w1)))
      (for_each (TwoLane.move_lane (Z.of_nat n)) [0%nat; 1%nat]) ∧
  (∀ (i k : nat) lane c gap,
     snapshot !! i = Some lane → lane !! k = Some c →
     TwoLane.distance snapshot lane (Z.of_nat k) (Z.of_nat n)
       (Z.of_nat i) (Z.of_nat i) 1 = Ok gap →
     velocity c ≤ gap → wants_change snapshot n max_vels i k = false) ∧
  (∀ (live : TwoLane.World G) (i k : nat) c,
     (i < 2)%nat → (k < n)%nat →
     TwoLane.cell_at (TwoLane.road live) i k = Some c → state c = 1 →
     ∃ lane gap,
       snapshot !! i = Some lane ∧
       TwoLane.distance snapshot lane (Z.of_nat k) (Z.of_nat n)
         (Z.of_nat i) (Z.of_nat i) 1 = Ok gap ∧
       TwoLane.decelerate_body snapshot (Z.of_nat n) p i k live =
         let slowed := if decide (velocity c > gap) then set_velocity gap c else c in
         Normal (TwoLane.mkWorld
                   (TwoLane.alter_cell (λ _, (randomize slowed p (TwoLane.gen live)).1) i k
                                       (TwoLane.road live))
                   (randomize slowed p (TwoLane.gen live)).2)).
Proof.
  intros Hacc Hshape Hmax snapshot. split; [|split].
  - unfold TwoLane.update. rewrite Hacc. simpl. destruct w1 as [cells g1]. simpl in *.
    by rewrite (lane_change_phase cells n max_vels Hshape Hmax g1).
  - intros i k lane c gap Hl Hc Hgap Hslow. unfold wants_change.
    rewrite Hl, (cell_at_lookup _ _ _ _ Hl), Hc, Hgap.
    rewrite (bool_decide_eq_false_2 (velocity c > gap)) by lia.
    by rewrite andb_false_r.
  - intros live i k c Hi Hk Hc Hocc.
    destruct (decelerate_body_eval n max_vels Hmax snapshot p live i k c Hshape Hi Hk Hc Hocc)
      as (lane & gap & Hl & Hgap & _ & Hbody).
    by exists lane, gap.
Qed.

(** C8: a vehicle that is granted a lane change at cell [k] of lane [i]
    is found, at the end of the lane-change phase, in cell [k] of the other
    lane with its velocity, its former cell empty; and the loop iteration
    that visits its new cell changes nothing, on whatever live road. *)
Theorem no_second_lane_change `{RandomSource G}
    (snapshot : TwoLane.Road) (n : nat) (max_vels : list Z) (g : G) (i k : nat) :
  two_lanes snapshot n → length max_vels = 2%nat → (i < 2)%nat → (k < n)%nat →
  wants_change snapshot n max_vels i k = true →
  ∃ c,
    TwoLane.cell_at snapshot i k = Some c ∧ state c = 1 ∧
    (∀ live : TwoLane.World G,
       TwoLane.lane_change_body snapshot (Z.of_nat n) max_vels (1 - i) k live = Normal live) ∧
    ∃ w2,
      TwoLane.for_lanes (TwoLane.lane_change_body snapshot (Z.of_nat n) max_vels)
        (TwoLane.mkWorld snapshot g) = Normal w2 ∧
      TwoLane.cell_at (TwoLane.road w2) i k = Some empty_cell ∧
      TwoLane.cell_at (TwoLane.road w2) (1 - i) k = Some (mkCell 1 (velocity c)).
Proof.
  intros Hshape Hmax Hi Hk Hw.
  destruct (wants_change_inv snapshot n max_vels Hshape Hmax i k Hi Hk Hw)
    as (lane & c & c' & _ & _ & Hl & Hc & Hocc & Hc' & _).
  pose proof (wants_change_exclusive snapshot n max_vels Hshape Hmax i k Hi Hk Hw) as Hex.
  exists c. split; [by rewrite (cell_at_lookup _ _ _ _ Hl)|]. split; [done|]. split.
  - intros live.
    apply (lane_change_body_beside_occupied snapshot n max_vels Hshape Hmax live (1 - i) k c);
      [lia|done| |lia].
    replace (1 - (1 - i))%nat with i by lia. by rewrite (cell_at_lookup _ _ _ _ Hl).
  - eexists. split; [by apply lane_change_phase|]. simpl.
    destruct (two_lanes_cell _ _ (1 - i) k Hshape ltac:(lia) Hk)
      as (lane' & c0 & Hl' & _ & Hc0).
    rewrite (after_changes_cell snapshot _ i k lane c Hl Hc).
    rewrite (after_changes_cell snapshot _ (1 - i) k lane' c0 Hl' Hc0).
    unfold changed_cell. replace (1 - (1 - i))%nat with i by lia.
    rewrite Hw, Hex, (cell_at_lookup _ _ _ _ Hl), Hc. done.
Qed.

(** C6: the velocity bounds are kept by an update step.  If every cell of
    the single lane is an occupied cell of velocity within [0, max_vel] or
    an empty cell of velocity -1, so is every cell of the lane the step
    ends with, normally or by an exception; and on a road of two lanes of
    [n] cells within the bounds of their own limits, the two-lane step
    ends normally with a road of the same shape within the same bounds. *)
Theorem velocity_bounds_preserved `{RandomSource G}
    (w1 : SingleLane.World G) (num_cells max_vel : Z)
    (w2 : TwoLane.World G) (n : nat) (max_vels : list Z) (p : Q) :
  Forall (cell_ok max_vel) (SingleLane.lane w1) →
  two_lanes (TwoLane.road w2) n → length max_vels = 2%nat →
  road_ok max_vels (TwoLane.road w2) →
  Forall (cell_ok max_vel)
         (SingleLane.lane (final (SingleLane.update num_cells max_vel p w1))) ∧
  ∃ w2', TwoLane.update (Z.of_nat n) max_vels p w2 = Normal w2' ∧
         two_lanes (TwoLane.road w2') n ∧ road_ok max_vels (TwoLane.road w2').
Proof.
  intros Hok1 Hshape Hmax Hok2. split; [by apply single_update_bounds|].
  destruct (update_eval n max_vels Hmax p w2 (conj Hshape Hok2))
    as (wa & wd & w2' & _ & _ & _ & _ & _ & [Hshape' Hok'] & Hupdate).
  by exists w2'.
Qed.

(** C1: a two-lane step that does not conserve the vehicles.  On a road of
    7 cells with limits 5 and 7, the vehicles of the right lane at cells 0
    and 6 change lanes around the left-lane vehicle of cell 5; in the move
    of the left lane that vehicle lands on cell 0, which sets the
    [lane_change] flag, and the next vehicle, from cell 6, moves to cell 2
    without its own cell being cleared.  Four vehicles enter the step and
    five cells are occupied after it. *)
Theorem two_lane_update_duplicates_vehicle :
  let E := empty_cell in
  let cells := [[E; E; E; E; E; mkCell 1 1; E];
                [mkCell 1 3; mkCell 1 4; E; E; E; E; mkCell 1 2]] in
  let cells' := [[mkCell 1 2; E; mkCell 1 3; E; mkCell 1 4; E; mkCell 1 3];
                 [E; E; E; E; E; mkCell 1 4; E]] in
  TwoLane.update 7 [5; 7] 0%Q (TwoLane.mkWorld cells ([] : list Q)) =
    Normal (TwoLane.mkWorld cells' []) ∧
  count_road cells = 4%nat ∧ count_road cells' = 5%nat.
Proof. by vm_compute. Qed.

(** ** Determinism *)

Lemma for_each_rel {S1 S2 I} (RS : S1 → S2 → Prop)
    (b1 : I → S1 → Outcome S1) (b2 : I → S2 → Outcome S2) xs s1 s2 :
  (∀ x s1 s2, RS s1 s2 → outcome_rel RS (b1 x s1) (b2 x s2)) →
  RS s1 s2 → outcome_rel RS (for_each b1 xs s1) (for_each b2 xs s2).
Proof.
  intros Hb. revert s1 s2. induction xs as [|x xs IH]; intros s1 s2 Hs; simpl; [done|].
  specialize (Hb x s1 s2 Hs).
  destruct (b1 x s1), (b2 x s2); simpl in *; try done. by apply IH.
Qed.

Lemma and_then_rel {S1 S2} (RS : S1 → S2 → Prop) o1 o2
    (k1 : S1 → Outcome S1) (k2 : S2 → Outcome S2) :
  outcome_rel RS o1 o2 → (∀ s1 s2, RS s1 s2 → outcome_rel RS (k1 s1) (k2 s2)) →
  outcome_rel RS (and_then o1 k1) (and_then o2 k2).
Proof. destruct o1, o2; simpl; try done. intros Hs Hk. by apply Hk. Qed.

Lemma same_draws_eq `{RandomSource G} : same_draws (@eq G).
Proof. intros g1 g2 ->. by repeat split. Qed.

Section Determinism.
Context `{H1 : RandomSource G1} `{H2 : RandomSource G2}.
Context (R : G1 → G2 → Prop) (HR : same_draws R).
Context (num_cars_of : Q → Z → Z).

Lemma randomize_rel c p g1 g2 :
  R g1 g2 →
  (randomize c p g1).1 = (randomize c p g2).1 ∧
  R (randomize c p g1).2 (randomize c p g2).2.
Proof.
  intros Hg. destruct (HR g1 g2 Hg) as [[Hv Hn] _]. rewrite !randomize_unfold. simpl.
  by rewrite Hv.
Qed.

(** *** Single lane *)

Lemma single_move_rel n w1 w2 :
  same_world R w1 w2 →
  outcome_rel (same_world R) (SingleLane.move n w1) (SingleLane.move n w2).
Proof.
  intros Hw. unfold SingleLane.move. destruct Hw as (Hl & Ho & Hg) eqn:Heq. rewrite Hl.
  apply for_each_rel; [|done]. clear. intros [index cell] w1 w2.
  destruct w1 as [l1 o1 g1], w2 as [l2 o2 g2]. intros (Hl & Ho & Hg). simpl in *. subst.
  unfold SingleLane.move_body, eval, SingleLane.with_lane, SingleLane.print_collision.
  simpl. repeat case_match; simplify_eq/=; done.
Qed.

Lemma single_update_rel n mv p w1 w2 :
  same_world R w1 w2 →
  outcome_rel (same_world R) (SingleLane.update n mv p w1) (SingleLane.update n mv p w2).
Proof.
  intros Hw. unfold SingleLane.update.
  apply and_then_rel; [|intros; by apply single_move_rel].
  destruct Hw as (Hl & Ho & Hg) eqn:Heq. rewrite Hl.
  apply for_each_rel; [|done]. clear -HR. intros index w1 w2.
  destruct w1 as [l1 o1 g1], w2 as [l2 o2 g2]. intros (Hl & Ho & Hg). simpl in *. subst.
  unfold SingleLane.update_body, eval, SingleLane.with_lane. simpl.
  destruct (l2 !! index); [|done]. case_decide; [|done].
  destruct (SingleLane.distance _ _ _); [|done].
  destruct (decelerate _ _) as [c2|]; [|done].
  destruct (randomize_rel c2 p g1 g2 Hg) as [Hc Hg'].
  destruct (randomize c2 p g1), (randomize c2 p g2). simpl in *. by subst.
Qed.

Lemma single_initilize_rel n occupancy_percent g1 g2 :
  R g1 g2 →
  outcome_rel (same_world R)
    (SingleLane.initilize num_cars_of n occupancy_percent g1)
    (SingleLane.initilize num_cars_of n occupancy_percent g2).
Proof.
  intros Hg. unfold SingleLane.initilize.
  destruct (HR g1 g2 Hg) as (_ & _ & Hs).
  destruct (Hs n (num_cars_of occupancy_percent n)) as [Hi Hg'].
  destruct (sample _ _ g1) as [i1 g1'], (sample _ _ g2) as [i2 g2']. simpl in *. subst.
  destruct i2 as [indices|e]; simpl; [|done].
  apply for_each_rel; [|done]. clear -HR. intros index w1 w2.
  destruct w1 as [l1 o1 g1], w2 as [l2 o2 g2]. intros (Hl & Ho & Hg). simpl in *. subst.
  unfold SingleLane.place_car, eval, SingleLane.with_lane. simpl.
  destruct (py_pos l2 index); [|done].
  destruct (HR g1 g2 Hg) as (_ & Hr & _). destruct (Hr 0 5) as [Hv Hg'].
  destruct (randint 0 5 g1) as [v1 g1'], (randint 0 5 g2) as [v2 g2']. simpl in *. subst.
  by destruct v2.
Qed.

Lemma single_simulate_rel max_vel occupancy_percent n T p impulse g1 g2 :
  R g1 g2 →
  outcome_rel (same_run R)
    (SingleLane.simulate num_cars_of max_vel occupancy_percent n T p impulse g1)
    (SingleLane.simulate num_cars_of max_vel occupancy_percent n T p impulse g2).
Proof.
  intros Hg. unfold SingleLane.simulate. apply and_then_rel.
  { pose proof (single_initilize_rel n occupancy_percent g1 g2 Hg) as Hinit.
    destruct (SingleLane.initilize _ _ _ g1), (SingleLane.initilize _ _ _ g2);
      simpl in *; try done; by destruct_and?. }
  intros r1 r2 (Hv & Hw). case_decide; [done|].
  apply for_each_rel; [|done]. clear -HR. intros time r1 r2 (Hv & Hw).
  unfold SingleLane.simulate_step. apply and_then_rel.
  { pose proof (single_update_rel n max_vel p _ _ Hw) as Hup.
    destruct (SingleLane.update _ _ _ (SingleLane.world r1)),
             (SingleLane.update _ _ _ (SingleLane.world r2));
      simpl in *; try done; by destruct_and?. }
  clear. intros [[l1 o1 g1] v1] [[l2 o2 g2] v2] (Hv & Hl & Ho & Hg). simpl in *. subst.
  unfold SingleLane.record_row, SingleLane.add_impulse, SingleLane.with_lane.
  by case_decide.
Qed.

(** *** Two lanes *)

Lemma for_lanes_rel (b1 : nat → nat → TwoLane.World G1 → Outcome (TwoLane.World G1))
    (b2 : nat → nat → TwoLane.World G2 → Outcome (TwoLane.World G2)) w1 w2 :
  (∀ i k w1 w2, same_road R w1 w2 → outcome_rel (same_road R) (b1 i k w1) (b2 i k w2)) →
  same_road R w1 w2 →
  outcome_rel (same_road R) (TwoLane.for_lanes b1 w1) (TwoLane.for_lanes b2 w2).
Proof.
  intros Hb Hw. unfold TwoLane.for_lanes. apply for_each_rel; [|done].
  clear w1 w2 Hw. intros i w1 w2 Hw. destruct Hw as [Hr Hg] eqn:Heq. rewrite Hr.
  destruct (py_get _ _); simpl; [|done]. apply for_each_rel; [|done].
  intros k. apply Hb.
Qed.

Lemma accelerate_rel max_vels w1 w2 :
  same_road R w1 w2 →
  outcome_rel (same_road R)
    (TwoLane.for_lanes (TwoLane.accelerate_body max_vels) w1)
    (TwoLane.for_lanes (TwoLane.accelerate_body max_vels) w2).
Proof.
  apply for_lanes_rel. clear. intros i k [r1 g1] [r2 g2] [Hr Hg].
  simpl in *. subst. unfold TwoLane.accelerate_body, eval, TwoLane.with_road. simpl.
  repeat case_match; simplify_eq/=; done.
Qed.

Lemma lane_change_rel snapshot n max_vels w1 w2 :
  same_road R w1 w2 →
  outcome_rel (same_road R)
    (TwoLane.for_lanes (TwoLane.lane_change_body snapshot n max_vels) w1)
    (TwoLane.for_lanes (TwoLane.lane_change_body snapshot n max_vels) w2).
Proof.
  apply for_lanes_rel. clear. intros i k [r1 g1] [r2 g2] [Hr Hg].
  simpl in *. subst.
  unfold TwoLane.lane_change_body, TwoLane.change_lanes, eval, TwoLane.with_road.
  simpl. repeat case_match; simplify_eq/=; done.
Qed.

Lemma decelerate_rel snapshot n p w1 w2 :
  same_road R w1 w2 →
  outcome_rel (same_road R)
    (TwoLane.for_lanes (TwoLane.decelerate_body snapshot n p) w1)
    (TwoLane.for_lanes (TwoLane.decelerate_body snapshot n p) w2).
Proof.
  apply for_lanes_rel. clear -HR. intros i k [r1 g1] [r2 g2] [Hr Hg].
  simpl in *. subst. unfold TwoLane.decelerate_body, eval. simpl.
  destruct (TwoLane.cell_at r2 i k) as [cell|]; [|done]. case_decide; [|done].
  destruct (py_get _ _); [|done]. destruct (TwoLane.distance _ _ _ _ _ _ _); [|done].
  simpl. set (c2 := if decide _ then _ else _).
  destruct (randomize_rel c2 p g1 g2 Hg) as [Hc Hg'].
  destruct (randomize c2 p g1), (randomize c2 p g2). simpl in *. by subst.
Qed.

Lemma move_lanes_rel n w1 w2 :
  same_road R w1 w2 →
  outcome_rel (same_road R)
    (for_each (TwoLane.move_lane n) [0%nat; 1%nat] w1)
    (for_each (TwoLane.move_lane n) [0%nat; 1%nat] w2).
Proof.
  apply for_each_rel. clear. intros i [r1 g1] [r2 g2] [Hr Hg]. simpl in *. subst.
  unfold TwoLane.move_lane, eval, TwoLane.with_road. simpl.
  repeat case_match; simplify_eq/=; done.
Qed.

Lemma two_lane_update_rel n max_vels p w1 w2 :
  same_road R w1 w2 →
  outcome_rel (same_road R) (TwoLane.update n max_vels p w1) (TwoLane.update n max_vels p w2).
Proof.
  intros Hw. unfold TwoLane.update.
  apply and_then_rel; [by apply accelerate_rel|].
  intros wa wb Hab. pose proof Hab as [Hr _]. rewrite Hr.
  apply and_then_rel; [by apply lane_change_rel|].
  intros wc wd Hcd. apply and_then_rel; [by apply decelerate_rel|].
  intros we wf Hef. by apply move_lanes_rel.
Qed.

Lemma fill_lane_rel limit indices (l : list Cell) g1 g2 :
  R g1 g2 →
  outcome_rel (λ s1 s2 : list Cell * _, s1.1 = s2.1 ∧ R s1.2 s2.2)
    (for_each (TwoLane.place_car limit) indices (l, g1))
    (for_each (TwoLane.place_car limit) indices (l, g2)).
Proof.
  intros Hg. apply for_each_rel; [|done].
  clear -HR. intros index [l1 g1] [l2 g2] [Hl Hg]. simpl in *. subst.
  unfold TwoLane.place_car, eval. simpl.
  destruct (py_pos l2 index); [|done].
  destruct (HR g1 g2 Hg) as (_ & Hr & _). destruct (Hr 0 limit) as [Hv Hg'].
  destruct (randint 0 limit g1) as [v1 g1'], (randint 0 limit g2) as [v2 g2'].
  simpl in *. subst. by destruct v2.
Qed.

Lemma two_lane_initilize_rel n occupancy_percents max_vels g1 g2 :
  R g1 g2 →
  outcome_rel (same_road R)
    (TwoLane.initilize num_cars_of n occupancy_percents max_vels g1)
    (TwoLane.initilize num_cars_of n occupancy_percents max_vels g2).
Proof.
  intros Hg. unfold TwoLane.initilize. apply for_each_rel; [|done].
  clear -HR. intros i [r1 g1] [r2 g2] [Hr0 Hg]. simpl in *. subst.
  unfold TwoLane.initilize_lane, eval. simpl.
  destruct (py_get occupancy_percents _) as [occupancy_percent|]; [|done].
  destruct (py_get max_vels _) as [limit|]; [|done].
  destruct (HR g1 g2 Hg) as (_ & _ & Hs).
  destruct (Hs n (num_cars_of occupancy_percent n)) as [Hi Hg'].
  destruct (sample _ _ g1) as [i1 g1'], (sample _ _ g2) as [i2 g2']. simpl in *. subst.
  destruct i2 as [indices|e]; simpl; [|done].
  pose proof (fill_lane_rel limit indices (replicate (Z.to_nat n) empty_cell)
                g1' g2' Hg') as Hfill.
  destruct (for_each _ indices (_, g1')) as [s1|e1 s1],
           (for_each _ indices (_, g2')) as [s2|e2 s2]; simpl in *; try done.
  - destruct Hfill as [Hl Hgs]. split; simpl; [by rewrite Hl|done].
  - destruct Hfill as [He [Hl Hgs]]. done.
Qed.

Lemma two_lane_simulate_rel max_vels occupancy_percents n T p g1 g2 :
  R g1 g2 →
  outcome_rel (same_road_run R)
    (TwoLane.simulate num_cars_of max_vels occupancy_percents n T p g1)
    (TwoLane.simulate num_cars_of max_vels occupancy_percents n T p g2).
Proof.
  intros Hg. unfold TwoLane.simulate. apply and_then_rel.
  { pose proof (two_lane_initilize_rel n occupancy_percents max_vels g1 g2 Hg) as Hinit.
    destruct (TwoLane.initilize _ _ _ _ g1), (TwoLane.initilize _ _ _ _ g2);
      simpl in *; try done; by destruct_and?. }
  intros r1 r2 (Hb & Hl & Hr & Hw). case_decide; [done|].
  apply for_each_rel; [|done]. clear -HR. intros time r1 r2 (Hb & Hl & Hr & Hw).
  unfold TwoLane.simulate_step. apply and_then_rel.
  { pose proof (two_lane_update_rel n max_vels p _ _ Hw) as Hup.
    destruct (TwoLane.update _ _ _ (TwoLane.world r1)),
             (TwoLane.update _ _ _ (TwoLane.world r2));
      simpl in *; try done; by destruct_and?. }
  clear. intros r1 r2 Hr. apply for_each_rel; [|done].
  clear. intros i [[c1 g1] b1 l1 r1] [[c2 g2] b2 l2 r2] (Hb & Hl & Hr & Hc & Hg).
  simpl in *. subst. unfold eval. simpl. destruct (py_get c2 _); simpl; [|done].
  apply for_each_rel; [|done].
  clear. intros [index cell] [[c1 g1] b1 l1 r1] [[c2 g2] b2 l2 r2] (Hb & Hl & Hr & Hc & Hg).
  simpl in *. subst. unfold TwoLane.record_cell. by case_decide.
Qed.

End Determinism.

(** ** The stochastic step without dallying

    As long as no draw is at most [p] (for [p = 0]: no draw is 0.0), the
    step of section 1.2 does to the lane what the step of section 1.1
    does. *)

Lemma never_dallies_next `{RandomSource G} (p : Q) (g : G) :
  never_dallies p g → never_dallies p (random g).2.
Proof. intros Hg k. specialize (Hg (S k)). by rewrite Nat.iter_succ_r in Hg. Qed.

Lemma update_without_dally `{RandomSource G} (num_cells max_vel : Z) (p : Q)
    (w1 w2 : SingleLane.World G) :
  same_world (λ g1 _, never_dallies p g1) w1 w2 →
  outcome_rel (same_world (λ g1 _, never_dallies p g1))
    (SingleLane.update num_cells max_vel p w1)
    (FirstModel.update num_cells max_vel p w2).
Proof.
  intros Hw. unfold SingleLane.update, FirstModel.update.
  apply and_then_rel; [|intros; by apply single_move_rel].
  pose proof Hw as (Hl & _). rewrite Hl.
  apply for_each_rel; [|done]. clear. intros index w1 w2.
  destruct w1 as [l1 o1 g1], w2 as [l2 o2 g2]. intros (Hl & Ho & Hg). simpl in *. subst.
  unfold SingleLane.update_body, FirstModel.update_body, eval, SingleLane.with_lane. simpl.
  destruct (l2 !! index); [|done]. case_decide; [|done].
  destruct (SingleLane.distance _ _ _); [|done].
  destruct (decelerate _ _) as [c2|]; [|done].
  rewrite randomize_unfold.
  destruct (Qle_bool (random g1).1 p) eqn:Hle.
  - apply Qle_bool_iff in Hle. by destruct (Hg 0%nat).
  - repeat split. by apply never_dallies_next.
Qed.

(** C7: a run depends on the random source through the values it yields
    only.  Two runs of the single-lane simulation, and two runs of the
    two-lane simulation, with identical configurations and with generator
    states that yield the same draws (in particular, identical states of one
    generator) end alike: same recorded velocity matrices, same exception
    if one is raised, same road and same printed lines. *)
Theorem simulate_deterministic `{RandomSource G1} `{RandomSource G2}
    (R : G1 → G2 → Prop) (num_cars_of : Q → Z → Z)
    (max_vel : Z) (occupancy_percent : Q)
    (max_vels : list Z) (occupancy_percents : list Q)
    (num_cells num_time_steps : Z) (p : Q) (impulse : Z) (g1 : G1) (g2 : G2) :
  same_draws R → R g1 g2 →
  outcome_rel (same_run R)
    (SingleLane.simulate num_cars_of max_vel occupancy_percent
       num_cells num_time_steps p impulse g1)
    (SingleLane.simulate num_cars_of max_vel occupancy_percent
       num_cells num_time_steps p impulse g2) ∧
  outcome_rel (same_road_run R)
    (TwoLane.simulate num_cars_of max_vels occupancy_percents num_cells num_time_steps p g1)
    (TwoLane.simulate num_cars_of max_vels occupancy_percents num_cells num_time_steps p g2).
Proof.
  intros HR Hg. split;
    [by apply single_simulate_rel|by apply two_lane_simulate_rel].
Qed.

(** ** The theorems at concrete inputs *)

Lemma simulate_deterministic_witness :
  let seed := [(1 # 4)%Q; (3 # 4)%Q] in
  outcome_rel (same_run eq)
    (SingleLane.simulate floor_percent 5 40 5 3 (1 # 2) 2 seed)
    (SingleLane.simulate floor_percent 5 40 5 3 (1 # 2) 2 seed) ∧
  outcome_rel (same_road_run eq)
    (TwoLane.simulate floor_percent [5; 7] [40%Q; 20%Q] 5 3 (1 # 2) seed)
    (TwoLane.simulate floor_percent [5; 7] [40%Q; 20%Q] 5 3 (1 # 2) seed).
Proof.
  intros seed.
  apply (simulate_deterministic eq floor_percent 5 40 [5; 7] [40%Q; 20%Q]
           5 3 (1 # 2) 2 seed seed); [apply same_draws_eq|reflexivity].
Defined.

Lemma can_change_lanes_iff_cautious_witness :
  let cells := [[mkCell 1 2; mkCell 1 3; empty_cell; empty_cell; empty_cell];
                [empty_cell; empty_cell; empty_cell; empty_cell; empty_cell]] in
  (TwoLane.can_change_lanes cells (mkCell 1 2) 0 0 5 [5; 7] = Ok true
     ↔ cautious_change cells (mkCell 1 2) 0 0 5 [5; 7]) ∧
  (¬ cautious_change cells (mkCell 1 2) 0 0 5 [5; 7] →
   TwoLane.can_change_lanes cells (mkCell 1 2) 0 0 5 [5; 7] = Ok false).
Proof.
  apply (can_change_lanes_iff_cautious
           [[mkCell 1 2; mkCell 1 3; empty_cell; empty_cell; empty_cell];
            [empty_cell; empty_cell; empty_cell; empty_cell; empty_cell]]
           (mkCell 1 2) 0 0 5 [5; 7]);
    [by eexists _, _|reflexivity|lia|lia].
Defined.

Lemma lane_change_and_deceleration_read_snapshot_witness :
  let E := empty_cell in
  let cells := [[E; E; E; E; E; mkCell 1 1; E];
                [mkCell 1 3; mkCell 1 4; E; E; E; E; mkCell 1 2]] in
  let snapshot := [[E; E; E; E; E; mkCell 1 2; E];
                   [mkCell 1 4; mkCell 1 5; E; E; E; E; mkCell 1 3]] in
  TwoLane.update 7 [5; 7] 0%Q (TwoLane.mkWorld cells ([] : list Q)) =
    and_then
      (TwoLane.for_lanes (TwoLane.decelerate_body snapshot 7 0%Q)
         (TwoLane.mkWorld (after_changes snapshot (wants_change snapshot 7 [5; 7])) []))
      (for_each (TwoLane.move_lane 7) [0%nat; 1%nat]).
Proof.
  intros E cells snapshot.
  refine (proj1 (lane_change_and_deceleration_read_snapshot 7 [5; 7] 0%Q
                   (TwoLane.mkWorld cells ([] : list Q))
                   (TwoLane.mkWorld snapshot ([] : list Q)) _ _ _));
    [reflexivity|by eexists _, _|reflexivity].
Defined.

Lemma no_second_lane_change_witness :
  let E := empty_cell in
  let snapshot := [[E; E; E; E; E; mkCell 1 2; E];
                   [mkCell 1 4; mkCell 1 5; E; E; E; E; mkCell 1 3]] in
  ∃ c,
    TwoLane.cell_at snapshot 1 0 = Some c ∧ state c = 1 ∧
    (∀ live : TwoLane.World (list Q),
       TwoLane.lane_change_body snapshot 7 [5; 7] 0 0 live = Normal live) ∧
    ∃ w2,
      TwoLane.for_lanes (TwoLane.lane_change_body snapshot 7 [5; 7])
        (TwoLane.mkWorld snapshot ([] : list Q)) = Normal w2 ∧
      TwoLane.cell_at (TwoLane.road w2) 1 0 = Some empty_cell ∧
      TwoLane.cell_at (TwoLane.road w2) 0 0 = Some (mkCell 1 (velocity c)).
Proof.
  intros E snapshot.
  apply (no_second_lane_change snapshot 7 [5; 7] ([] : list Q) 1 0);
    [by eexists _, _|reflexivity|lia|lia|reflexivity].
Defined.

Ltac cells_within_bounds :=
  repeat (apply Forall_cons_2;
          [first [by right | left; split; [reflexivity|simpl; lia]]|]);
  apply Forall_nil_2.

Lemma velocity_bounds_preserved_witness :
  let E := empty_cell in
  let lane := [mkCell 1 0; E; mkCell 1 0; E; E] in
  let cells := [[E; E; E; E; E; mkCell 1 1; E];
                [mkCell 1 3; mkCell 1 4; E; E; E; E; mkCell 1 2]] in
  Forall (cell_ok 5)
    (SingleLane.lane (final (SingleLane.update 5 5 0%Q
                               (SingleLane.mkWorld lane [] ([] : list Q))))) ∧
  ∃ w2', TwoLane.update 7 [5; 7] 0%Q (TwoLane.mkWorld cells ([] : list Q)) = Normal w2' ∧
         two_lanes (TwoLane.road w2') 7 ∧ road_ok [5; 7] (TwoLane.road w2').
Proof.
  intros E lane cells.
  apply (velocity_bounds_preserved (SingleLane.mkWorld lane [] ([] : list Q)) 5 5
           (TwoLane.mkWorld cells ([] : list Q)) 7 [5; 7] 0%Q).
  - unfold lane, E. cells_within_bounds.
  - by eexists _, _.
  - reflexivity.
  - apply road_ok_two. unfold E. split; cells_within_bounds.
Defined.


(** * Further properties of the code *)

(** ** Loops with an indexed invariant *)

Lemma for_each_seq_normal {S} (P : nat → S → Prop) (body : nat → S → Outcome S)
    (n : nat) (s : S) :
  P 0%nat s →
  (∀ k s, (k < n)%nat → P k s → ∃ s', body k s = Normal s' ∧ P (Datatypes.S k) s') →
  ∃ s', for_each body (seq 0 n) s = Normal s' ∧ P n s'.
Proof.
  intros Hs Hbody.
  assert (∀ m k s, (k + m = n)%nat → P k s →
                   ∃ s', for_each body (seq k m) s = Normal s' ∧ P n s') as Hgen.
  { induction m as [|m IH]; intros k s0 Hk Hs0; simpl.
    - exists s0. split; [done|]. by replace n with k by lia.
    - destruct (Hbody k s0 ltac:(lia) Hs0) as (s1 & -> & Hs1). simpl.
      apply IH; [lia|done]. }
  by apply (Hgen n 0%nat).
Qed.

Lemma for_each_enumerate_normal {S A} (P : nat → S → Prop)
    (body : nat * A → S → Outcome S) (l : list A) (s : S) :
  P 0%nat s →
  (∀ k x s, l !! k = Some x → P k s →
            ∃ s', body (k, x) s = Normal s' ∧ P (Datatypes.S k) s') →
  ∃ s', for_each body (enumerate l) s = Normal s' ∧ P (length l) s'.
Proof.
  intros Hs Hbody. unfold enumerate.
  assert (∀ l2 l1 s, l = l1 ++ l2 → P (length l1) s →
            ∃ s', for_each body (zip (seq (length l1) (length l2)) l2) s = Normal s'
                  ∧ P (length l) s') as Hgen.
  { induction l2 as [|x l2 IH]; intros l1 s0 Hl Hs0; simpl.
    - exists s0. split; [done|]. by rewrite Hl, app_nil_r.
    - destruct (Hbody (length l1) x s0) as (s1 & -> & Hs1); [|done|].
      { rewrite Hl. by apply list_lookup_middle. }
      simpl. specialize (IH (l1 ++ [x]) s1).
      rewrite length_app in IH. simpl in IH.
      replace (length l1 + 1)%nat with (Datatypes.S (length l1)) in IH by lia.
      apply IH; [by rewrite <- app_assoc|done]. }
  by apply (Hgen l [] s).
Qed.

(** ** Cyclic positions, occupancy and counting *)

Lemma cyc_lt n x : (0 < n)%nat → (cyc n x < n)%nat.
Proof.
  intros Hn. unfold cyc.
  pose proof (Z.mod_pos_bound x (Z.of_nat n) ltac:(lia)). lia.
Qed.

Lemma cyc_small n (i : nat) : (i < n)%nat → cyc n (Z.of_nat i) = i.
Proof. intros Hi. unfold cyc. rewrite Z.mod_small by lia. lia. Qed.

Lemma cyc_back n (i1 i2 : nat) v1 v2 :
  (i1 < n)%nat →
  cyc n (Z.of_nat i1 + v1) = cyc n (Z.of_nat i2 + v2) →
  cyc n (Z.of_nat i2 + (v2 - v1)) = i1.
Proof.
  intros Hi Heq. unfold cyc in *.
  assert ((Z.of_nat i1 + v1) `mod` Z.of_nat n = (Z.of_nat i2 + v2) `mod` Z.of_nat n) as Hmod.
  { pose proof (Z.mod_pos_bound (Z.of_nat i1 + v1) (Z.of_nat n) ltac:(lia)).
    pose proof (Z.mod_pos_bound (Z.of_nat i2 + v2) (Z.of_nat n) ltac:(lia)). lia. }
  replace (Z.of_nat i2 + (v2 - v1)) with (Z.of_nat i2 + v2 - v1) by lia.
  rewrite <- Zminus_mod_idemp_l, <- Hmod, Zminus_mod_idemp_l.
  replace (Z.of_nat i1 + v1 - v1) with (Z.of_nat i1) by lia.
  rewrite Z.mod_small by lia. lia.
Qed.

#[global] Instance occupied_at_dec lane i : Decision (occupied_at lane i).
Proof.
  unfold occupied_at. destruct (lane !! i) as [c|] eqn:Hc.
  - destruct (decide (state c = 1)) as [Hs|Hs].
    + left. by exists c.
    + right. intros (c' & [= <-] & Hs'). done.
  - right. by intros (c' & [=] & _).
Defined.

Lemma occupied_at_lt lane i : occupied_at lane i → (i < length lane)%nat.
Proof. intros (c & Hc & _). by eapply lookup_lt_Some. Qed.

Lemma target_of_lt lane i : (i < length lane)%nat → (target_of lane i < length lane)%nat.
Proof.
  intros Hi. unfold target_of. destruct (lane !! i); [|done]. apply cyc_lt. lia.
Qed.

Lemma safe_lane_targets_clear lane : safe_lane lane → targets_clear lane.
Proof.
  intros Hsafe i (c & Hc & Hocc). unfold target_of. rewrite Hc.
  destruct (Hsafe i c Hc Hocc) as [Hv Hpass].
  apply lookup_lt_Some in Hc as Hlt.
  destruct (decide (velocity c = 0)) as [->|Hne].
  - left. rewrite Z.add_0_r. by apply cyc_small.
  - destruct (decide (occupied_at lane (cyc (length lane) (Z.of_nat i + velocity c))))
      as [Hocc'|Hfree]; [|by right].
    left. apply Hpass; [lia|done].
Qed.

(** Two vehicles of a safe lane never aim at the same cell. *)
Lemma safe_targets_distinct lane i1 i2 :
  safe_lane lane → occupied_at lane i1 → occupied_at lane i2 →
  target_of lane i1 = target_of lane i2 → i1 = i2.
Proof.
  intros Hsafe.
  assert (∀ i1 i2 c1 c2, lane !! i1 = Some c1 → state c1 = 1 →
            lane !! i2 = Some c2 → state c2 = 1 → velocity c1 ≤ velocity c2 →
            target_of lane i1 = target_of lane i2 → i1 = i2) as Hle.
  { clear i1 i2. intros i1 i2 c1 c2 H1 Ho1 H2 Ho2 Hv. unfold target_of.
    rewrite H1, H2. intros Ht.
    apply lookup_lt_Some in H1 as Hlt1. apply lookup_lt_Some in H2 as Hlt2.
    pose proof (cyc_back _ _ _ _ _ Hlt1 Ht) as Hback.
    destruct (decide (velocity c2 - velocity c1 = 0)) as [Hz|Hnz].
    - rewrite Hz, Z.add_0_r, cyc_small in Hback by done. done.
    - destruct (Hsafe i2 c2 H2 Ho2) as [_ Hpass].
      rewrite <- Hback. destruct (Hsafe i1 c1 H1 Ho1) as [Hv1 _].
      apply Hpass; [lia|]. rewrite Hback. by exists c1. }
  intros (c1 & H1 & Ho1) (c2 & H2 & Ho2) Ht.
  destruct (decide (velocity c1 ≤ velocity c2)).
  - by eapply Hle.
  - symmetry. eapply (Hle i2 i1); eauto. lia.
Qed.

Lemma count_cars_cons a l : count_cars (a :: l) = (car a + count_cars l)%nat.
Proof. unfold count_cars, car. rewrite filter_cons. by case_decide. Qed.

Lemma count_cars_alter f k (l : list Cell) c :
  l !! k = Some c →
  (count_cars (alter f k l) + car c = count_cars l + car (f c))%nat.
Proof.
  revert k. induction l as [|a l IH]; intros [|k] Hk; try done; simpl in Hk.
  - injection Hk as ->. unfold alter. simpl. rewrite !count_cars_cons. lia.
  - specialize (IH k Hk). unfold alter in *. simpl. rewrite !count_cars_cons. lia.
Qed.

Lemma count_cars_app l1 l2 : count_cars (l1 ++ l2) = (count_cars l1 + count_cars l2)%nat.
Proof. unfold count_cars. by rewrite filter_app, length_app. Qed.

Lemma count_cars_take_S (l : list Cell) (k : nat) c :
  l !! k = Some c → count_cars (take (S k) l) = (count_cars (take k l) + car c)%nat.
Proof.
  intros Hk. rewrite (take_S_r _ _ c Hk), count_cars_app, count_cars_cons.
  change (count_cars []) with 0%nat. lia.
Qed.

(** ** The invariant of the move loop on a lane free of collisions

    The loop of [move] visits the cells of the deep copy in order; a
    vehicle leaves its cell and lands on its target.  When no target is
    a cell occupied by another vehicle and no two vehicles share a target,
    nothing written is ever overwritten. *)

Lemma alter_set_cell s v k (l : list Cell) :
  alter (set_velocity v) k (alter (set_state s) k l) = alter (λ _, mkCell s v) k l.
Proof. rewrite list_alter_alter_eq. by apply list_alter_ext. Qed.

Lemma car_occupied c : state c = 1 → car c = 1%nat.
Proof. intros Hc. unfold car. by rewrite decide_True. Qed.

Lemma car_free c : state c ≠ 1 → car c = 0%nat.
Proof. intros Hc. unfold car. by rewrite decide_False. Qed.

Section SafeMove.
Context (copy : list Cell) (Hclear : targets_clear copy).
Context (Hdistinct : ∀ i1 i2, occupied_at copy i1 → occupied_at copy i2 →
                              target_of copy i1 = target_of copy i2 → i1 = i2).

Lemma no_arrival_at_source k i :
  occupied_at copy k → occupied_at copy i → i ≠ k → target_of copy i ≠ k.
Proof.
  intros Hk Hi Hne Ht. destruct (Hclear i Hi) as [Hself|Hfree]; [congruence|].
  apply Hfree. by rewrite Ht.
Qed.

Lemma move_inv_start : move_inv copy 0 copy.
Proof.
  do 2 (split; [done|]). intros j cj Hj. right. split; [intros i Hi; lia|].
  rewrite Hj. by rewrite decide_False by lia.
Qed.

Lemma move_inv_source k ck l :
  move_inv copy k l → copy !! k = Some ck → state ck = 1 → l !! k = Some ck.
Proof.
  intros (_ & _ & Hpt) Hk Hocc.
  destruct (Hpt k ck Hk) as [(i & ci & Hi & Hci & Hoi & Ht & _)|[_ Hl]].
  - exfalso. eapply (no_arrival_at_source k i); [by exists ck|by exists ci|lia|done].
  - rewrite Hl. by rewrite decide_False by lia.
Qed.

Lemma move_inv_target_free k ck l c :
  move_inv copy k l → copy !! k = Some ck → state ck = 1 →
  target_of copy k ≠ k → l !! target_of copy k = Some c → state c ≠ 1.
Proof.
  intros (Hlen & _ & Hpt) Hk Hocc Hne Hc.
  assert (occupied_at copy k) as Hok by by exists ck.
  apply lookup_lt_Some in Hc as Hlt. rewrite Hlen in Hlt.
  destruct (lookup_lt_is_Some_2 copy _ Hlt) as [ct Hct].
  destruct (Hpt _ ct Hct) as [(i & ci & Hi & Hci & Hoi & Ht & _)|[_ Hl]].
  - exfalso. assert (i = k); [|lia]. apply Hdistinct; [by exists ci|done..].
  - rewrite Hl in Hc. injection Hc as <-. case_decide; [done|].
    destruct (Hclear k Hok) as [?|Hfree]; [done|].
    intros Hs. apply Hfree. by exists ct.
Qed.

Lemma move_inv_skip k ck l :
  move_inv copy k l → copy !! k = Some ck → state ck ≠ 1 → move_inv copy (S k) l.
Proof.
  intros (Hlen & Hcount & Hpt) Hk Hfree. do 2 (split; [done|]).
  intros j cj Hj. destruct (Hpt j cj Hj) as [(i & ci & Hi & Hrest)|[Hno Hl]].
  - left. exists i, ci. split; [lia|done].
  - right. split.
    + intros i Hi Hoi. destruct (decide (i = k)) as [->|].
      * destruct Hoi as (c & Hc & Hs). congruence.
      * apply Hno; [lia|done].
    + rewrite Hl. f_equal. destruct (decide (j = k)) as [->|].
      * assert (cj = ck) as -> by congruence.
        rewrite !decide_False; [done|tauto|lia].
      * repeat case_decide; try done; exfalso; destruct_and?; lia || tauto.
Qed.

Lemma move_inv_step k ck l :
  move_inv copy k l → copy !! k = Some ck → state ck = 1 →
  move_inv copy (S k)
    (alter (λ _, mkCell 1 (velocity ck)) (target_of copy k)
       (alter (λ _, mkCell 0 (-1)) k l)).
Proof.
  intros Hinv Hk Hocc. pose proof Hinv as (Hlen & Hcount & Hpt).
  assert (occupied_at copy k) as Hok by by exists ck.
  pose proof (move_inv_source _ _ _ Hinv Hk Hocc) as Hsrc.
  apply lookup_lt_Some in Hk as Hlt.
  pose proof (target_of_lt copy k Hlt) as Htlt.
  set (t := target_of copy k) in *.
  set (l1 := alter (λ _, mkCell 0 (-1)) k l).
  assert (∃ c1, l1 !! t = Some c1 ∧ state c1 ≠ 1) as (c1 & Hc1 & Hs1).
  { unfold l1. destruct (decide (t = k)) as [Heq|Hne].
    - rewrite Heq, list_lookup_alter_eq, Hsrc. simpl. eexists. split; [done|]. simpl. lia.
    - rewrite list_lookup_alter_ne by done.
      destruct (lookup_lt_is_Some_2 l t ltac:(lia)) as [c Hc]. exists c. split; [done|].
      exact (move_inv_target_free k ck l c Hinv Hk Hocc Hne Hc). }
  split; [by unfold l1; rewrite !length_alter|]. split.
  { pose proof (count_cars_alter (λ _, mkCell 0 (-1)) k l ck Hsrc) as H1.
    pose proof (count_cars_alter (λ _, mkCell 1 (velocity ck)) t l1 c1 Hc1) as H2.
    fold l1 in H1. rewrite (car_occupied ck), (car_free (mkCell 0 (-1))) in H1 by (simpl; first [done|lia]).
    rewrite (car_free c1), (car_occupied (mkCell 1 _)) in H2 by (simpl; first [done|lia]). lia. }
  intros j cj Hj. destruct (decide (j = t)) as [->|Hjt].
  { left. exists k, ck. split; [lia|]. do 3 (split; [done|]).
    by rewrite list_lookup_alter_eq, Hc1. }
  rewrite list_lookup_alter_ne by done. unfold l1.
  destruct (decide (j = k)) as [->|Hjk].
  { right. split.
    - intros i Hi Hoi. destruct (decide (i = k)) as [->|]; [done|].
      by apply no_arrival_at_source.
    - rewrite list_lookup_alter_eq, Hsrc. simpl.
      assert (cj = ck) as -> by congruence.
      rewrite decide_True; [done|]. split; [lia|done]. }
  rewrite list_lookup_alter_ne by done.
  destruct (Hpt j cj Hj) as [(i & ci & Hi & Hrest)|[Hno Hl]].
  - left. exists i, ci. split; [lia|done].
  - right. split.
    + intros i Hi Hoi. destruct (decide (i = k)) as [->|]; [done|].
      apply Hno; [lia|done].
    + rewrite Hl. f_equal.
      repeat case_decide; try done; exfalso; destruct_and?; lia || tauto.
Qed.

Lemma move_inv_end l :
  move_inv copy (length copy) l →
  count_cars l = count_cars copy ∧ length l = length copy ∧
  (∀ i c, copy !! i = Some c → state c = 1 →
          l !! target_of copy i = Some (mkCell 1 (velocity c))) ∧
  (∀ j c', l !! j = Some c' → state c' = 1 →
           ∃ i c, copy !! i = Some c ∧ state c = 1 ∧ target_of copy i = j ∧
                  c' = mkCell 1 (velocity c)).
Proof.
  intros (Hlen & Hcount & Hpt). do 2 (split; [done|]). split.
  - intros i c Hi Hocc. apply lookup_lt_Some in Hi as Hlt.
    pose proof (target_of_lt copy i Hlt) as Htlt.
    destruct (lookup_lt_is_Some_2 copy _ Htlt) as [ct Hct].
    destruct (Hpt _ ct Hct) as [(i' & ci & Hi' & Hci & Hoi & Ht & Hl)|[Hno _]].
    + assert (i' = i) as ->.
      { apply Hdistinct; [by exists ci|by exists c|done]. }
      congruence.
    + exfalso. apply (Hno i Hlt); [by exists c|done].
  - intros j c' Hj Hocc. apply lookup_lt_Some in Hj as Hlt. rewrite Hlen in Hlt.
    destruct (lookup_lt_is_Some_2 copy _ Hlt) as [cj Hcj].
    destruct (Hpt _ cj Hcj) as [(i & ci & Hi & Hci & Hoi & Ht & Hl)|[_ Hl]].
    + exists i, ci. do 3 (split; [done|]). congruence.
    + rewrite Hl in Hj. injection Hj as <-. case_decide as Hd; [done|].
      exfalso. apply Hd. split; [lia|done].
Qed.
End SafeMove.

(** ** Single-lane model: the gap query *)

Lemma safe_lane_collision_free lane : safe_lane lane → collision_free lane.
Proof.
  intros Hsafe. split; [by apply safe_lane_targets_clear|].
  intros i1 i2. by apply safe_targets_distinct.
Qed.

Lemma cyc_offset n (i k : nat) :
  (i < n)%nat → (k < n)%nat → i ≠ k →
  ∃ j, 1 ≤ j < Z.of_nat n ∧ cyc n (Z.of_nat k + j) = i.
Proof.
  intros Hi Hk Hne. destruct (decide (k < i)%nat).
  - exists (Z.of_nat i - Z.of_nat k). split; [lia|].
    replace (Z.of_nat k + (Z.of_nat i - Z.of_nat k)) with (Z.of_nat i) by lia.
    by apply cyc_small.
  - exists (Z.of_nat i - Z.of_nat k + Z.of_nat n). split; [lia|].
    replace (Z.of_nat k + (Z.of_nat i - Z.of_nat k + Z.of_nat n))
      with (Z.of_nat i + 1 * Z.of_nat n) by lia.
    unfold cyc. rewrite Z_mod_plus_full. by apply cyc_small.
Qed.

Lemma single_distance_spec (cells : list Cell) (k : nat) :
  (k < length cells)%nat →
  (∃ g, SingleLane.distance cells (Z.of_nat k) (len cells) = Ok (Some g) ∧
        0 ≤ g < len cells - 1 ∧
        occupied_at cells (cyc (length cells) (Z.of_nat k + (g + 1))) ∧
        ∀ j, 1 ≤ j ≤ g → ¬ occupied_at cells (cyc (length cells) (Z.of_nat k + j)))
  ∨ (SingleLane.distance cells (Z.of_nat k) (len cells) = Ok None ∧
     ∀ i, i ≠ k → ¬ occupied_at cells i).
Proof.
  intros Hk. unfold SingleLane.distance.
  set (fetch := λ i, m ← py_mod (i + Z.of_nat k) (len cells); py_get cells m).
  assert (∀ j, ∃ c, cells !! cyc (length cells) (Z.of_nat k + j) = Some c ∧
                    fetch j = Ok c) as Hfetch.
  { intros j. unfold fetch. rewrite (Z.add_comm j).
    apply fetch_cyclic; [done|lia]. }
  assert (∀ j c, fetch j = Ok c → state c ≠ 1 →
                 ¬ occupied_at cells (cyc (length cells) (Z.of_nat k + j))) as Hfree.
  { intros j c Hc Hs (c' & Hc' & Hs'). destruct (Hfetch j) as (c0 & Hc0 & Hf). congruence. }
  destruct (first_occupied_spec fetch 1 (len cells))
    as [(g & c & Hg & Hb & Hc & Hocc & Hpre)|[Hg Hall]].
  { intros i _. destruct (Hfetch i) as (c & _ & Hc). by exists c. }
  - left. exists g. split; [done|]. split; [lia|]. split.
    + destruct (Hfetch (g + 1)) as (c0 & Hc0 & Hf). exists c0. split; [done|]. congruence.
    + intros j Hj. destruct (Hpre j ltac:(lia)) as (c' & Hc' & Hs'). by eapply Hfree.
  - right. split; [done|]. intros i Hne Hocc.
    pose proof (occupied_at_lt _ _ Hocc) as Hi.
    destruct (cyc_offset (length cells) i k Hi Hk Hne) as (j & Hj & Hcyc).
    destruct (Hall j Hj) as (c' & Hc' & Hs').
    eapply Hfree; [done..|]. by rewrite Hcyc.
Qed.

Lemma count_cars_none (cells : list Cell) :
  (∀ i, ¬ occupied_at cells i) → count_cars cells = 0%nat.
Proof.
  induction cells as [|a cells IH]; intros Hfree; [done|].
  rewrite count_cars_cons, IH, car_free; [done| |].
  - intros Ha. apply (Hfree 0%nat). by exists a.
  - intros i (x & Hx & Hsx). apply (Hfree (S i)). by exists x.
Qed.

Lemma count_cars_lone (cells : list Cell) (k : nat) :
  occupied_at cells k → (∀ i, i ≠ k → ¬ occupied_at cells i) → count_cars cells = 1%nat.
Proof.
  revert k. induction cells as [|a cells IH]; intros k (c & Hc & Hs) Hothers; [done|].
  rewrite count_cars_cons. destruct k as [|k]; simpl in Hc.
  - injection Hc as ->. rewrite car_occupied, count_cars_none; [done| |done].
    intros i (x & Hx & Hsx). apply (Hothers (S i)); [lia|]. by exists x.
  - rewrite (IH k); [|by exists c|].
    + rewrite car_free; [done|]. intros Ha. apply (Hothers 0%nat); [lia|]. by exists a.
    + intros i Hi (x & Hx & Hsx). apply (Hothers (S i)); [lia|]. by exists x.
Qed.

Lemma occupied_at_states l l' i :
  state <$> l = state <$> l' → occupied_at l i → occupied_at l' i.
Proof.
  intros Heq (c & Hc & Hs).
  assert ((state <$> l') !! i = Some 1) as Hl'.
  { rewrite <- Heq, list_lookup_fmap, Hc. simpl. by rewrite Hs. }
  rewrite list_lookup_fmap in Hl'. apply fmap_Some in Hl' as (c' & Hc' & Hs').
  by exists c'.
Qed.

Lemma count_cars_states l l' : state <$> l = state <$> l' → count_cars l = count_cars l'.
Proof.
  revert l'. induction l as [|a l IH]; intros [|a' l'] Heq; try done.
  simpl in Heq. injection Heq as Ha Hl. rewrite !count_cars_cons, (IH l' Hl).
  unfold car. by rewrite Ha.
Qed.

Lemma safe_speed_states l l' i v :
  state <$> l = state <$> l' → safe_speed l i v → safe_speed l' i v.
Proof.
  intros Heq [Hv Hpass]. split; [done|].
  assert (length l' = length l) as ->.
  { by rewrite <- (length_fmap state l'), <- Heq, length_fmap. }
  intros j Hj Hocc. apply Hpass; [done|]. by eapply occupied_at_states.
Qed.

Lemma states_insert (l : list Cell) k c c' :
  l !! k = Some c → state c' = state c → state <$> <[k := c']> l = state <$> l.
Proof.
  intros Hk Hs. rewrite list_fmap_insert, Hs. apply list_insert_id.
  by rewrite list_lookup_fmap, Hk.
Qed.

(** ** Single-lane model: the step conserves the vehicles *)

Section SingleLaneConservation.
Context `{RandomSource G}.
Import SingleLane.

Lemma single_move_collision_free (w : World G) (num_cells : Z) :
  num_cells = len (lane w) → collision_free (lane w) →
  ∃ w' : World G,
    move num_cells w = Normal w' ∧
    stdout w' = stdout w ∧ gen w' = gen w ∧
    count_cars (lane w') = count_cars (lane w) ∧
    length (lane w') = length (lane w) ∧
    (∀ i c, lane w !! i = Some c → state c = 1 →
            lane w' !! target_of (lane w) i = Some (mkCell 1 (velocity c))) ∧
    (∀ j c', lane w' !! j = Some c' → state c' = 1 →
             ∃ i c, lane w !! i = Some c ∧ state c = 1 ∧
                    target_of (lane w) i = j ∧ c' = mkCell 1 (velocity c)).
Proof.
  intros Hn [Hclear Hdistinct]. unfold move.
  destruct (for_each_enumerate_normal
              (λ k s, move_inv (lane w) k (lane s) ∧
                      stdout s = stdout w ∧ gen s = gen w)
              (move_body num_cells) (lane w) w) as (w' & Hw' & Hinv & Hout & Hgen).
  { split; [apply move_inv_start|done]. }
  { intros k ck s Hk (Hinv & Hout & Hgen). unfold move_body.
    case_decide as Hocc; last first.
    { exists s. split; [done|]. split; [|done]. by eapply move_inv_skip. }
    apply lookup_lt_Some in Hk as Hlt.
    pose proof Hinv as (Hlen & _).
    rewrite py_mod_ok by (unfold len in Hn; lia). simpl.
    assert (target_of (lane w) k =
            Z.to_nat ((Z.of_nat k + velocity ck) `mod` num_cells)) as Ht.
    { unfold target_of, cyc. by rewrite Hk, Hn. }
    pose proof (target_of_lt (lane w) k Hlt) as Htlt.
    assert (0 ≤ (Z.of_nat k + velocity ck) `mod` num_cells < len (lane s)) as Hnext.
    { unfold len. rewrite Hlen. fold (len (lane w)). rewrite <- Hn.
      apply Z.mod_pos_bound. unfold len in Hn. lia. }
    rewrite py_pos_ok by done. simpl.
    destruct (py_get_total _ _ Hnext) as (target & Htarget & ->). simpl.
    rewrite <- Ht in *.
    rewrite decide_False; last first.
    { intros [Hst Hne]. destruct (decide (target_of (lane w) k = k)) as [Heq|Hne'].
      - apply Hne. rewrite Heq in Ht. lia.
      - by eapply (move_inv_target_free (lane w) Hclear Hdistinct k ck (lane s) target). }
    eexists. split; [done|]. simpl. split; [|done].
    rewrite (alter_set_cell 0 (-1)), (alter_set_cell 1 (velocity ck)).
    by apply move_inv_step. }
  exists w'. split; [done|]. do 2 (split; [done|]).
  destruct (move_inv_end (lane w) Hdistinct (lane w') Hinv) as (? & ? & ? & ?).
  done.
Qed.

(** The loop of an update step: every vehicle ends with a velocity that
    is at most its gap. *)
Lemma update_loop_safe (body : nat → World G → Outcome (World G)) (next : G → G)
    (num_cells max_vel : Z) (w : World G) :
  (∀ k s cell, lane s !! k = Some cell → state cell ≠ 1 → body k s = Normal s) →
  (∀ k s cell gap, lane s !! k = Some cell → state cell = 1 → cell_ok max_vel cell →
     distance (lane s) (Z.of_nat k) num_cells = Ok (Some gap) → 0 ≤ gap →
     ∃ c', body k s = Normal (mkWorld (<[k := c']> (lane s)) (stdout s) (next (gen s))) ∧
           state c' = 1 ∧ 0 ≤ velocity c' ≤ gap ∧ velocity c' ≤ max_vel) →
  num_cells = len (lane w) →
  Forall (cell_ok max_vel) (lane w) →
  count_cars (lane w) ≠ 1%nat →
  ∃ w', for_each body (seq 0 (length (lane w))) w = Normal w' ∧
        stdout w' = stdout w ∧
        gen w' = Nat.iter (count_cars (lane w)) next (gen w) ∧
        state <$> lane w' = state <$> lane w ∧
        Forall (cell_ok max_vel) (lane w') ∧
        safe_lane (lane w').
Proof.
  intros Hskip Hbody Hn Hok Hcount.
  destruct (for_each_seq_normal
    (λ k s, stdout s = stdout w ∧
            gen s = Nat.iter (count_cars (take k (lane w))) next (gen w) ∧
            state <$> lane s = state <$> lane w ∧
            Forall (cell_ok max_vel) (lane s) ∧
            ∀ i c, (i < k)%nat → lane s !! i = Some c → state c = 1 →
                   safe_speed (lane w) i (velocity c))
    body (length (lane w)) w) as (w' & Hw' & Hout & Hgen & Hst & Hok' & Hsafe).
  { do 4 (split; [done|]). intros i c Hi. lia. }
  { intros k s Hk (Hout & Hgen & Hst & Hoks & Hsafe).
    assert (length (lane s) = length (lane w)) as Hlen.
    { by rewrite <- (length_fmap state (lane s)), Hst, length_fmap. }
    destruct (lookup_lt_is_Some_2 (lane s) k ltac:(lia)) as [cell Hcell].
    destruct (lookup_lt_is_Some_2 (lane w) k ltac:(lia)) as [cw Hcw].
    assert (state cw = state cell) as Hcws.
    { assert ((state <$> lane s) !! k = (state <$> lane w) !! k) as Hk' by by rewrite Hst.
      rewrite !list_lookup_fmap, Hcell, Hcw in Hk'. by injection Hk'. }
    rewrite (count_cars_take_S _ _ _ Hcw).
    destruct (decide (state cell = 1)) as [Hocc|Hfree]; last first.
    { exists s. split; [by eapply Hskip|]. split; [done|]. split.
      { rewrite car_free, Nat.add_0_r by congruence. done. }
      do 2 (split; [done|]).
      intros i c Hi Hc Hs. destruct (decide (i = k)) as [->|]; [congruence|].
      apply Hsafe; [lia|done..]. }
    destruct (single_distance_spec (lane s) k ltac:(lia))
      as [(gap & Hdist & Hgap & _ & Hfree)|[_ Halone]]; last first.
    { exfalso. apply Hcount. rewrite <- (count_cars_states _ _ Hst).
      apply (count_cars_lone _ k); [by exists cell|done]. }
    replace (len (lane s)) with num_cells in Hdist
      by (unfold len in *; rewrite Hn; lia).
    destruct (Hbody k s cell gap Hcell Hocc (Forall_lookup_1 _ _ _ _ Hoks Hcell)
                Hdist ltac:(lia)) as (c' & -> & Hs' & Hv' & Hmax).
    eexists. split; [done|]. simpl. split; [done|]. split.
    { rewrite car_occupied, Nat.add_1_r by congruence. simpl. by rewrite Hgen. }
    split.
    { rewrite <- Hst. apply (states_insert _ _ cell); congruence. }
    split.
    { apply Forall_insert; [done|]. left. split; [done|lia]. }
    intros i c Hi Hc Hs. destruct (decide (i = k)) as [->|Hne].
    - rewrite list_lookup_insert_eq in Hc by lia. injection Hc as <-.
      split; [lia|]. intros j Hj Hocc'. exfalso. rewrite <- Hlen in Hocc'.
      apply (Hfree j ltac:(lia)). eapply occupied_at_states; [|done]. done.
    - rewrite list_lookup_insert_ne in Hc by done. apply Hsafe; [lia|done..]. }
  exists w'. split; [done|]. split; [done|]. split.
  { by rewrite take_ge in Hgen. }
  do 2 (split; [done|]).
  intros i c Hc Hs. apply (safe_speed_states (lane w)); [done|].
  apply lookup_lt_Some in Hc as Hlt.
  apply Hsafe; [|done..].
  by rewrite <- (length_fmap state (lane w)), <- Hst, length_fmap.
Qed.

Lemma update_body_eval (num_cells max_vel : Z) (p : Q) k (s : World G) cell gap :
  lane s !! k = Some cell → state cell = 1 → cell_ok max_vel cell →
  distance (lane s) (Z.of_nat k) num_cells = Ok (Some gap) → 0 ≤ gap →
  ∃ c', update_body num_cells max_vel p k s
          = Normal (mkWorld (<[k := c']> (lane s)) (stdout s) (random (gen s)).2) ∧
        state c' = 1 ∧ 0 ≤ velocity c' ≤ gap ∧ velocity c' ≤ max_vel.
Proof.
  intros Hcell Hocc Hok Hdist Hgap. unfold update_body.
  rewrite Hcell, decide_True, Hdist by done. simpl.
  pose proof (cell_ok_speed _ _ Hok Hocc) as Hv.
  rewrite randomize_unfold. simpl.
  eexists. rewrite list_insert_insert_eq. split; [reflexivity|].
  unfold accelerate.
  destruct (Qle_bool _ p); repeat case_decide; simpl in *; lia.
Qed.

Lemma single_update_conserves (num_cells max_vel : Z) (p : Q) (w : World G) :
  num_cells = len (lane w) →
  Forall (cell_ok max_vel) (lane w) →
  count_cars (lane w) ≠ 1%nat →
  ∃ w', update num_cells max_vel p w = Normal w' ∧
        count_cars (lane w') = count_cars (lane w) ∧
        stdout w' = stdout w ∧
        length (lane w') = length (lane w) ∧
        Forall (cell_ok max_vel) (lane w') ∧
        gen w' = Nat.iter (count_cars (lane w)) (λ g, (random g).2) (gen w).
Proof.
  intros Hn Hok Hcount. unfold update.
  destruct (update_loop_safe (update_body num_cells max_vel p) (λ g, (random g).2)
              num_cells max_vel w
              (λ k s cell, update_body_skip num_cells max_vel p k s cell)
              (update_body_eval num_cells max_vel p) Hn Hok Hcount)
    as (w1 & -> & Hout & Hgen & Hst & Hok1 & Hsafe).
  simpl.
  assert (length (lane w1) = length (lane w)) as Hlen.
  { by rewrite <- (length_fmap state (lane w1)), Hst, length_fmap. }
  destruct (single_move_collision_free w1 num_cells)
    as (w' & Hmove & Hout' & Hgen' & Hcnt & Hlen' & _).
  { unfold len in *. rewrite Hlen. done. }
  { by apply safe_lane_collision_free. }
  exists w'. split; [done|]. split.
  { rewrite Hcnt. by apply count_cars_states. }
  split; [congruence|]. split; [congruence|]. split; [|congruence].
  pose proof (single_move_bounds max_vel num_cells w1 Hok1) as Hb.
  by rewrite Hmove in Hb.
Qed.
End SingleLaneConservation.

(** ** The two-lane move against the single-lane move *)

Lemma for_each_rel_in {S1 S2 I} (RS : S1 → S2 → Prop)
    (b1 : I → S1 → Outcome S1) (b2 : I → S2 → Outcome S2) xs s1 s2 :
  (∀ x s1 s2, x ∈ xs → RS s1 s2 → outcome_rel RS (b1 x s1) (b2 x s2)) →
  RS s1 s2 → outcome_rel RS (for_each b1 xs s1) (for_each b2 xs s2).
Proof.
  revert s1 s2. induction xs as [|x xs IH]; intros s1 s2 Hb Hs; simpl; [done|].
  pose proof (Hb x s1 s2 ltac:(left) Hs) as Hx.
  destruct (b1 x s1), (b2 x s2); simpl in *; try done.
  apply IH; [|done]. intros y t1 t2 Hy. apply Hb. by right.
Qed.

Lemma py_pos_length {A} (l l' : list A) i : length l = length l' → py_pos l i = py_pos l' i.
Proof. intros Hlen. unfold py_pos. by rewrite Hlen. Qed.

(** When no vehicle aims at a cell that another vehicle occupies, the
    [lane_change] flag of the two-lane [move] is never set and the lane is
    rewritten as the single-lane [move] rewrites it. *)
Lemma two_lane_move_agrees {G} (cells : list Cell) (num_cells : Z) (out : list Z) (g : G) :
  num_cells = len cells → targets_clear cells →
  TwoLane.move num_cells cells =
    Normal (SingleLane.lane
              (final (SingleLane.move num_cells (SingleLane.mkWorld cells out g)))).
Proof.
  intros Hn Hclear. unfold TwoLane.move.
  destruct (single_move_total (SingleLane.mkWorld cells out g) num_cells Hn)
    as (w' & Hmove & _).
  rewrite Hmove. simpl. unfold SingleLane.move in Hmove. simpl in Hmove.
  pose proof (for_each_rel_in
    (λ (s : list Cell * bool) (w : SingleLane.World G),
       s.1 = SingleLane.lane w ∧ s.2 = false ∧ length s.1 = length cells)
    (TwoLane.move_body cells num_cells) (SingleLane.move_body num_cells)
    (enumerate cells) (cells, false) (SingleLane.mkWorld cells out g)) as Hrel.
  rewrite Hmove in Hrel.
  assert (outcome_rel
    (λ (s : list Cell * bool) (w : SingleLane.World G),
       s.1 = SingleLane.lane w ∧ s.2 = false ∧ length s.1 = length cells)
    (for_each (TwoLane.move_body cells num_cells) (enumerate cells) (cells, false))
    (Normal w')) as Hend.
  { apply Hrel; [|done]. clear Hrel Hmove w'.
    intros [k ck] [live flag] w Hk%elem_of_enumerate (Hlive & Hflag & Hlen).
    simpl in *. subst live flag.
    unfold TwoLane.move_body, SingleLane.move_body.
    case_decide as Hocc; [|done].
    apply lookup_lt_Some in Hk as Hlt.
    rewrite py_mod_ok by (unfold len in Hn; lia). simpl.
    set (next_cell := (Z.of_nat k + velocity ck) `mod` num_cells).
    assert (0 ≤ next_cell < len cells) as Hnext.
    { rewrite <- Hn. apply Z.mod_pos_bound. unfold len in Hn. lia. }
    assert (target_of cells k = Z.to_nat next_cell) as Ht.
    { unfold target_of, cyc, next_cell. by rewrite Hk, Hn. }
    rewrite (py_pos_length _ (SingleLane.lane w)) by by rewrite !length_alter.
    rewrite py_pos_ok by (unfold len in *; lia). simpl.
    destruct (py_get_total cells _ Hnext) as (target & Htarget & ->).
    destruct (py_get_total (SingleLane.lane w) next_cell ltac:(unfold len in *; lia))
      as (live_target & _ & ->). simpl.
    split; [by case_decide|]. split; [|by rewrite !length_alter].
    apply bool_decide_eq_false_2. intros [Hst Hne].
    destruct (Hclear k) as [Hself|Hfree]; [by exists ck| |].
    + apply Hne. rewrite Hself in Ht. lia.
    + apply Hfree. rewrite Ht. by exists target. }
  destruct (for_each _ _ (cells, false)) as [s|e s]; simpl in Hend; [|done].
  f_equal. apply Hend.
Qed.

(** On a lane free of collisions the two-lane [move] conserves the
    vehicles. *)
Lemma two_lane_move_collision_free (cells : list Cell) (num_cells : Z) :
  num_cells = len cells → collision_free cells →
  ∃ cells', TwoLane.move num_cells cells = Normal cells' ∧
            count_cars cells' = count_cars cells ∧
            length cells' = length cells ∧
            (∀ i c, cells !! i = Some c → state c = 1 →
                    cells' !! target_of cells i = Some (mkCell 1 (velocity c))) ∧
            (∀ j c', cells' !! j = Some c' → state c' = 1 →
                     ∃ i c, cells !! i = Some c ∧ state c = 1 ∧
                            target_of cells i = j ∧ c' = mkCell 1 (velocity c)).
Proof.
  intros Hn Hfree.
  rewrite (two_lane_move_agrees cells num_cells [] tt Hn (proj1 Hfree)).
  destruct (single_move_collision_free (SingleLane.mkWorld cells [] tt) num_cells Hn Hfree)
    as (w' & -> & _ & _ & Hrest).
  by exists (SingleLane.lane w').
Qed.

(** ** Two-lane model: lane changes conserve the vehicles *)

(** Two lanes hold as many cars before and after a rewriting that keeps
    the number of cars of each column. *)
Lemma count_columns (l0 l1 l0' l1' : list Cell) :
  length l0 = length l1 → length l0' = length l0 → length l1' = length l1 →
  (∀ k a b a' b', l0 !! k = Some a → l1 !! k = Some b →
                  l0' !! k = Some a' → l1' !! k = Some b' →
                  (car a' + car b' = car a + car b)%nat) →
  (count_cars l0' + count_cars l1' = count_cars l0 + count_cars l1)%nat.
Proof.
  revert l1 l0' l1'.
  induction l0 as [|a l0 IH]; intros [|b l1] [|a' l0'] [|b' l1'] H1 H2 H3 Hcol;
    try done.
  simpl in *. rewrite !count_cars_cons.
  pose proof (Hcol 0%nat a b a' b' eq_refl eq_refl eq_refl eq_refl).
  assert (count_cars l0' + count_cars l1' = count_cars l0 + count_cars l1)%nat; [|lia].
  apply IH; [lia..|]. intros k. apply (Hcol (S k)).
Qed.

Lemma count_road_two (l0 l1 : list Cell) :
  count_road [l0; l1] = (count_cars l0 + count_cars l1)%nat.
Proof. unfold count_road. simpl. lia. Qed.

Lemma lane_changes_conserve (snapshot : TwoLane.Road) (n : nat) (max_vels : list Z) :
  two_lanes snapshot n → length max_vels = 2%nat →
  count_road (after_changes snapshot (wants_change snapshot n max_vels))
  = count_road snapshot.
Proof.
  intros Hshape Hmax. pose proof Hshape as (l0 & l1 & Hroad & H0 & H1).
  rewrite Hroad at 1 3. rewrite after_changes_two, !count_road_two.
  apply count_columns; [congruence|by rewrite length_imap..|].
  intros k a b a' b' Ha Hb. rewrite !list_lookup_imap, Ha, Hb. simpl.
  intros [= <-] [= <-]. rewrite <- Hroad.
  apply lookup_lt_Some in Ha as Hk. rewrite H0 in Hk.
  unfold changed_cell. simpl.
  destruct (wants_change snapshot n max_vels 0 k) eqn:Hw0.
  - destruct (wants_change_inv snapshot n max_vels Hshape Hmax 0 k ltac:(lia) Hk Hw0)
      as (lane & c & c' & _ & _ & Hl & Hc & Hocc & Hc' & Hfree & _).
    pose proof (wants_change_exclusive snapshot n max_vels Hshape Hmax 0 k ltac:(lia) Hk Hw0)
      as Hex. simpl in Hex. rewrite Hex.
    rewrite Hroad in Hl, Hc'. simpl in *. simplify_eq.
    unfold TwoLane.cell_at in Hc'. simpl in Hc'. simplify_eq.
    unfold car. simpl. repeat case_decide; simpl in *; lia.
  - destruct (wants_change snapshot n max_vels 1 k) eqn:Hw1; [|done].
    destruct (wants_change_inv snapshot n max_vels Hshape Hmax 1 k ltac:(lia) Hk Hw1)
      as (lane & c & c' & _ & _ & Hl & Hc & Hocc & Hc' & Hfree & _).
    rewrite Hroad in Hl, Hc'. simpl in *. simplify_eq.
    unfold TwoLane.cell_at in Hc'. simpl in Hc'. simplify_eq.
    unfold car. simpl. repeat case_decide; simpl in *; lia.
Qed.

(** ** Two-lane model: a step without lane changes *)

Lemma gap_safe (lane : list Cell) (k : nat) gap v :
  (k < length lane)%nat → gap_of lane (length lane) (Z.of_nat k) 1 gap →
  0 ≤ v ≤ gap → safe_speed lane k v.
Proof.
  intros Hk Hgap Hv. split; [lia|]. intros j Hj (c & Hc & Hocc).
  destruct Hgap as [(Hd & _ & Hfree)|[-> Hfree]].
  - destruct (Hfree j ltac:(lia)) as (c' & Hc' & Hs').
    replace (1 * j + Z.of_nat k) with (Z.of_nat k + j) in Hc' by lia. congruence.
  - destruct (decide (j = Z.of_nat (length lane))) as [->|Hne].
    + unfold cyc. replace (Z.of_nat k + Z.of_nat (length lane))
        with (Z.of_nat k + 1 * Z.of_nat (length lane)) by lia.
      rewrite Z_mod_plus_full. by apply cyc_small.
    + destruct (Hfree j ltac:(lia)) as (c' & Hc' & Hs').
      replace (1 * j + Z.of_nat k) with (Z.of_nat k + j) in Hc' by lia. congruence.
Qed.

Lemma road_states_alter_cell (f : Cell → Cell) (i k : nat) (cells : TwoLane.Road) :
  (∀ c, state (f c) = state c) →
  road_states (TwoLane.alter_cell f i k cells) = road_states cells.
Proof.
  intros Hf. unfold road_states, TwoLane.alter_cell.
  apply list_eq. intros i'. rewrite !list_lookup_fmap, list_lookup_alter.
  case_decide as Hi; [subst i'|done].
  destruct (cells !! i) as [lane|]; simpl; [|done]. f_equal.
  apply list_eq. intros k'. rewrite !list_lookup_fmap, list_lookup_alter.
  case_decide as Hk; [subst k'|done].
  destruct (lane !! k) as [c|]; simpl; [|done]. by rewrite Hf.
Qed.

Lemma road_states_put (c' : Cell) (i k : nat) (cells : TwoLane.Road) c :
  TwoLane.cell_at cells i k = Some c → state c' = state c →
  road_states (TwoLane.alter_cell (λ _, c') i k cells) = road_states cells.
Proof.
  intros Hc Hs. unfold road_states, TwoLane.alter_cell, TwoLane.cell_at in *.
  apply list_eq. intros i'. rewrite !list_lookup_fmap, list_lookup_alter.
  case_decide as Hi; [subst i'|done].
  destruct (cells !! i) as [lane|]; simpl in *; [|done]. f_equal.
  apply list_eq. intros k'. rewrite !list_lookup_fmap, list_lookup_alter.
  case_decide as Hk; [subst k'|done].
  rewrite Hc. simpl. by rewrite Hs.
Qed.

Lemma road_states_two (l0 l1 s0 s1 : list Cell) :
  road_states [l0; l1] = road_states [s0; s1] →
  state <$> l0 = state <$> s0 ∧ state <$> l1 = state <$> s1.
Proof. unfold road_states. simpl. by intros [= -> ->]. Qed.

Section TwoLaneConservation.
Context `{RandomSource G}.
Context (n : nat) (max_vels : list Z) (Hmax : length max_vels = 2%nat).

Lemma for_lanes_indexed (P : nat → nat → TwoLane.World G → Prop)
    (body : nat → nat → TwoLane.World G → Outcome (TwoLane.World G)) w :
  P 0%nat 0%nat w →
  (∀ i k w, P i k w → two_lanes (TwoLane.road w) n) →
  (∀ i k w, (i < 2)%nat → (k < n)%nat → P i k w →
            ∃ w', body i k w = Normal w' ∧ P i (S k) w') →
  (∀ w, P 0%nat n w → P 1%nat 0%nat w) →
  ∃ w', TwoLane.for_lanes body w = Normal w' ∧ P 1%nat n w'.
Proof.
  intros Hw Hshape Hbody Hnext. unfold TwoLane.for_lanes. simpl.
  destruct (two_lanes_py_get _ _ 0 (Hshape _ _ _ Hw) ltac:(lia)) as (l0 & _ & Hl0 & ->).
  simpl. rewrite Hl0.
  destruct (for_each_seq_normal (P 0%nat) (body 0%nat) n w Hw)
    as (w0 & -> & Hw0).
  { intros k s Hk Hs. apply Hbody; [lia|done..]. }
  simpl. apply Hnext in Hw0.
  destruct (two_lanes_py_get _ _ 1 (Hshape _ _ _ Hw0) ltac:(lia)) as (l1 & _ & Hl1 & ->).
  simpl. rewrite Hl1.
  destruct (for_each_seq_normal (P 1%nat) (body 1%nat) n w0 Hw0)
    as (w1 & -> & Hw1).
  { intros k s Hk Hs. apply Hbody; [lia|done..]. }
  by exists w1.
Qed.

Lemma accelerate_phase_states (w w1 : TwoLane.World G) :
  phase_inv n max_vels w →
  TwoLane.for_lanes (TwoLane.accelerate_body max_vels) w = Normal w1 →
  phase_inv n max_vels w1 ∧ road_states (TwoLane.road w1) = road_states (TwoLane.road w).
Proof.
  intros Hw Hacc.
  destruct (for_lanes_normal n max_vels Hmax
              (λ w', phase_inv n max_vels w' ∧
                     road_states (TwoLane.road w') = road_states (TwoLane.road w))
              (TwoLane.accelerate_body max_vels) w) as (w' & Hrun & Hinv);
    [done|by intros ? [[? _] _]| |congruence].
  intros i k w0 Hi Hk [[Hshape Hok] Hst]. unfold TwoLane.accelerate_body.
  destruct (TwoLane.cell_at (TwoLane.road w0) i k) as [c|] eqn:Hc; [|by exists w0].
  case_decide as Hocc; [|by exists w0].
  destruct (lookup_lt_is_Some_2 max_vels i ltac:(lia)) as [limit Hlimit].
  rewrite (py_get_nat _ _ _ Hlimit). simpl. eexists. split; [done|].
  split; [split|]; simpl.
  - by apply two_lanes_alter_cell.
  - apply road_ok_alter_cell; [done|]. intros limit' c' Hl' Hc'. simplify_eq.
    apply cell_ok_accelerate; [|done]. by eapply Hok.
  - by rewrite road_states_alter_cell.
Qed.

Lemma decelerate_phase_safe (snapshot : TwoLane.Road) (p : Q) (w : TwoLane.World G) :
  two_lanes snapshot n → phase_inv n max_vels w →
  road_states (TwoLane.road w) = road_states snapshot →
  ∃ w', TwoLane.for_lanes (TwoLane.decelerate_body snapshot (Z.of_nat n) p) w = Normal w' ∧
        decelerate_inv n max_vels snapshot 1 n w'.
Proof.
  intros Hsnap Hw Hst.
  apply (for_lanes_indexed (decelerate_inv n max_vels snapshot)).
  - do 2 (split; [done|]). intros i' k' lane c Hlt. lia.
  - by intros i k w0 [[? _] _].
  - intros i k w0 Hi Hk ([Hshape Hok] & Hst0 & Hsafe).
    destruct (two_lanes_cell _ _ i k Hshape Hi Hk) as (live & c & Hlive & _ & Hc).
    rewrite <- (cell_at_lookup _ _ k _ Hlive) in Hc.
    destruct (decide (state c = 1)) as [Hocc|Hfree]; last first.
    { exists w0. split; [unfold TwoLane.decelerate_body; by rewrite Hc, decide_False|].
      do 2 (split; [done|]). intros i' k' lane c' Hlt Hl Hc' Hs.
      destruct (decide (i' = i ∧ k' = k)) as [[-> ->]|Hne]; [congruence|].
      eapply Hsafe; [|done..]. lia. }
    destruct (decelerate_body_eval n max_vels Hmax snapshot p w0 i k c Hsnap Hi Hk Hc Hocc)
      as (lane & gap & Hl & _ & Hgap & ->).
    destruct (two_lanes_lookup _ _ i Hsnap Hi) as (lane' & Hl' & Hlen).
    assert (lane' = lane) as -> by congruence.
    destruct (lookup_lt_is_Some_2 max_vels i ltac:(lia)) as [limit Hlimit].
    assert (cell_ok limit c) as Hcok by by eapply Hok.
    pose proof (gap_of_bounds _ _ _ _ _ Hgap) as Hgb.
    destruct (cell_ok_decelerate limit c gap _ Hcok Hocc ltac:(lia) eq_refl) as [Hslow Hs].
    pose proof (cell_ok_randomize limit _ p (TwoLane.gen w0) Hslow Hs) as Hrand.
    pose proof (cell_ok_speed _ _ Hcok Hocc) as Hv.
    set (c3 := (randomize _ p (TwoLane.gen w0)).1) in *.
    assert (state c3 = 1 ∧ 0 ≤ velocity c3 ≤ gap) as [Hs3 Hv3].
    { unfold c3. rewrite randomize_unfold. simpl.
      destruct (Qle_bool _ p); case_decide; simpl; lia. }
    eexists. split; [done|]. split; [split|split]; simpl.
    + by apply two_lanes_alter_cell.
    + apply road_ok_alter_cell; [done|]. intros limit' c' Hlimit' Hc'. by simplify_eq.
    + rewrite <- Hst0. apply (road_states_put c3 _ _ _ c); [done|congruence].
    + intros i' k' lane' c' Hlt Hl'' Hc' Hs'. rewrite cell_at_alter_cell in Hc'.
      case_decide as Heq.
      * destruct Heq as [<- <-]. rewrite Hc in Hc'. simpl in Hc'. injection Hc' as <-.
        assert (lane' = lane) as -> by congruence.
        apply (gap_safe lane k gap); [lia|by rewrite Hlen|done].
      * eapply Hsafe; [|done..]. lia.
  - intros w0 (Hinv & Hst0 & Hsafe). do 2 (split; [done|]).
    intros i' k' lane c Hlt Hl Hc Hs. eapply Hsafe; [|done..].
    destruct Hinv as [Hshape _].
    assert (i' = 0)%nat as -> by lia.
    destruct (two_lanes_lookup _ _ 0 Hshape ltac:(lia)) as (live & Hlive & Hlen).
    rewrite (cell_at_lookup _ _ _ _ Hlive) in Hc. apply lookup_lt_Some in Hc. lia.
Qed.

Lemma move_phase_safe (snapshot : TwoLane.Road) (w : TwoLane.World G) :
  two_lanes snapshot n →
  decelerate_inv n max_vels snapshot 1 n w →
  ∃ w', for_each (TwoLane.move_lane (Z.of_nat n)) [0%nat; 1%nat] w = Normal w' ∧
        phase_inv n max_vels w' ∧ TwoLane.gen w' = TwoLane.gen w ∧
        count_cars <$> TwoLane.road w' = count_cars <$> snapshot.
Proof.
  destruct w as [cells g].
  intros (s0 & s1 & -> & Hs0 & Hs1) ([(l0 & l1 & Hroad & H0 & H1) Hok] & Hst & Hsafe).
  simpl in *. subst cells.
  apply road_states_two in Hst as [Hst0 Hst1].
  assert (∃ m0 m1, max_vels = [m0; m1]) as (m0 & m1 & Hmv).
  { destruct max_vels as [|m0 [|m1 [|]]]; try done. by exists m0, m1. }
  rewrite Hmv in *.
  apply road_ok_two in Hok as [Hok0 Hok1].
  assert (safe_lane l0) as Hsafe0.
  { intros k c Hc Hocc. apply (safe_speed_states s0); [done|].
    apply (Hsafe 0%nat k); [|done..]. apply lookup_lt_Some in Hc. lia. }
  assert (safe_lane l1) as Hsafe1.
  { intros k c Hc Hocc. apply (safe_speed_states s1); [done|].
    apply (Hsafe 1%nat k); [|done..]. apply lookup_lt_Some in Hc. lia. }
  destruct (two_lane_move_collision_free l0 (Z.of_nat n))
    as (l0' & Hm0 & Hc0 & Hl0 & _);
    [unfold len; congruence|by apply safe_lane_collision_free|].
  destruct (two_lane_move_collision_free l1 (Z.of_nat n))
    as (l1' & Hm1 & Hc1 & Hl1 & _);
    [unfold len; congruence|by apply safe_lane_collision_free|].
  destruct (two_lane_move_bounds m0 l0 (Z.of_nat n)) as (l0'' & Hm0' & _ & Hok0');
    [unfold len; congruence|done|].
  destruct (two_lane_move_bounds m1 l1 (Z.of_nat n)) as (l1'' & Hm1' & _ & Hok1');
    [unfold len; congruence|done|].
  assert (l0'' = l0') as -> by congruence. assert (l1'' = l1') as -> by congruence.
  unfold TwoLane.move_lane. simpl.
  change (py_get [l0; l1] 0) with (Ok l0). simpl. rewrite Hm0. simpl.
  change (py_get [l0'; l1] 1) with (Ok l1). simpl. rewrite Hm1. simpl.
  eexists. split; [done|]. split; [split|split; [done|]]; simpl.
  - exists l0', l1'. repeat split; congruence.
  - by apply (proj2 (road_ok_two m0 m1 l0' l1')).
  - rewrite Hc0, Hc1, (count_cars_states _ _ Hst0), (count_cars_states _ _ Hst1). done.
Qed.

Lemma two_lane_update_without_change (p : Q) (w w1 : TwoLane.World G) :
  phase_inv n max_vels w →
  TwoLane.for_lanes (TwoLane.accelerate_body max_vels) w = Normal w1 →
  (∀ i k, wants_change (TwoLane.road w1) n max_vels i k = false) →
  ∃ w', TwoLane.update (Z.of_nat n) max_vels p w = Normal w' ∧
        phase_inv n max_vels w' ∧
        count_cars <$> TwoLane.road w' = count_cars <$> TwoLane.road w.
Proof.
  intros Hw Hacc Hnone.
  destruct (accelerate_phase_states w w1 Hw Hacc) as [[Hshape1 Hok1] Hst1].
  unfold TwoLane.update. rewrite Hacc. cbn [and_then].
  destruct w1 as [snapshot g1]. simpl in *.
  rewrite (lane_change_phase snapshot n max_vels Hshape1 Hmax g1). cbn [and_then TwoLane.road TwoLane.gen].
  rewrite (after_changes_none snapshot _ Hnone).
  destruct (decelerate_phase_safe snapshot p (TwoLane.mkWorld snapshot g1) Hshape1)
    as (w3 & -> & Hw3); [done..|]. cbn [and_then].
  destruct (move_phase_safe snapshot w3 Hshape1 Hw3) as (w4 & Hmove & Hw4 & _ & Hcount).
  simpl in Hmove. rewrite Hmove.
  exists w4. split; [done|]. split; [done|]. rewrite Hcount.
  destruct Hw as [(l0 & l1 & Hroad & _) _]. destruct Hshape1 as (s0 & s1 & -> & _).
  rewrite Hroad in *. apply road_states_two in Hst1 as [Hst0 Hst1]. simpl.
  by rewrite (count_cars_states _ _ Hst0), (count_cars_states _ _ Hst1).
Qed.
End TwoLaneConservation.

(** ** Initialisation on a lawful random source *)

Lemma NoDup_py_range a b : NoDup (py_range a b).
Proof.
  unfold py_range. apply NoDup_fmap_2; [|apply NoDup_seq].
  intros x y Hxy. lia.
Qed.

Lemma length_py_range a b : length (py_range a b) = Z.to_nat (b - a).
Proof. unfold py_range. by rewrite length_fmap, length_seq. Qed.

Lemma replay_lawful : lawful (list Q).
Proof.
  split.
  - intros a b g Hab. exists a. simpl. rewrite decide_True by done. split; [done|lia].
  - intros n k g Hk. exists (py_range 0 k). simpl. rewrite decide_True by done.
    split; [done|]. split; [apply NoDup_py_range|]. split.
    + rewrite length_py_range. f_equal. lia.
    + apply Forall_forall. intros i Hi%elem_of_py_range. lia.
Qed.

Lemma count_cars_replicate_empty m : count_cars (replicate m empty_cell) = 0%nat.
Proof. induction m as [|m IH]; [done|]. simpl. by rewrite count_cars_cons, IH. Qed.

Section SingleLaneInit.
Context `{RandomSource G} (Hlaw : lawful G).
Context (num_cars_of : Q → Z → Z).
Import SingleLane.

Lemma place_cars (indices : list Z) (w : World G) :
  NoDup indices →
  Forall (λ i, 0 ≤ i < len (lane w) ∧ ¬ occupied_at (lane w) (Z.to_nat i)) indices →
  Forall (cell_ok 5) (lane w) →
  ∃ w', for_each place_car indices w = Normal w' ∧
        length (lane w') = length (lane w) ∧ stdout w' = stdout w ∧
        Forall (cell_ok 5) (lane w') ∧
        count_cars (lane w') = (count_cars (lane w) + length indices)%nat.
Proof.
  revert w. induction indices as [|i indices IH]; intros w Hnd Hin Hok; simpl.
  { exists w. repeat split; try done; lia. }
  apply NoDup_cons in Hnd as [Hi Hnd]. apply Forall_cons in Hin as [[Hrange Hfree] Hin].
  unfold place_car at 1. rewrite py_pos_ok by done. simpl.
  destruct Hlaw as [Hrandint _].
  destruct (Hrandint 0 5 (gen w) ltac:(lia)) as (v & Hv & Hvr).
  destruct (randint 0 5 (gen w)) as [rv g'] eqn:Hr. simpl in Hv. subst rv. simpl.
  destruct (lookup_lt_is_Some_2 (lane w) (Z.to_nat i) ltac:(unfold len in *; lia))
    as [c Hc].
  set (l1 := alter (set_velocity v) (Z.to_nat i) (alter (set_state 1) (Z.to_nat i) (lane w))).
  destruct (IH (mkWorld l1 (stdout w) g')) as (w' & Hrun & Hlen & Hout & Hok' & Hcount).
  - done.
  - simpl. apply Forall_forall. intros j Hj.
    pose proof (proj1 (Forall_forall _ _) Hin j Hj) as Hj'. simpl in Hj'.
    destruct Hj' as [Hjr Hjf].
    unfold l1, len. rewrite !length_alter. split; [done|].
    intros (c' & Hc' & Hs'). apply Hjf. exists c'. split; [|done].
    assert (Z.to_nat i ≠ Z.to_nat j) as Hne.
    { intros Heq. apply Hi. replace i with j by lia. done. }
    by rewrite !list_lookup_alter_ne in Hc' by done.
  - simpl. unfold l1. rewrite alter_twice. apply Forall_alter_to; [done|].
    intros x. by apply cell_ok_arrive.
  - exists w'. split; [done|]. simpl in *. unfold l1 in *.
    rewrite !length_alter in Hlen. repeat split; try done.
    rewrite Hcount. rewrite alter_set_cell.
    pose proof (count_cars_alter (λ _, mkCell 1 v) (Z.to_nat i) (lane w) c Hc) as Hadd.
    cbv beta in Hadd. rewrite (car_occupied (mkCell 1 v)), (car_free c) in Hadd; [lia| |done].
    intros Hs. apply Hfree. by exists c.
Qed.

Lemma single_initilize_spec (num_cells : Z) (occupancy_percent : Q) (g : G) :
  0 ≤ num_cars_of occupancy_percent num_cells ≤ num_cells →
  ∃ w, initilize num_cars_of num_cells occupancy_percent g = Normal w ∧
       length (lane w) = Z.to_nat num_cells ∧ stdout w = [] ∧
       Forall (cell_ok 5) (lane w) ∧
       count_cars (lane w) = Z.to_nat (num_cars_of occupancy_percent num_cells).
Proof.
  intros Hk. unfold initilize.
  destruct Hlaw as [_ Hsample].
  destruct (Hsample num_cells _ g Hk) as (l & Hl & Hnd & Hlen & Hrange).
  destruct (sample num_cells _ g) as [rl g'] eqn:Hs. simpl in Hl. subst rl. simpl.
  destruct (place_cars l (mkWorld (replicate (Z.to_nat num_cells) empty_cell) [] g'))
    as (w & Hrun & Hlenw & Hout & Hok & Hcount); [done| | |].
  - simpl. apply Forall_forall. intros i Hi.
    pose proof (proj1 (Forall_forall _ _) Hrange i Hi) as Hir. simpl in Hir.
    unfold len. rewrite length_replicate. split; [lia|].
    intros (c & Hc & Hocc). apply lookup_replicate in Hc as [-> _]. done.
  - simpl. apply Forall_replicate. apply cell_ok_empty.
  - exists w. simpl in *. rewrite length_replicate in Hlenw.
    rewrite count_cars_replicate_empty in Hcount. repeat split; try done. lia.
Qed.
End SingleLaneInit.

(** ** Single-lane model: the simulation runs to completion *)

(** Writing the velocities of a lane into a row of the same length, cell
    by cell, yields the lane's velocities. *)
Lemma record_velocities (lane : list Cell) (row : list Z) :
  length row = length lane →
  foldl (λ (row : list Z) (ic : nat * Cell), <[ic.1 := velocity ic.2]> row) row (enumerate lane)
  = velocity <$> lane.
Proof.
  intros Hlen. unfold enumerate.
  assert (∀ lane2 lane1 row,
            length row = (length lane1 + length lane2)%nat →
            take (length lane1) row = velocity <$> lane1 →
            foldl (λ (row : list Z) (ic : nat * Cell), <[ic.1 := velocity ic.2]> row) row
                  (zip (seq (length lane1) (length lane2)) lane2)
            = velocity <$> (lane1 ++ lane2)) as Hgen.
  { clear. induction lane2 as [|x lane2 IH]; intros lane1 row Hlen Htake; simpl.
    - rewrite app_nil_r, <- Htake. rewrite take_ge; [done|]. simpl in Hlen. lia.
    - simpl in Hlen.
      replace (lane1 ++ x :: lane2) with ((lane1 ++ [x]) ++ lane2)
        by by rewrite <- app_assoc.
      specialize (IH (lane1 ++ [x]) (<[length lane1 := velocity x]> row)).
      rewrite length_app in IH. simpl in IH.
      replace (length lane1 + 1)%nat with (S (length lane1)) in IH by lia.
      apply IH.
      + rewrite length_insert. lia.
      + rewrite (take_S_r _ _ (velocity x)).
        * rewrite take_insert_ge by lia. rewrite Htake. by rewrite fmap_app.
        * apply list_lookup_insert_eq. lia. }
  apply (Hgen lane [] row); [simpl; lia|done].
Qed.

Lemma add_impulse_states {G} (impulse : Z) (w : SingleLane.World G) :
  state <$> SingleLane.lane (SingleLane.add_impulse impulse w) = state <$> SingleLane.lane w.
Proof.
  unfold SingleLane.add_impulse. simpl. rewrite <- list_fmap_compose.
  apply list_fmap_ext. intros k c _. simpl. by case_decide.
Qed.

Lemma add_impulse_bounds {G} (impulse limit : Z) (w : SingleLane.World G) :
  0 ≤ impulse → 5 ≤ limit →
  Forall (cell_ok limit) (SingleLane.lane w) →
  Forall (cell_ok limit) (SingleLane.lane (SingleLane.add_impulse impulse w)).
Proof.
  intros Himp Hlimit Hok. unfold SingleLane.add_impulse. simpl.
  apply Forall_fmap. eapply Forall_impl; [exact Hok|].
  intros c Hc. simpl. case_decide as Hocc; [|done].
  apply cell_ok_speed in Hc as Hv; [|done]. left. split; [done|].
  simpl. unfold max_vel in *. lia.
Qed.

Lemma cell_ok_mono (limit limit' : Z) (c : Cell) :
  limit ≤ limit' → cell_ok limit c → cell_ok limit' c.
Proof. intros Hle [[Hs Hv]|Hfree]; [left; split; [done|lia]|by right]. Qed.

Lemma cell_ok_velocity (limit : Z) (c : Cell) :
  0 ≤ limit → cell_ok limit c → -1 ≤ velocity c ≤ limit.
Proof. intros Hl [[_ Hv]|[_ Hv]]; lia. Qed.

Section SingleLaneRun.
Context `{RandomSource G} (Hlaw : lawful G).
Context (num_cars_of : Q → Z → Z).
Import SingleLane.

Lemma simulate_step_inv (num_cells max_vel : Z) (p : Q) (impulse : Z)
    (cars rows t : nat) (r : Run G) :
  0 ≤ num_cells → 5 ≤ max_vel → cars ≠ 1%nat → (t < rows)%nat →
  run_inv num_cells max_vel cars rows t r →
  ∃ r', simulate_step num_cells max_vel p impulse t r = Normal r' ∧
        run_inv num_cells max_vel cars rows (S t) r'.
Proof.
  intros Hn Hmax Hcars Ht (Hlen & Hok & Hcount & Hout & Hrows & Hrow & _).
  unfold simulate_step.
  destruct (single_update_conserves num_cells max_vel p (world r))
    as (w' & -> & Hcount' & Hout' & Hlen' & Hok' & _); [unfold len; lia|done|congruence|].
  simpl.
  set (r2 := if decide (impulse > 0 ∧ t = 0%nat)
             then mkRun (add_impulse impulse w') (velocities r)
             else mkRun w' (velocities r)).
  assert (length (lane (world r2)) = Z.to_nat num_cells ∧
          Forall (cell_ok max_vel) (lane (world r2)) ∧
          count_cars (lane (world r2)) = cars ∧
          stdout (world r2) = [] ∧ velocities r2 = velocities r)
    as (Hlen2 & Hok2 & Hcount2 & Hout2 & Hvel2).
  { unfold r2. case_decide as Himp; cbn [world velocities]; [|repeat split; congruence].
    pose proof (add_impulse_states impulse w') as Hst.
    split; [|split; [|split]].
    - rewrite <- (length_fmap state), Hst, length_fmap. congruence.
    - apply add_impulse_bounds; [lia|lia|done].
    - rewrite (count_cars_states _ _ Hst). congruence.
    - split; [simpl; congruence|done]. }
  clearbody r2. eexists. split; [reflexivity|].
  unfold run_inv, record_row. simpl. rewrite Hvel2.
  destruct (lookup_lt_is_Some_2 (velocities r) t ltac:(lia)) as [row Hr].
  pose proof (Forall_lookup_1 _ _ _ _ Hrow Hr) as [Hrl _].
  assert (alter (λ row, foldl (λ (row : list Z) (ic : nat * Cell),
                                 <[ic.1 := velocity ic.2]> row) row
                              (enumerate (lane (world r2)))) t (velocities r)
          = <[t := velocity <$> lane (world r2)]> (velocities r)) as ->.
  { apply list_eq. intros j. rewrite list_lookup_alter, list_lookup_insert by lia.
    case_decide as Hj; [subst j|by rewrite decide_False by tauto].
    rewrite decide_True by (split; [done|lia]).
    rewrite Hr. simpl. f_equal. apply record_velocities. congruence. }
  do 4 (split; [done|]). split; [by rewrite length_insert|]. split.
  - apply Forall_insert; [done|]. split; [by rewrite length_fmap|].
    apply Forall_fmap. eapply Forall_impl; [exact Hok2|].
    intros c Hc. simpl. apply cell_ok_velocity; [lia|done].
  - intros _. simpl. rewrite Nat.sub_0_r.
    apply list_lookup_insert_eq. lia.
Qed.

Lemma single_simulate_completes (max_vel : Z) (occupancy_percent : Q)
    (num_cells num_time_steps : Z) (p : Q) (impulse : Z) (g : G) :
  0 ≤ num_cars_of occupancy_percent num_cells ≤ num_cells →
  num_cars_of occupancy_percent num_cells ≠ 1 →
  0 ≤ num_time_steps → 5 ≤ max_vel →
  ∃ r, simulate num_cars_of max_vel occupancy_percent num_cells num_time_steps p impulse g
         = Normal r ∧
       run_inv num_cells max_vel (Z.to_nat (num_cars_of occupancy_percent num_cells))
               (Z.to_nat num_time_steps) (Z.to_nat num_time_steps) r.
Proof.
  intros Hk Hk1 HT Hmax. unfold simulate.
  destruct (single_initilize_spec Hlaw num_cars_of num_cells occupancy_percent g Hk)
    as (w0 & -> & Hlen & Hout & Hok & Hcount).
  simpl. rewrite decide_False by lia.
  apply (for_each_seq_normal
           (run_inv num_cells max_vel (Z.to_nat (num_cars_of occupancy_percent num_cells))
                    (Z.to_nat num_time_steps))).
  - unfold run_inv. simpl. split; [done|]. split.
    { eapply Forall_impl; [exact Hok|]. intros c. by apply cell_ok_mono. }
    do 2 (split; [done|]). split; [by rewrite length_replicate|]. split; [|lia].
    apply Forall_replicate. split; [by rewrite length_replicate|].
    apply Forall_replicate. lia.
  - intros t r Ht Hr. apply simulate_step_inv; [lia|done|lia|done..].
Qed.
End SingleLaneRun.

(** ** The first model: the step conserves the vehicles *)

Section FirstModelConservation.
Context {G : Type}.

Lemma first_update_body_eval (num_cells max_vel : Z) k (s : SingleLane.World G) cell gap :
  SingleLane.lane s !! k = Some cell → state cell = 1 → cell_ok max_vel cell →
  SingleLane.distance (SingleLane.lane s) (Z.of_nat k) num_cells = Ok (Some gap) → 0 ≤ gap →
  ∃ c', FirstModel.update_body num_cells max_vel k s
          = Normal (SingleLane.mkWorld (<[k := c']> (SingleLane.lane s))
                                       (SingleLane.stdout s) (SingleLane.gen s)) ∧
        state c' = 1 ∧ 0 ≤ velocity c' ≤ gap ∧ velocity c' ≤ max_vel.
Proof.
  intros Hcell Hocc Hok Hdist Hgap. unfold FirstModel.update_body.
  rewrite Hcell, decide_True, Hdist by done. simpl.
  pose proof (cell_ok_speed _ _ Hok Hocc) as Hv.
  eexists. unfold SingleLane.with_lane. simpl.
  rewrite list_insert_insert_eq. split; [reflexivity|].
  unfold accelerate. case_decide; simpl in *; lia.
Qed.

Lemma first_update_conserves (num_cells max_vel : Z) (p : Q) (w : SingleLane.World G) :
  num_cells = len (SingleLane.lane w) →
  Forall (cell_ok max_vel) (SingleLane.lane w) →
  count_cars (SingleLane.lane w) ≠ 1%nat →
  ∃ w', FirstModel.update num_cells max_vel p w = Normal w' ∧
        count_cars (SingleLane.lane w') = count_cars (SingleLane.lane w) ∧
        SingleLane.stdout w' = SingleLane.stdout w ∧
        length (SingleLane.lane w') = length (SingleLane.lane w) ∧
        Forall (cell_ok max_vel) (SingleLane.lane w') ∧
        SingleLane.gen w' = SingleLane.gen w.
Proof.
  intros Hn Hok Hcount. unfold FirstModel.update.
  assert (∀ k (s : SingleLane.World G) cell,
            SingleLane.lane s !! k = Some cell → state cell ≠ 1 →
            FirstModel.update_body num_cells max_vel k s = Normal s) as Hskip.
  { intros k s cell Hcell Hfree. unfold FirstModel.update_body.
    by rewrite Hcell, decide_False. }
  destruct (update_loop_safe (FirstModel.update_body num_cells max_vel) (λ g, g)
              num_cells max_vel w
              Hskip (first_update_body_eval num_cells max_vel) Hn Hok Hcount)
    as (w1 & -> & Hout & Hgen & Hst & Hok1 & Hsafe).
  simpl.
  assert (length (SingleLane.lane w1) = length (SingleLane.lane w)) as Hlen.
  { by rewrite <- (length_fmap state (SingleLane.lane w1)), Hst, length_fmap. }
  destruct (single_move_collision_free w1 num_cells)
    as (w' & Hmove & Hout' & Hgen' & Hcnt & Hlen' & _).
  { unfold len in *. rewrite Hlen. done. }
  { by apply safe_lane_collision_free. }
  exists w'. split; [done|]. split.
  { rewrite Hcnt. by apply count_cars_states. }
  split; [congruence|]. split; [congruence|]. split.
  - pose proof (single_move_bounds max_vel num_cells w1 Hok1) as Hb.
    by rewrite Hmove in Hb.
  - rewrite Hgen', Hgen. clear.
    induction (count_cars (SingleLane.lane w)) as [|m IH]; [done|].
    by rewrite Nat.iter_succ.
Qed.
End FirstModelConservation.

(** ** Two-lane model: initialisation on a lawful random source *)

Section TwoLaneInit.
Context `{RandomSource G} (Hlaw : lawful G).
Context (num_cars_of : Q → Z → Z).

Lemma place_cars_lane (limit : Z) (indices : list Z) (l : list Cell) (g : G) :
  0 ≤ limit → NoDup indices →
  Forall (λ i, 0 ≤ i < len l ∧ ¬ occupied_at l (Z.to_nat i)) indices →
  Forall (cell_ok limit) l →
  ∃ s', for_each (TwoLane.place_car limit) indices (l, g) = Normal s' ∧
        length s'.1 = length l ∧ Forall (cell_ok limit) s'.1 ∧
        count_cars s'.1 = (count_cars l + length indices)%nat.
Proof.
  intros Hlimit. revert l g.
  induction indices as [|i indices IH]; intros l g Hnd Hin Hok; simpl.
  { exists (l, g). repeat split; try done; simpl; lia. }
  apply NoDup_cons in Hnd as [Hi Hnd]. apply Forall_cons in Hin as [[Hrange Hfree] Hin].
  unfold TwoLane.place_car at 1. simpl. rewrite py_pos_ok by done. simpl.
  destruct Hlaw as [Hrandint _].
  destruct (Hrandint 0 limit g Hlimit) as (v & Hv & Hvr).
  destruct (randint 0 limit g) as [rv g'] eqn:Hr. simpl in Hv. subst rv. simpl.
  destruct (lookup_lt_is_Some_2 l (Z.to_nat i) ltac:(unfold len in *; lia)) as [c Hc].
  set (l1 := alter (set_velocity v) (Z.to_nat i) (alter (set_state 1) (Z.to_nat i) l)).
  destruct (IH l1 g') as (s' & Hrun & Hlen & Hok' & Hcount).
  - done.
  - apply Forall_forall. intros j Hj.
    pose proof (proj1 (Forall_forall _ _) Hin j Hj) as Hj'. simpl in Hj'.
    destruct Hj' as [Hjr Hjf].
    unfold l1, len. rewrite !length_alter. split; [done|].
    intros (c' & Hc' & Hs'). apply Hjf. exists c'. split; [|done].
    assert (Z.to_nat i ≠ Z.to_nat j) as Hne.
    { intros Heq. apply Hi. replace i with j by lia. done. }
    by rewrite !list_lookup_alter_ne in Hc' by done.
  - unfold l1. rewrite alter_twice. apply Forall_alter_to; [done|].
    intros x. by apply cell_ok_arrive.
  - exists s'. split; [done|]. unfold l1 in *.
    rewrite !length_alter in Hlen. repeat split; try done.
    rewrite Hcount. rewrite alter_set_cell.
    pose proof (count_cars_alter (λ _, mkCell 1 v) (Z.to_nat i) l c Hc) as Hadd.
    cbv beta in Hadd. rewrite (car_occupied (mkCell 1 v)), (car_free c) in Hadd; [lia| |done].
    intros Hs. apply Hfree. by exists c.
Qed.

Lemma initilize_lane_spec (num_cells : Z) (occupancy_percents : list Q)
    (max_vels : list Z) (i : nat) (w : TwoLane.World G) occupancy_percent limit :
  occupancy_percents !! i = Some occupancy_percent → max_vels !! i = Some limit →
  0 ≤ limit → 0 ≤ num_cars_of occupancy_percent num_cells ≤ num_cells →
  ∃ lane g',
    TwoLane.initilize_lane num_cars_of num_cells occupancy_percents max_vels i w
      = Normal (TwoLane.mkWorld (TwoLane.road w ++ [lane]) g') ∧
    length lane = Z.to_nat num_cells ∧ Forall (cell_ok limit) lane ∧
    count_cars lane = Z.to_nat (num_cars_of occupancy_percent num_cells).
Proof.
  intros Hocc Hlimit Hl Hk. unfold TwoLane.initilize_lane.
  rewrite (py_get_nat _ _ _ Hocc), (py_get_nat _ _ _ Hlimit). simpl.
  destruct Hlaw as [_ Hsample].
  destruct (Hsample num_cells _ (TwoLane.gen w) Hk) as (l & Hsl & Hnd & Hlen & Hrange).
  destruct (sample num_cells _ (TwoLane.gen w)) as [rl g'] eqn:Hs.
  simpl in Hsl. subst rl. simpl.
  destruct (place_cars_lane limit l (replicate (Z.to_nat num_cells) empty_cell) g')
    as (s' & -> & Hlen' & Hok & Hcount); [done|done| | |].
  - apply Forall_forall. intros j Hj.
    pose proof (proj1 (Forall_forall _ _) Hrange j Hj) as Hjr. simpl in Hjr.
    unfold len. rewrite length_replicate. split; [lia|].
    intros (c & Hc & Hoc). apply lookup_replicate in Hc as [-> _]. done.
  - apply Forall_replicate. apply cell_ok_empty.
  - exists s'.1, s'.2. split; [done|]. rewrite length_replicate in Hlen'.
    rewrite count_cars_replicate_empty in Hcount. repeat split; try done. lia.
Qed.

Lemma two_lane_initilize_spec (num_cells : Z) (occupancy_percents : list Q)
    (max_vels : list Z) (g : G) o0 o1 :
  length max_vels = 2%nat → Forall (λ m, 0 ≤ m) max_vels →
  occupancy_percents !! 0%nat = Some o0 → occupancy_percents !! 1%nat = Some o1 →
  0 ≤ num_cars_of o0 num_cells ≤ num_cells →
  0 ≤ num_cars_of o1 num_cells ≤ num_cells →
  ∃ w, TwoLane.initilize num_cars_of num_cells occupancy_percents max_vels g = Normal w ∧
       phase_inv (Z.to_nat num_cells) max_vels w ∧
       count_cars <$> TwoLane.road w =
         [Z.to_nat (num_cars_of o0 num_cells); Z.to_nat (num_cars_of o1 num_cells)].
Proof.
  intros Hmax Hpos Ho0 Ho1 Hk0 Hk1.
  assert (∃ m0 m1, max_vels = [m0; m1]) as (m0 & m1 & ->).
  { destruct max_vels as [|m0 [|m1 [|]]]; try done. by exists m0, m1. }
  apply Forall_cons in Hpos as [Hm0 Hpos]. apply Forall_cons in Hpos as [Hm1 _].
  unfold TwoLane.initilize. simpl.
  destruct (initilize_lane_spec num_cells occupancy_percents [m0; m1] 0
              (TwoLane.mkWorld [] g) o0 m0 Ho0 eq_refl Hm0 Hk0)
    as (l0 & g0 & -> & Hl0 & Hok0 & Hc0). simpl.
  destruct (initilize_lane_spec num_cells occupancy_percents [m0; m1] 1
              (TwoLane.mkWorld [l0] g0) o1 m1 Ho1 eq_refl Hm1 Hk1)
    as (l1 & g1 & -> & Hl1 & Hok1 & Hc1). simpl.
  eexists. split; [done|]. simpl. split; [split|by rewrite Hc0, Hc1].
  - by exists l0, l1.
  - by apply road_ok_two.
Qed.
End TwoLaneInit.

(** ** Two-lane model: the simulation runs to completion *)

Lemma alter_record (lane : list Cell) (k : nat) (m : list (list Z)) :
  Forall (λ row, length row = length lane) m →
  alter (λ row, foldl (λ (row : list Z) (ic : nat * Cell), <[ic.1 := velocity ic.2]> row)
                      row (enumerate lane)) k m
  = alter (λ _, velocity <$> lane) k m.
Proof.
  intros Hm. apply list_alter_ext; [|done]. intros row Hrow.
  apply record_velocities. by eapply (Forall_lookup_1 _ _ _ _ Hm).
Qed.

Section TwoLaneRun.
Context `{RandomSource G} (Hlaw : lawful G).
Context (num_cars_of : Q → Z → Z).

Lemma record_cells (time i : nat) (xs : list (nat * Cell)) (r : TwoLane.Run G) :
  let write := λ row : list Z,
    foldl (λ (row : list Z) (ic : nat * Cell), <[ic.1 := velocity ic.2]> row) row xs in
  for_each (TwoLane.record_cell time i) xs r =
    Normal (TwoLane.mkRun (TwoLane.world r)
              (alter write (3 * time + i)%nat (TwoLane.velocities_both r))
              (if decide (i = 0%nat) then alter write time (TwoLane.velocities_left r)
               else TwoLane.velocities_left r)
              (if decide (i = 0%nat) then TwoLane.velocities_right r
               else alter write time (TwoLane.velocities_right r))).
Proof.
  revert r. induction xs as [|[index cell] xs IH]; intros r; simpl.
  - rewrite !list_alter_id by done. destruct r. simpl. by case_decide.
  - rewrite IH. simpl. f_equal. case_decide; simpl; rewrite !alter_twice; done.
Qed.

Lemma two_lane_simulate_step_inv (n : nat) (max_vels : list Z) (p : Q) (T t : nat)
    (r : TwoLane.Run G) :
  length max_vels = 2%nat → (t ≤ T)%nat →
  two_lane_run_inv n max_vels T t r →
  ∃ r', TwoLane.simulate_step (Z.of_nat n) max_vels p t r = Normal r' ∧
        two_lane_run_inv n max_vels T (S t) r'.
Proof.
  intros Hmax Ht (Hinv & Hb & Hl & Hr & Fb & Fl & Fr & Hint & Hsp & _).
  unfold TwoLane.simulate_step.
  destruct (update_eval n max_vels Hmax p (TwoLane.world r) Hinv)
    as (w1 & w3 & w' & _ & _ & _ & _ & _ & Hinv' & ->).
  cbn [TwoLane.lift_world and_then for_each].
  pose proof Hinv' as [(l0 & l1 & Hroad & H0 & H1) Hok].
  cbn [TwoLane.world]. rewrite Hroad.
  change (py_get [l0; l1] (Z.of_nat 0)) with (Ok l0). cbn [eval].
  rewrite record_cells. cbn [and_then TwoLane.world]. rewrite Hroad.
  change (py_get [l0; l1] (Z.of_nat 1)) with (Ok l1). cbn [eval].
  rewrite record_cells. cbn [and_then TwoLane.world TwoLane.velocities_both
    TwoLane.velocities_left TwoLane.velocities_right].
  rewrite !(decide_True (P := 0%nat = 0%nat)) by done.
  rewrite !(decide_False (P := 1%nat = 0%nat)) by done.
  eexists. split; [reflexivity|]. rewrite !Nat.add_0_r.
  rewrite !(alter_record l0) by by rewrite H0.
  rewrite !(alter_record l1) by
    (rewrite H1; first [done|apply Forall_alter; [done|];
                        intros x _ _; rewrite length_fmap; congruence]).
  unfold two_lane_run_inv.
  cbn [TwoLane.world TwoLane.velocities_both TwoLane.velocities_left TwoLane.velocities_right].
  split; [done|]. rewrite !length_alter. do 3 (split; [done|]).
  split; [|split; [|split; [|split; [|split]]]].
  - do 2 (apply Forall_alter; [|intros x _ _; cbv beta; by rewrite length_fmap]). done.
  - apply Forall_alter; [done|intros x _ _; cbv beta; by rewrite length_fmap].
  - apply Forall_alter; [done|intros x _ _; cbv beta; by rewrite length_fmap].
  - intros t' Ht'. rewrite !list_lookup_alter.
    destruct (lookup_lt_is_Some_2 (TwoLane.velocities_both r) (3 * t)%nat ltac:(lia))
      as [b0 Hb0].
    destruct (lookup_lt_is_Some_2 (TwoLane.velocities_both r) (3 * t + 1)%nat ltac:(lia))
      as [b1 Hb1].
    destruct (lookup_lt_is_Some_2 (TwoLane.velocities_left r) t ltac:(lia)) as [a0 Ha0].
    destruct (lookup_lt_is_Some_2 (TwoLane.velocities_right r) t ltac:(lia)) as [a1 Ha1].
    destruct (decide (t' = t)) as [->|Hne].
    + rewrite (decide_False (P := (3 * t + 1 = 3 * t)%nat)) by lia.
      rewrite (decide_False (P := (3 * t = 3 * t + 1)%nat)) by lia.
      rewrite !decide_True by lia.
      by rewrite Hb0, Hb1, Ha0, Ha1.
    + rewrite !decide_False by lia. apply Hint. lia.
  - intros t' Ht'. rewrite !list_lookup_alter, !decide_False by lia. by apply Hsp.
  - intros _. replace (S t - 1)%nat with t by lia. rewrite !list_lookup_alter_eq.
    destruct (lookup_lt_is_Some_2 (TwoLane.velocities_left r) t ltac:(lia)) as [a0 Ha0].
    destruct (lookup_lt_is_Some_2 (TwoLane.velocities_right r) t ltac:(lia)) as [a1 Ha1].
    by rewrite Ha0, Ha1, Hroad.
Qed.

Lemma two_lane_simulate_completes (max_vels : list Z) (occupancy_percents : list Q)
    (num_cells num_time_steps : Z) (p : Q) (g : G) o0 o1 :
  length max_vels = 2%nat → Forall (λ m, 0 ≤ m) max_vels →
  occupancy_percents !! 0%nat = Some o0 → occupancy_percents !! 1%nat = Some o1 →
  0 ≤ num_cars_of o0 num_cells ≤ num_cells →
  0 ≤ num_cars_of o1 num_cells ≤ num_cells →
  0 ≤ num_time_steps →
  ∃ r, TwoLane.simulate num_cars_of max_vels occupancy_percents num_cells num_time_steps p g
         = Normal r ∧
       two_lane_run_inv (Z.to_nat num_cells) max_vels (Z.to_nat num_time_steps)
                        (S (Z.to_nat num_time_steps)) r.
Proof.
  intros Hmax Hpos Ho0 Ho1 Hk0 Hk1 HT. unfold TwoLane.simulate.
  destruct (two_lane_initilize_spec Hlaw num_cars_of num_cells occupancy_percents max_vels g
              o0 o1 Hmax Hpos Ho0 Ho1 Hk0 Hk1) as (w0 & -> & Hinv & _).
  cbn [TwoLane.lift_world and_then]. rewrite decide_False by lia.
  replace (Z.to_nat (num_time_steps + 1)) with (S (Z.to_nat num_time_steps)) by lia.
  apply (for_each_seq_normal
           (two_lane_run_inv (Z.to_nat num_cells) max_vels (Z.to_nat num_time_steps))).
  - unfold two_lane_run_inv.
    cbn [TwoLane.world TwoLane.velocities_both TwoLane.velocities_left
         TwoLane.velocities_right].
    split; [done|]. rewrite !length_replicate.
    split; [lia|]. split; [lia|]. split; [lia|].
    do 3 (split; [apply Forall_replicate; by rewrite length_replicate|]).
    split; [intros t' Ht'; lia|]. split; [|lia].
    intros t' Ht'. apply lookup_replicate_2. lia.
  - intros t r Ht Hr.
    pose proof (two_lane_simulate_step_inv (Z.to_nat num_cells) max_vels p
                  (Z.to_nat num_time_steps) t r Hmax ltac:(lia) Hr) as Hstep.
    rewrite Z2Nat.id in Hstep by lia. exact Hstep.
Qed.
End TwoLaneRun.

(** ** Single-lane model: the simulation of a lone car *)

Section LoneVehicle.
Context `{RandomSource G} (Hlaw : lawful G).
Context (num_cars_of : Q → Z → Z).
Import SingleLane.

(** The step on a lane that holds exactly one vehicle: the comparison in
    [decelerate] raises, the vehicle having been accelerated in place. *)
Lemma lone_vehicle_update_raises (w : World G) (num_cells max_vel : Z) (p : Q) :
  num_cells = len (lane w) → count_cars (lane w) = 1%nat →
  ∃ w', update num_cells max_vel p w = Raised TypeError w' ∧
        state <$> lane w' = state <$> lane w ∧
        stdout w' = stdout w ∧ gen w' = gen w.
Proof.
  intros -> Hone.
  destruct (count_cars_one _ Hone) as (k & c & Hk & Hc & Hothers).
  pose proof (distance_alone _ _ _ Hk Hothers) as Hdist.
  exists (with_lane (λ l, <[k := accelerate c max_vel]> l) w). split.
  - unfold update. apply lookup_lt_Some in Hk as Hlt.
    replace (length (lane w)) with (k + S (length (lane w) - S k))%nat by lia.
    rewrite seq_app, for_each_app, for_each_skip.
    + simpl. unfold update_body at 1. rewrite Hk, decide_True by done.
      rewrite Hdist. done.
    + intros j Hj%elem_of_seq.
      destruct (lookup_lt_is_Some_2 (lane w) j ltac:(lia)) as [c' Hc'].
      eapply update_body_skip; [done|]. apply (Hothers j); [lia|done].
  - simpl. split; [|done]. by apply (states_insert _ _ c).
Qed.

Lemma single_simulate_lone_car (max_vel : Z) (occupancy_percent : Q)
    (num_cells num_time_steps : Z) (p : Q) (impulse : Z) (g : G) :
  num_cars_of occupancy_percent num_cells = 1 → 1 ≤ num_cells → 0 < num_time_steps →
  ∃ r, simulate num_cars_of max_vel occupancy_percent num_cells num_time_steps p impulse g
         = Raised TypeError r ∧
       velocities r = replicate (Z.to_nat num_time_steps)
                                (replicate (Z.to_nat num_cells) 0) ∧
       length (lane (world r)) = Z.to_nat num_cells ∧
       count_cars (lane (world r)) = 1%nat.
Proof.
  intros Hk Hn HT. unfold simulate.
  destruct (single_initilize_spec Hlaw num_cars_of num_cells occupancy_percent g)
    as (w0 & -> & Hlen & Hout & Hok & Hcount); [lia|].
  rewrite Hk in Hcount. cbn [lift_world and_then]. rewrite decide_False by lia.
  destruct (lone_vehicle_update_raises w0 num_cells max_vel p)
    as (w' & Hraise & Hst & _); [unfold len; lia|done|].
  destruct (Z.to_nat num_time_steps) as [|m] eqn:HT'; [lia|].
  cbn [seq for_each]. unfold simulate_step at 1. cbn [world]. rewrite Hraise.
  eexists. split; [reflexivity|]. cbn [velocities world]. split; [done|]. split.
  - rewrite <- (length_fmap state), Hst, length_fmap. done.
  - by rewrite (count_cars_states _ _ Hst).
Qed.
End LoneVehicle.

(** ** The move phase: what is reported and what is overwritten *)

Lemma moved_lookup (l : list Cell) (k t : nat) (v : Z) (j : nat) :
  (k < length l)%nat → (t < length l)%nat →
  alter (λ _, mkCell 1 v) t (alter (λ _, mkCell 0 (-1)) k l) !! j =
    if decide (j = t) then Some (mkCell 1 v)
    else if decide (j = k) then Some (mkCell 0 (-1)) else l !! j.
Proof.
  intros Hk Ht. rewrite !list_lookup_alter.
  destruct (lookup_lt_is_Some_2 l k Hk) as [ck Hck].
  destruct (lookup_lt_is_Some_2 l t Ht) as [ct Hct].
  repeat case_decide; simplify_eq; rewrite ?Hck, ?Hct; done.
Qed.

Lemma moved_occupied (l : list Cell) (k t : nat) (v : Z) (j : nat) :
  (k < length l)%nat → (t < length l)%nat →
  occupied_at (alter (λ _, mkCell 1 v) t (alter (λ _, mkCell 0 (-1)) k l)) j
  ↔ j = t ∨ (j ≠ k ∧ occupied_at l j).
Proof.
  intros Hk Ht. unfold occupied_at. rewrite (moved_lookup l k t v j Hk Ht).
  destruct (decide (j = t)) as [->|Hjt].
  { split; [by left|]. intros _. by eexists. }
  destruct (decide (j = k)) as [->|Hjk].
  { split; [by intros (c & [= <-] & Hs)|]. by intros [?|[? _]]. }
  split; [intros Hocc; by right|]. by intros [?|[_ ?]].
Qed.

Lemma target_of_mod (copy : list Cell) (k : nat) (ck : Cell) :
  copy !! k = Some ck →
  Z.of_nat (target_of copy k) = (Z.of_nat k + velocity ck) `mod` len copy.
Proof.
  intros Hk. unfold target_of, cyc, len. rewrite Hk.
  apply lookup_lt_Some in Hk.
  pose proof (Z.mod_pos_bound (Z.of_nat k + velocity ck) (Z.of_nat (length copy))
                ltac:(lia)). lia.
Qed.

Section Reports.
Context (copy : list Cell).

Lemma report_inv_start : report_inv copy (len copy) 0 copy [].
Proof.
  split; [done|]. split; [done|]. split; [by intros m Hm%elem_of_nil|].
  split; [intros i Hi; lia|]. split; [intros i1 i2 _ Hi; lia|].
  split; [done|]. split; [intros i Hi; lia|].
  split; [|intros i c Hi; lia].
  intros j c' Hj Hs. right. split; [lia|done].
Qed.

Lemma report_inv_skip k ck l msgs :
  report_inv copy (len copy) k l msgs → copy !! k = Some ck → state ck ≠ 1 →
  report_inv copy (len copy) (S k) l msgs.
Proof.
  intros (Hlen & Hrep & Hconf & Hd & He & Hb & Hc & Hf & Hlast) Hk Hfree.
  assert (¬ occupied_at copy k) as Hnk.
  { intros (c & Hc' & Hs). congruence. }
  split; [done|]. split; [done|]. split; [done|]. split; [|split; [|split; [|split; [|split]]]].
  - intros i Hi Hoi. destruct (decide (i = k)) as [->|]; [done|]. apply Hd; [lia|done].
  - intros i1 i2 H12 Hi2 Ho1 Ho2. destruct (decide (i2 = k)) as [->|]; [done|].
    apply He; [lia|lia|done..].
  - intros j Hj. apply Hb. lia.
  - intros i Hi Hoi. destruct (decide (i = k)) as [->|]; [done|].
    destruct (Hc i ltac:(lia) Hoi) as [?|[? ?]]; [by left|right]. split; [done|lia].
  - intros j c' Hj Hs. destruct (Hf j c' Hj Hs) as [(i & c & Hi & Hrest)|[Hkj Hcj]].
    + left. exists i, c. split; [lia|done].
    + right. split; [|done]. destruct (decide (j = k)) as [->|]; [|lia].
      exfalso. apply Hnk. by exists c'.
  - intros i c Hi Hci Hs Hnone. destruct (decide (i = k)) as [->|]; [congruence|].
    apply Hlast; [lia|done..|]. intros j Hj. apply Hnone. lia.
Qed.

Lemma report_inv_step k ck l msgs target :
  report_inv copy (len copy) k l msgs → copy !! k = Some ck → state ck = 1 →
  l !! target_of copy k = Some target →
  report_inv copy (len copy) (S k)
    (alter (λ _, mkCell 1 (velocity ck)) (target_of copy k)
       (alter (λ _, mkCell 0 (-1)) k l))
    (if decide (state target = 1 ∧ Z.of_nat k ≠ Z.of_nat (target_of copy k))
     then msgs ++ [Z.of_nat (target_of copy k)] else msgs).
Proof.
  intros (Hlen & Hrep & Hconf & Hd & He & Hb & Hc & Hf & Hlast) Hk Hocc Htarget.
  assert (occupied_at copy k) as Hok by by exists ck.
  apply lookup_lt_Some in Hk as Hlt.
  pose proof (target_of_lt copy k Hlt) as Htlt.
  set (t := target_of copy k) in *.
  set (msgs' := if decide (state target = 1 ∧ Z.of_nat k ≠ Z.of_nat t)
                then msgs ++ [Z.of_nat t] else msgs).
  assert (∀ m, m ∈ msgs → m ∈ msgs') as Hsub.
  { intros m Hm. unfold msgs'. case_decide; [|done]. apply elem_of_app. by left. }
  assert (occupied_at l t → k ≠ t → Z.of_nat t ∈ msgs') as Hprint.
  { intros (c & Hc' & Hs) Hne. unfold msgs'.
    assert (c = target) as -> by congruence.
    rewrite decide_True by (split; [done|lia]). apply elem_of_app. right. by left. }
  assert (∀ j, occupied_at (alter (λ _, mkCell 1 (velocity ck)) t
                              (alter (λ _, mkCell 0 (-1)) k l)) j
               ↔ j = t ∨ (j ≠ k ∧ occupied_at l j)) as Hocc'.
  { intros j. apply moved_occupied; lia. }
  split; [by rewrite !length_alter|].
  split; [|split; [|split; [|split; [|split; [|split; [|split]]]]]].
  - unfold msgs'. case_decide as Hp; [|done]. apply Forall_app. split; [done|].
    apply Forall_singleton. exists k, ck. do 2 (split; [done|]).
    unfold t. rewrite (target_of_mod copy k ck Hk). split; [done|].
    rewrite <- (target_of_mod copy k ck Hk). by destruct Hp.
  - intros m Hm. unfold msgs' in Hm. case_decide as Hp; [|by apply Hconf].
    apply elem_of_app in Hm as [Hm|Hm%list_elem_of_singleton]; [by apply Hconf|].
    subst m. exists t. split; [done|]. destruct Hp as [Hst Hne].
    destruct (Hf t target Htarget Hst) as [(i & c & Hi & Hci & Hsi & Hti & _)|[Hkt Hct]].
    + left. exists i, k. split; [lia|]. split; [by exists c|]. done.
    + right. exists k. split; [done|]. split; [done|]. split; [by exists target|lia].
  - intros i Hi Hoi Hot Hit. destruct (decide (i = k)) as [->|Hne].
    + change (target_of copy k) with t in Hit, Hot |- *.
      apply Hprint; [|lia]. apply Hb; [lia|done].
    + apply Hsub. apply (Hd i); [lia|done..].
  - intros i1 i2 H12 Hi2 Ho1 Ho2 Ht. destruct (decide (i2 = k)) as [->|Hne].
    + change (target_of copy k) with t in Ht.
      assert (occupied_at copy t → (i1 < t)%nat → Z.of_nat t ∈ msgs') as Hsrc'.
      { intros Hot Hlt'. apply Hsub. rewrite <- Ht.
        apply (Hd i1); [done|done|by rewrite Ht|by rewrite Ht]. }
      rewrite Ht. destruct (Hc i1 H12 Ho1) as [Hlive|[Hsrc Hbetween]].
      * rewrite Ht in Hlive. destruct (decide (k = t)) as [Hkt|Hkt].
        -- apply Hsrc'; [by rewrite <- Hkt|lia].
        -- by apply Hprint.
      * rewrite Ht in Hsrc, Hbetween. apply Hsrc'; [done|lia].
    + apply Hsub. apply (He i1 i2); [done|lia|done..].
  - intros j Hj Hoj. apply Hocc'. destruct (decide (j = t)); [by left|right].
    split; [lia|]. apply Hb; [lia|done].
  - intros i Hi Hoi. destruct (decide (i = k)) as [->|Hne].
    + left. apply Hocc'. by left.
    + destruct (Hc i ltac:(lia) Hoi) as [Hlive|[Hsrc Hbetween]].
      * destruct (decide (target_of copy i = t)) as [Heq|Hnt]; [left; apply Hocc'; by left|].
        destruct (decide (target_of copy i = k)) as [Heq|Hnk].
        -- right. rewrite Heq. split; [done|lia].
        -- left. apply Hocc'. right. done.
      * right. split; [done|lia].
  - intros j c' Hj Hs. rewrite moved_lookup in Hj by lia.
    destruct (decide (j = t)) as [->|Hjt].
    { injection Hj as <-. left. exists k, ck. split; [lia|done]. }
    destruct (decide (j = k)) as [->|Hjk]; [by injection Hj as <-|].
    destruct (Hf j c' Hj Hs) as [(i & c & Hi & Hrest)|[Hkj Hcj]].
    + left. exists i, c. split; [lia|done].
    + right. split; [lia|done].
  - intros i c Hi Hci Hs Hnone. rewrite moved_lookup by lia.
    destruct (decide (i = k)) as [->|Hne].
    + assert (c = ck) as -> by congruence. by rewrite decide_True.
    + exfalso. apply (Hnone k); [lia|done].
Qed.
End Reports.

Section MoveReports.
Context {G : Type}.

Lemma single_move_reports (w : SingleLane.World G) (num_cells : Z) :
  num_cells = len (SingleLane.lane w) →
  ∃ (w' : SingleLane.World G) (msgs : list Z),
    SingleLane.move num_cells w = Normal w' ∧
    SingleLane.gen w' = SingleLane.gen w ∧
    SingleLane.stdout w' = SingleLane.stdout w ++ msgs ∧
    report_inv (SingleLane.lane w) num_cells (length (SingleLane.lane w))
               (SingleLane.lane w') msgs.
Proof.
  intros ->. unfold SingleLane.move.
  destruct (for_each_enumerate_normal
    (λ k s, SingleLane.gen s = SingleLane.gen w ∧
            ∃ msgs, SingleLane.stdout s = SingleLane.stdout w ++ msgs ∧
                    report_inv (SingleLane.lane w) (len (SingleLane.lane w)) k
                               (SingleLane.lane s) msgs)
    (SingleLane.move_body (len (SingleLane.lane w))) (SingleLane.lane w) w)
    as (w' & Hrun & Hgen & msgs & Hout & Hinv).
  { split; [done|]. exists []. split; [by rewrite app_nil_r|apply report_inv_start]. }
  { intros k ck s Hk (Hgen & msgs & Hout & Hinv). unfold SingleLane.move_body.
    case_decide as Hocc; last first.
    { exists s. split; [done|]. split; [done|]. exists msgs. split; [done|].
      by eapply report_inv_skip. }
    apply lookup_lt_Some in Hk as Hlt. pose proof Hinv as (Hlen & _).
    rewrite py_mod_ok by (unfold len; lia). simpl.
    rewrite <- (target_of_mod _ _ _ Hk).
    pose proof (target_of_lt _ k Hlt) as Htlt.
    rewrite py_pos_ok by (unfold len; lia). simpl.
    destruct (py_get_total (SingleLane.lane s) (Z.of_nat (target_of (SingleLane.lane w) k))
                ltac:(unfold len; lia)) as (target & Htarget & ->).
    simpl. rewrite Nat2Z.id in *.
    eexists. split; [reflexivity|].
    pose proof (report_inv_step _ k ck _ msgs target Hinv Hk Hocc Htarget) as Hstep.
    case_decide; simpl;
      rewrite (alter_set_cell 0 (-1)), (alter_set_cell 1 (velocity ck)).
    - split; [done|]. eexists. split; [|exact Hstep]. by rewrite Hout, app_assoc.
    - split; [done|]. by exists msgs. }
  by exists w', msgs.
Qed.

Lemma two_lane_move_overwrites (cells : list Cell) (num_cells : Z) :
  num_cells = len cells →
  ∃ cells', TwoLane.move num_cells cells = Normal cells' ∧
            length cells' = length cells ∧
            (∀ j c', cells' !! j = Some c' → state c' = 1 →
                     arrival cells (length cells) j c' ∨ cells !! j = Some c') ∧
            (∀ i c, cells !! i = Some c → state c = 1 →
                    (∀ j, (i < j)%nat → ¬ occupied_at cells j) →
                    cells' !! target_of cells i = Some (mkCell 1 (velocity c))).
Proof.
  intros ->. unfold TwoLane.move.
  destruct (for_each_enumerate_normal
    (λ k (s : list Cell * bool),
       length s.1 = length cells ∧
       (∀ j c', s.1 !! j = Some c' → state c' = 1 →
                arrival cells k j c' ∨ cells !! j = Some c') ∧
       (∀ i c, (i < k)%nat → cells !! i = Some c → state c = 1 →
               (∀ j, (i < j < k)%nat → ¬ occupied_at cells j) →
               s.1 !! target_of cells i = Some (mkCell 1 (velocity c))))
    (TwoLane.move_body cells (len cells)) cells (cells, false))
    as (s' & -> & Hlen & Hf & Hlast).
  { split; [done|]. split; [intros j c' Hj _; by right|]. intros i c Hi. lia. }
  { intros k ck [l flag] Hk (Hlen & Hf & Hlast). simpl in Hlen, Hf, Hlast.
    unfold TwoLane.move_body. case_decide as Hocc; last first.
    { exists (l, flag). split; [done|]. split; [done|]. split; simpl.
      - intros j c' Hj Hs. destruct (Hf j c' Hj Hs) as [(i & c & Hi & Hrest)|?]; [left|by right].
        exists i, c. split; [lia|done].
      - intros i c Hi Hci Hs Hnone. destruct (decide (i = k)) as [->|]; [congruence|].
        apply Hlast; [lia|done..|]. intros j Hj. apply Hnone. lia. }
    apply lookup_lt_Some in Hk as Hlt.
    rewrite py_mod_ok by (unfold len; lia). simpl.
    rewrite <- (target_of_mod _ _ _ Hk).
    pose proof (target_of_lt _ k Hlt) as Htlt.
    set (t := target_of cells k) in *.
    set (l1 := if flag then l
               else alter (set_velocity (-1)) k (alter (set_state 0) k l)).
    assert (length l1 = length cells) as Hlen1.
    { unfold l1. destruct flag; by rewrite ?length_alter. }
    assert (∀ j c', l1 !! j = Some c' → state c' = 1 → l !! j = Some c') as Hl1.
    { intros j c' Hj Hs. unfold l1 in Hj. destruct flag; [done|].
      rewrite alter_set_cell, list_lookup_alter in Hj. case_decide; [|done].
      subst j. destruct (l !! k); simplify_eq/=. }
    rewrite py_pos_ok by (unfold len; lia). simpl.
    destruct (py_get_total cells (Z.of_nat t) ltac:(unfold len; lia)) as (target & _ & ->).
    simpl. rewrite Nat2Z.id. eexists. split; [reflexivity|]. simpl.
    rewrite alter_set_cell.
    split; [by rewrite length_alter|]. split.
    - intros j c' Hj Hs. rewrite list_lookup_alter in Hj. case_decide as Hjt.
      + subst j. destruct (l1 !! t); [|done]. injection Hj as <-.
        left. exists k, ck. split; [lia|done].
      + destruct (Hf j c' (Hl1 j c' Hj Hs) Hs) as [(i & c & Hi & Hrest)|?]; [left|by right].
        exists i, c. split; [lia|done].
    - intros i c Hi Hci Hs Hnone. destruct (decide (i = k)) as [->|Hne].
      + assert (c = ck) as -> by congruence. rewrite list_lookup_alter_eq.
        destruct (lookup_lt_is_Some_2 l1 t ltac:(lia)) as [x ->]. done.
      + exfalso. apply (Hnone k); [lia|by exists ck]. }
  exists s'.1. split; [done|]. split; [done|]. split; [done|].
  intros i c Hi Hs Hnone. apply lookup_lt_Some in Hi as Hlt.
  apply Hlast; [done..|]. intros j Hj. apply Hnone. lia.
Qed.
End MoveReports.

(** C2, amended: a destination collision is not fatal, and only the
    single-lane move reports it.  On every lane whose length is
    [num_cells] both moves end normally and keep the lane's length.  The
    single-lane move leaves the generator alone and prints cell numbers
    only (no timestep), each the target cell of a vehicle and different
    from that vehicle's own cell; it prints the cell [t] exactly when there
    is a conflict at [t]: two vehicles have the target cell [t], or a
    vehicle has the target cell [t] where a vehicle further along the lane
    still stands.  So every destination collision is printed.  Every
    occupied cell of its result holds a vehicle of the lane that arrived
    there, and the vehicle visited last is found in its target cell,
    whatever that cell held.  The two-lane move has nothing to print
    with: every occupied cell of its result holds a vehicle that arrived
    there or is as the lane had it, and the vehicle visited last is found
    in its target cell. *)
Theorem move_reports_without_failing `{RandomSource G}
    (w : SingleLane.World G) (cells : list Cell) (num_cells num_cells' : Z) :
  num_cells = len (SingleLane.lane w) →
  num_cells' = len cells →
  (∃ w' : SingleLane.World G, SingleLane.move num_cells w = Normal w' ∧
         length (SingleLane.lane w') = length (SingleLane.lane w) ∧
         SingleLane.gen w' = SingleLane.gen w ∧
         (∃ msgs : list Z, SingleLane.stdout w' = SingleLane.stdout w ++ msgs ∧
                 Forall (reported_target (SingleLane.lane w) num_cells) msgs ∧
                 ∀ t : nat, Z.of_nat t ∈ msgs ↔ conflict (SingleLane.lane w) t) ∧
         (∀ j c', SingleLane.lane w' !! j = Some c' → state c' = 1 →
                  arrival (SingleLane.lane w) (length (SingleLane.lane w)) j c') ∧
         (∀ i c, SingleLane.lane w !! i = Some c → state c = 1 →
                 (∀ j, (i < j)%nat → ¬ occupied_at (SingleLane.lane w) j) →
                 SingleLane.lane w' !! target_of (SingleLane.lane w) i
                   = Some (mkCell 1 (velocity c)))) ∧
  (∃ cells', TwoLane.move num_cells' cells = Normal cells' ∧
             length cells' = length cells ∧
             (∀ j c', cells' !! j = Some c' → state c' = 1 →
                      arrival cells (length cells) j c' ∨ cells !! j = Some c') ∧
             (∀ i c, cells !! i = Some c → state c = 1 →
                     (∀ j, (i < j)%nat → ¬ occupied_at cells j) →
                     cells' !! target_of cells i = Some (mkCell 1 (velocity c)))).
Proof.
  intros Hn Hn'. split; [|by apply two_lane_move_overwrites].
  destruct (single_move_reports w num_cells Hn)
    as (w' & msgs & Hmove & Hgen & Hout &
        Hlen & Hrep & Hconf & Hd & He & _ & _ & Hf & Hlast).
  exists w'. do 3 (split; [done|]). split; [|split].
  - exists msgs. do 2 (split; [done|]). intros t. split.
    + intros (t' & Ht & Hc)%Hconf. by replace t with t' by lia.
    + intros [(i1 & i2 & Hne & Ho1 & Ho2 & Ht1 & Ht2)|(i & Hoi & Hti & Hot & Hlt)].
      * pose proof (occupied_at_lt _ _ Ho1). pose proof (occupied_at_lt _ _ Ho2).
        destruct (decide (i1 < i2)%nat).
        -- rewrite <- Ht1. apply (He i1 i2); [done..|congruence].
        -- rewrite <- Ht2. apply (He i2 i1); [lia|done..|congruence].
      * rewrite <- Hti. pose proof (occupied_at_lt _ _ Hoi).
        apply (Hd i); [done|done|by rewrite Hti|by rewrite Hti].
  - intros j c' Hj Hs. destruct (Hf j c' Hj Hs) as [?|[Hge _]]; [done|].
    apply lookup_lt_Some in Hj. lia.
  - intros i c Hi Hs Hnone. apply lookup_lt_Some in Hi as Hlt.
    apply Hlast; [done..|]. intros j Hj. apply Hnone. lia.
Qed.

Lemma move_reports_without_failing_witness :
  let lane := [mkCell 1 2; mkCell 1 1; empty_cell] in
  (∃ w' : SingleLane.World (list Q),
     SingleLane.move 3 (SingleLane.mkWorld lane [] ([] : list Q)) = Normal w' ∧
     length (SingleLane.lane w') = length lane ∧
     SingleLane.gen w' = [] ∧
     (∃ msgs : list Z, SingleLane.stdout w' = [] ++ msgs ∧
             Forall (reported_target lane 3) msgs ∧
             ∀ t : nat, Z.of_nat t ∈ msgs ↔ conflict lane t) ∧
     (∀ j c', SingleLane.lane w' !! j = Some c' → state c' = 1 →
              arrival lane (length lane) j c') ∧
     (∀ i c, lane !! i = Some c → state c = 1 →
             (∀ j, (i < j)%nat → ¬ occupied_at lane j) →
             SingleLane.lane w' !! target_of lane i = Some (mkCell 1 (velocity c)))) ∧
  (∃ cells', TwoLane.move 3 lane = Normal cells' ∧
             length cells' = length lane ∧
             (∀ j c', cells' !! j = Some c' → state c' = 1 →
                      arrival lane (length lane) j c' ∨ lane !! j = Some c') ∧
             (∀ i c, lane !! i = Some c → state c = 1 →
                     (∀ j, (i < j)%nat → ¬ occupied_at lane j) →
                     cells' !! target_of lane i = Some (mkCell 1 (velocity c)))).
Proof.
  intros lane.
  apply (move_reports_without_failing (SingleLane.mkWorld lane [] ([] : list Q)) lane 3 3);
    reflexivity.
Defined.

(** * Further theorems *)

Lemma first_occupied_ext (f g : Z → Res Cell) idxs :
  (∀ i, f i = g i) → first_occupied f idxs = first_occupied g idxs.
Proof.
  intros Hfg. induction idxs as [|i idxs IH]; simpl; [done|]. by rewrite Hfg, IH.
Qed.

(** X1: the single-lane gap query from a cell of the lane.  Either it
    returns a gap [g]: the cell [g + 1] cells ahead (cyclically) is
    occupied and the [g] cells before it are free, with [g] at most the
    road length minus 2; or it returns [None], and then no other cell of
    the lane is occupied.  It raises nothing. *)
Theorem single_lane_distance_gap (cells : list Cell) (index : nat) :
  (index < length cells)%nat →
  (∃ g, SingleLane.distance cells (Z.of_nat index) (len cells) = Ok (Some g) ∧
        0 ≤ g < len cells - 1 ∧
        occupied_at cells (cyc (length cells) (Z.of_nat index + (g + 1))) ∧
        ∀ j, 1 ≤ j ≤ g → ¬ occupied_at cells (cyc (length cells) (Z.of_nat index + j)))
  ∨ (SingleLane.distance cells (Z.of_nat index) (len cells) = Ok None ∧
     ∀ i, i ≠ index → ¬ occupied_at cells i).
Proof. apply single_distance_spec. Qed.

(** X2: the two-lane gap query on a road of two lanes of [n] cells, with
    [n] at least 1, from any position and in any direction, in the
    vehicle's lane or in the other one: it raises nothing and returns a gap [d] between 0 and [n]
    such that either the cell at offset [d + 1] of the scanned lane is
    occupied and the cells at offsets [1..d] are free, or [d = n] and no
    cell at an offset of [1..n-1] is occupied. *)
Theorem two_lane_distance_gap (cells : TwoLane.Road) (n i t : nat)
    (curr target : list Cell) (index direction : Z) :
  two_lanes cells n → (0 < n)%nat →
  cells !! i = Some curr → cells !! t = Some target →
  ∃ d, TwoLane.distance cells curr index (Z.of_nat n)
         (Z.of_nat i) (Z.of_nat t) direction = Ok d ∧
       gap_of target n index direction d ∧ 0 ≤ d ≤ Z.of_nat n.
Proof.
  intros Hshape Hn Hi Ht.
  destruct (distance_gap cells n i t curr target index direction Hshape Hn Hi Ht)
    as (d & Hd & Hgap).
  exists d. split; [done|]. split; [done|]. by eapply gap_of_bounds.
Qed.

(** X3: in the vehicle's own lane and forwards, the two-lane gap query is
    the single-lane one with [None] replaced by the road length: same
    scan, same exceptions, on every input. *)
Theorem two_lane_distance_extends_single (cells : TwoLane.Road) (lane : list Cell)
    (index num_cells i : Z) :
  TwoLane.distance cells lane index num_cells i i 1 =
    (found ← SingleLane.distance lane index num_cells; Ok (default num_cells found)).
Proof.
  unfold TwoLane.distance, SingleLane.distance. rewrite decide_True by done.
  erewrite first_occupied_ext; [done|].
  intros j. simpl. by rewrite Z.mul_1_l.
Qed.

(** X4: the single-lane move on a lane free of collisions (no vehicle's
    target cell is occupied by another vehicle, and no two vehicles have
    the same target cell).  It ends normally, prints nothing, leaves the
    generator alone and conserves the vehicles: each vehicle is found in
    its target cell [(index + velocity) % num_cells] with its velocity,
    and every occupied cell of the result holds such a vehicle. *)
Theorem single_move_without_collision {G} (w : SingleLane.World G) (num_cells : Z) :
  num_cells = len (SingleLane.lane w) → collision_free (SingleLane.lane w) →
  ∃ w' : SingleLane.World G,
    SingleLane.move num_cells w = Normal w' ∧
    SingleLane.stdout w' = SingleLane.stdout w ∧
    SingleLane.gen w' = SingleLane.gen w ∧
    count_cars (SingleLane.lane w') = count_cars (SingleLane.lane w) ∧
    length (SingleLane.lane w') = length (SingleLane.lane w) ∧
    (∀ i c, SingleLane.lane w !! i = Some c → state c = 1 →
            SingleLane.lane w' !! target_of (SingleLane.lane w) i
              = Some (mkCell 1 (velocity c))) ∧
    (∀ j c', SingleLane.lane w' !! j = Some c' → state c' = 1 →
             ∃ i c, SingleLane.lane w !! i = Some c ∧ state c = 1 ∧
                    target_of (SingleLane.lane w) i = j ∧ c' = mkCell 1 (velocity c)).
Proof. apply single_move_collision_free. Qed.

(** X5: the single-lane step conserves the vehicles.  On a lane of
    [num_cells] cells within the velocity bounds that does not hold
    exactly one vehicle, the update step of section 1.2 and the one of
    section 1.1 both end normally with as many vehicles as before, print no
    collision, and keep the length of the lane and the velocity bounds.
    The step of section 1.2 draws exactly one random number per vehicle;
    the step of section 1.1 leaves the generator alone. *)
Theorem single_update_conserves_vehicles `{RandomSource G}
    (w : SingleLane.World G) (num_cells max_vel : Z) (p : Q) :
  num_cells = len (SingleLane.lane w) →
  Forall (cell_ok max_vel) (SingleLane.lane w) →
  count_cars (SingleLane.lane w) ≠ 1%nat →
  (∃ w', SingleLane.update num_cells max_vel p w = Normal w' ∧
         count_cars (SingleLane.lane w') = count_cars (SingleLane.lane w) ∧
         SingleLane.stdout w' = SingleLane.stdout w ∧
         length (SingleLane.lane w') = length (SingleLane.lane w) ∧
         Forall (cell_ok max_vel) (SingleLane.lane w') ∧
         SingleLane.gen w' =
           Nat.iter (count_cars (SingleLane.lane w)) (λ g, (random g).2) (SingleLane.gen w)) ∧
  (∃ w', FirstModel.update num_cells max_vel p w = Normal w' ∧
         count_cars (SingleLane.lane w') = count_cars (SingleLane.lane w) ∧
         SingleLane.stdout w' = SingleLane.stdout w ∧
         length (SingleLane.lane w') = length (SingleLane.lane w) ∧
         Forall (cell_ok max_vel) (SingleLane.lane w') ∧
         SingleLane.gen w' = SingleLane.gen w).
Proof.
  intros Hn Hok Hcount.
  split; [by apply single_update_conserves|by apply first_update_conserves].
Qed.

(** X6: the two-lane move against the single-lane move.  On a lane of
    [num_cells] cells where no vehicle's target cell is occupied by
    another vehicle, the two-lane move ends normally with the lane the
    single-lane move produces; on a lane free of collisions it conserves
    the vehicles. *)
Theorem two_lane_move_agrees_with_single_lane {G} (cells : list Cell) (num_cells : Z)
    (out : list Z) (g : G) :
  num_cells = len cells → targets_clear cells →
  TwoLane.move num_cells cells =
    Normal (SingleLane.lane
              (final (SingleLane.move num_cells (SingleLane.mkWorld cells out g)))) ∧
  (collision_free cells →
   ∃ cells', TwoLane.move num_cells cells = Normal cells' ∧
             count_cars cells' = count_cars cells).
Proof.
  intros Hn Hclear. split; [by apply two_lane_move_agrees|].
  intros Hfree.
  destruct (two_lane_move_collision_free cells num_cells Hn Hfree)
    as (cells' & Hmove & Hcount & _).
  by exists cells'.
Qed.

(** X7: the lane-change phase conserves the vehicles.  Run on the
    post-acceleration snapshot of a road of two lanes of [n] cells, the
    lane-change loops of the two-lane update end normally with a road of
    the same shape that holds as many vehicles as the snapshot, and draw
    nothing from the generator. *)
Theorem lane_change_phase_conserves_vehicles `{RandomSource G}
    (snapshot : TwoLane.Road) (n : nat) (max_vels : list Z) (g : G) :
  two_lanes snapshot n → length max_vels = 2%nat →
  ∃ w', TwoLane.for_lanes (TwoLane.lane_change_body snapshot (Z.of_nat n) max_vels)
          (TwoLane.mkWorld snapshot g) = Normal w' ∧
        two_lanes (TwoLane.road w') n ∧
        count_road (TwoLane.road w') = count_road snapshot ∧
        TwoLane.gen w' = g.
Proof.
  intros Hshape Hmax. eexists. split; [by apply lane_change_phase|]. simpl.
  split; [by apply after_changes_shape|]. split; [|done].
  by apply lane_changes_conserve.
Qed.

(** X8: a two-lane step in which no vehicle changes lanes conserves the
    vehicles of each lane.  On a road of two lanes of [n] cells within
    bounds, if no vehicle of the post-acceleration road [road w1] is
    granted a lane change, the update step ends normally with a road of
    the same shape within bounds whose lanes hold as many vehicles as
    before. *)
Theorem two_lane_update_conserves_without_lane_change `{RandomSource G}
    (n : nat) (max_vels : list Z) (p : Q) (w w1 : TwoLane.World G) :
  length max_vels = 2%nat →
  two_lanes (TwoLane.road w) n → road_ok max_vels (TwoLane.road w) →
  TwoLane.for_lanes (TwoLane.accelerate_body max_vels) w = Normal w1 →
  (∀ i k, wants_change (TwoLane.road w1) n max_vels i k = false) →
  ∃ w', TwoLane.update (Z.of_nat n) max_vels p w = Normal w' ∧
        two_lanes (TwoLane.road w') n ∧ road_ok max_vels (TwoLane.road w') ∧
        count_cars <$> TwoLane.road w' = count_cars <$> TwoLane.road w.
Proof.
  intros Hmax Hshape Hok Hacc Hnone.
  destruct (two_lane_update_without_change n max_vels Hmax p w w1 (conj Hshape Hok)
              Hacc Hnone) as (w' & Hupdate & [Hshape' Hok'] & Hcount).
  by exists w'.
Qed.

(** X9: [add_impulse] caps the velocities at the global [max_vel] (5),
    whatever limit the simulation runs with.  It keeps every vehicle in
    its cell and prints and draws nothing; after it no vehicle is faster
    than 5; and for a non-negative impulse it keeps the velocity bounds
    of any limit that is at least 5. *)
Theorem add_impulse_keeps_bounds {G} (impulse limit : Z) (w : SingleLane.World G) :
  let w' := SingleLane.add_impulse impulse w in
  state <$> SingleLane.lane w' = state <$> SingleLane.lane w ∧
  count_cars (SingleLane.lane w') = count_cars (SingleLane.lane w) ∧
  SingleLane.stdout w' = SingleLane.stdout w ∧ SingleLane.gen w' = SingleLane.gen w ∧
  Forall (λ c, state c = 1 → velocity c ≤ max_vel) (SingleLane.lane w') ∧
  (0 ≤ impulse → max_vel ≤ limit →
   Forall (cell_ok limit) (SingleLane.lane w) →
   Forall (cell_ok limit) (SingleLane.lane w')).
Proof.
  intros w'. pose proof (add_impulse_states impulse w) as Hst.
  split; [done|]. split; [by apply count_cars_states|]. do 2 (split; [done|]). split.
  - apply Forall_fmap, Forall_forall. intros c _. simpl.
    case_decide; simpl; [lia|done].
  - intros Himp Hlimit. by apply add_impulse_bounds.
Qed.

(** X10: the single-lane [initilize] on a lawful random source.  When
    the number of cars computed from the occupancy lies in
    [0..num_cells], it ends normally with a lane of [num_cells] cells that
    holds exactly that many cars, each with a velocity of [0..5] (whatever
    [max_vel] the simulation is run with), the other cells being empty
    cells of velocity -1; nothing is printed. *)
Theorem single_initilize_places_cars `{RandomSource G} (num_cars_of : Q → Z → Z)
    (num_cells : Z) (occupancy_percent : Q) (g : G) :
  lawful G →
  0 ≤ num_cars_of occupancy_percent num_cells ≤ num_cells →
  ∃ w, SingleLane.initilize num_cars_of num_cells occupancy_percent g = Normal w ∧
       length (SingleLane.lane w) = Z.to_nat num_cells ∧
       SingleLane.stdout w = [] ∧
       Forall (cell_ok 5) (SingleLane.lane w) ∧
       count_cars (SingleLane.lane w) = Z.to_nat (num_cars_of occupancy_percent num_cells).
Proof. intros Hlaw. by apply single_initilize_spec. Qed.

(** X11: the two-lane [initilize] on a lawful random source.  With two
    non-negative lane limits and, for each lane, a number of cars within
    [0..num_cells], it ends normally with a road of two lanes of
    [num_cells] cells, each lane within the velocity bounds of its own
    limit and holding exactly its number of cars: the road satisfies what
    the update step assumes and preserves. *)
Theorem two_lane_initilize_builds_road `{RandomSource G} (num_cars_of : Q → Z → Z)
    (num_cells : Z) (occupancy_percents : list Q) (max_vels : list Z) (g : G)
    (o0 o1 : Q) :
  lawful G →
  length max_vels = 2%nat → Forall (λ m, 0 ≤ m) max_vels →
  occupancy_percents !! 0%nat = Some o0 → occupancy_percents !! 1%nat = Some o1 →
  0 ≤ num_cars_of o0 num_cells ≤ num_cells →
  0 ≤ num_cars_of o1 num_cells ≤ num_cells →
  ∃ w, TwoLane.initilize num_cars_of num_cells occupancy_percents max_vels g = Normal w ∧
       two_lanes (TwoLane.road w) (Z.to_nat num_cells) ∧
       road_ok max_vels (TwoLane.road w) ∧
       count_cars <$> TwoLane.road w =
         [Z.to_nat (num_cars_of o0 num_cells); Z.to_nat (num_cars_of o1 num_cells)].
Proof.
  intros Hlaw Hmax Hpos Ho0 Ho1 Hk0 Hk1.
  destruct (two_lane_initilize_spec Hlaw num_cars_of num_cells occupancy_percents max_vels g
              o0 o1 Hmax Hpos Ho0 Ho1 Hk0 Hk1) as (w & Hinit & [Hshape Hok] & Hcount).
  by exists w.
Qed.

(** X12: the single-lane simulation runs to completion.  On a lawful
    random source, with a limit [max_vel] of at least 5, a number of
    steps that is not negative and a number of cars within [0..num_cells]
    other than 1, [simulate] raises nothing and prints no collision.  It
    returns a matrix of [num_time_steps] rows of [num_cells] entries, all
    within [-1..max_vel], whose last row holds the velocities of the final
    lane; that lane has [num_cells] cells within bounds and still holds
    every car placed at the start. *)
Theorem single_simulate_runs_to_completion `{RandomSource G} (num_cars_of : Q → Z → Z)
    (max_vel : Z) (occupancy_percent : Q) (num_cells num_time_steps : Z) (p : Q)
    (impulse : Z) (g : G) :
  lawful G →
  0 ≤ num_cars_of occupancy_percent num_cells ≤ num_cells →
  num_cars_of occupancy_percent num_cells ≠ 1 →
  0 ≤ num_time_steps → 5 ≤ max_vel →
  ∃ r, SingleLane.simulate num_cars_of max_vel occupancy_percent num_cells
         num_time_steps p impulse g = Normal r ∧
       let lane := SingleLane.lane (SingleLane.world r) in
       length (SingleLane.velocities r) = Z.to_nat num_time_steps ∧
       Forall (λ row, length row = Z.to_nat num_cells ∧
                      Forall (λ v, -1 ≤ v ≤ max_vel) row) (SingleLane.velocities r) ∧
       (0 < num_time_steps → last (SingleLane.velocities r) = Some (velocity <$> lane)) ∧
       length lane = Z.to_nat num_cells ∧
       Forall (cell_ok max_vel) lane ∧
       count_cars lane = Z.to_nat (num_cars_of occupancy_percent num_cells) ∧
       SingleLane.stdout (SingleLane.world r) = [].
Proof.
  intros Hlaw Hk Hk1 HT Hmax.
  destruct (single_simulate_completes Hlaw num_cars_of max_vel occupancy_percent num_cells
              num_time_steps p impulse g Hk Hk1 HT Hmax)
    as (r & Hrun & Hlen & Hok & Hcount & Hout & Hrows & Hrow & Hlast).
  exists r. split; [done|]. simpl. repeat split; try done.
  intros Hpos. rewrite last_lookup, Hrows.
  replace (Init.Nat.pred (Z.to_nat num_time_steps)) with (Z.to_nat num_time_steps - 1)%nat
    by lia.
  apply Hlast. lia.
Qed.

(** X13: the two-lane simulation runs to completion.  On a lawful random
    source, with two non-negative lane limits, numbers of cars within
    [0..num_cells] and a number of steps that is not negative, [simulate]
    raises nothing.  With [T = num_time_steps] it returns matrices of
    [3 * T + 2], [T + 1] and [T + 1] rows of [num_cells] entries; rows
    [3 * t] and [3 * t + 1] of the first are the rows [t] of the left and
    right matrices, its rows [3 * t + 2] are zero, and the last rows of
    the left and right matrices hold the velocities of the final lanes,
    which form a road of two lanes of [num_cells] cells within bounds. *)
Theorem two_lane_simulate_runs_to_completion `{RandomSource G} (num_cars_of : Q → Z → Z)
    (max_vels : list Z) (occupancy_percents : list Q) (num_cells num_time_steps : Z)
    (p : Q) (g : G) (o0 o1 : Q) :
  lawful G →
  length max_vels = 2%nat → Forall (λ m, 0 ≤ m) max_vels →
  occupancy_percents !! 0%nat = Some o0 → occupancy_percents !! 1%nat = Some o1 →
  0 ≤ num_cars_of o0 num_cells ≤ num_cells →
  0 ≤ num_cars_of o1 num_cells ≤ num_cells →
  0 ≤ num_time_steps →
  ∃ r, TwoLane.simulate num_cars_of max_vels occupancy_percents num_cells
         num_time_steps p g = Normal r ∧
       let n := Z.to_nat num_cells in
       let T := Z.to_nat num_time_steps in
       let both := TwoLane.velocities_both r in
       let left := TwoLane.velocities_left r in
       let right := TwoLane.velocities_right r in
       two_lanes (TwoLane.road (TwoLane.world r)) n ∧
       road_ok max_vels (TwoLane.road (TwoLane.world r)) ∧
       length both = (3 * T + 2)%nat ∧ length left = (T + 1)%nat ∧
       length right = (T + 1)%nat ∧
       Forall (λ row, length row = n) both ∧
       Forall (λ row, length row = n) left ∧
       Forall (λ row, length row = n) right ∧
       (∀ t, (t ≤ T)%nat → both !! (3 * t)%nat = left !! t ∧
                            both !! (3 * t + 1)%nat = right !! t) ∧
       (∀ t, (t < T)%nat → both !! (3 * t + 2)%nat = Some (replicate n 0)) ∧
       left !! T = (λ lane : list Cell, velocity <$> lane)
                     <$> TwoLane.road (TwoLane.world r) !! 0%nat ∧
       right !! T = (λ lane : list Cell, velocity <$> lane)
                      <$> TwoLane.road (TwoLane.world r) !! 1%nat.
Proof.
  intros Hlaw Hmax Hpos Ho0 Ho1 Hk0 Hk1 HT.
  destruct (two_lane_simulate_completes Hlaw num_cars_of max_vels occupancy_percents
              num_cells num_time_steps p g o0 o1 Hmax Hpos Ho0 Ho1 Hk0 Hk1 HT)
    as (r & Hrun & [Hshape Hok] & Hb & Hl & Hr & Fb & Fl & Fr & Hint & Hsp & Hlast).
  exists r. split; [done|]. simpl. do 8 (split; [done|]).
  split; [intros t Ht; apply Hint; lia|]. split; [done|].
  specialize (Hlast ltac:(lia)). simpl in Hlast. by rewrite Nat.sub_0_r in Hlast.
Qed.

(** X14: without dallying, the step of section 1.2 is the step of
    section 1.1.  From equal lanes and outputs, and a generator none of
    whose draws is at most [p], the stochastic update and the first
    model's update (which ignores [p]) end alike: both normally or both
    by the same exception, with the same lane and the same printed lines,
    the generator still never yielding a draw that is at most [p]. *)
Theorem stochastic_step_without_dally `{RandomSource G} (num_cells max_vel : Z) (p : Q)
    (w1 w2 : SingleLane.World G) :
  SingleLane.lane w1 = SingleLane.lane w2 →
  SingleLane.stdout w1 = SingleLane.stdout w2 →
  never_dallies p (SingleLane.gen w1) →
  outcome_rel (same_world (λ g1 _, never_dallies p g1))
    (SingleLane.update num_cells max_vel p w1)
    (FirstModel.update num_cells max_vel p w2).
Proof. intros Hl Ho Hg. by apply update_without_dally. Qed.

(** X15: a single-lane simulation with exactly one car fails.  On a
    lawful random source, with a road of at least one cell, at least one
    step and a car count of 1, [simulate] raises [TypeError] in its first
    step, before anything is recorded: the matrix is still zero and the
    car is still on the lane. *)
Theorem single_simulate_lone_car_raises `{RandomSource G} (num_cars_of : Q → Z → Z)
    (max_vel : Z) (occupancy_percent : Q) (num_cells num_time_steps : Z) (p : Q)
    (impulse : Z) (g : G) :
  lawful G →
  num_cars_of occupancy_percent num_cells = 1 → 1 ≤ num_cells → 0 < num_time_steps →
  ∃ r, SingleLane.simulate num_cars_of max_vel occupancy_percent num_cells
         num_time_steps p impulse g = Raised TypeError r ∧
       SingleLane.velocities r =
         replicate (Z.to_nat num_time_steps) (replicate (Z.to_nat num_cells) 0) ∧
       length (SingleLane.lane (SingleLane.world r)) = Z.to_nat num_cells ∧
       count_cars (SingleLane.lane (SingleLane.world r)) = 1%nat.
Proof. intros Hlaw. by apply single_simulate_lone_car. Qed.

(** ** The further theorems at concrete inputs *)

Lemma replay_never_dallies : never_dallies 0%Q ([] : list Q).
Proof.
  intros k. assert (Nat.iter k (λ g : list Q, (random g).2) [] = []) as ->.
  { induction k as [|k IH]; [done|]. by rewrite Nat.iter_succ, IH. }
  simpl. by intros Hle.
Qed.

(** Vehicles of velocities 1 and 2 at cells 0 and 2 of a lane of 5 cells:
    they aim at the free cells 1 and 4. *)
Lemma two_vehicles_collision_free :
  collision_free [mkCell 1 1; empty_cell; mkCell 1 2; empty_cell; empty_cell].
Proof.
  split.
  - intros i (c & Hc & Hs). right.
    destruct i as [|[|[|[|[|i]]]]]; simplify_eq/=;
      intros (c' & Hc' & Hs'); vm_compute in Hc'; by simplify_eq/=.
  - intros i1 i2 (c1 & Hc1 & Hs1) (c2 & Hc2 & Hs2) Ht.
    destruct i1 as [|[|[|[|[|i1]]]]]; simplify_eq/=;
      destruct i2 as [|[|[|[|[|i2]]]]]; by simplify_eq/=.
Qed.

Lemma single_lane_distance_gap_witness :
  let cells := [mkCell 1 0; empty_cell; mkCell 1 0; empty_cell; empty_cell] in
  (∃ g, SingleLane.distance cells 0 5 = Ok (Some g) ∧ 0 ≤ g < 5 - 1 ∧
        occupied_at cells (cyc 5 (0 + (g + 1))) ∧
        ∀ j, 1 ≤ j ≤ g → ¬ occupied_at cells (cyc 5 (0 + j)))
  ∨ (SingleLane.distance cells 0 5 = Ok None ∧ ∀ i, i ≠ 0%nat → ¬ occupied_at cells i).
Proof.
  intros cells. apply (single_lane_distance_gap cells 0). simpl. lia.
Defined.

Lemma two_lane_distance_gap_witness :
  let E := empty_cell in
  let cells := [[E; E; mkCell 1 0; E; E]; [mkCell 1 0; E; E; E; E]] in
  ∃ d, TwoLane.distance cells [E; E; mkCell 1 0; E; E] 2 5 0 1 1 = Ok d ∧
       gap_of [mkCell 1 0; E; E; E; E] 5 2 1 d ∧ 0 ≤ d ≤ 5.
Proof.
  intros E cells.
  apply (two_lane_distance_gap cells 5 0 1 [E; E; mkCell 1 0; E; E]
           [mkCell 1 0; E; E; E; E] 2 1); [by eexists _, _|lia|reflexivity|reflexivity].
Defined.

Lemma single_move_without_collision_witness :
  let lane := [mkCell 1 1; empty_cell; mkCell 1 2; empty_cell; empty_cell] in
  ∃ w' : SingleLane.World unit,
    SingleLane.move 5 (SingleLane.mkWorld lane [] tt) = Normal w' ∧
    SingleLane.stdout w' = [] ∧ SingleLane.gen w' = tt ∧
    count_cars (SingleLane.lane w') = count_cars lane ∧
    length (SingleLane.lane w') = length lane ∧
    (∀ i c, lane !! i = Some c → state c = 1 →
            SingleLane.lane w' !! target_of lane i = Some (mkCell 1 (velocity c))) ∧
    (∀ j c', SingleLane.lane w' !! j = Some c' → state c' = 1 →
             ∃ i c, lane !! i = Some c ∧ state c = 1 ∧
                    target_of lane i = j ∧ c' = mkCell 1 (velocity c)).
Proof.
  intros lane.
  apply (single_move_without_collision (SingleLane.mkWorld lane [] tt) 5);
    [reflexivity|apply two_vehicles_collision_free].
Defined.

Lemma single_update_conserves_vehicles_witness :
  let lane := [mkCell 1 0; empty_cell; mkCell 1 0; empty_cell; empty_cell] in
  let w := SingleLane.mkWorld lane [] ([] : list Q) in
  (∃ w', SingleLane.update 5 5 0%Q w = Normal w' ∧
         count_cars (SingleLane.lane w') = count_cars lane ∧
         SingleLane.stdout w' = [] ∧
         length (SingleLane.lane w') = length lane ∧
         Forall (cell_ok 5) (SingleLane.lane w') ∧
         SingleLane.gen w' = Nat.iter (count_cars lane) (λ g, (random g).2) []) ∧
  (∃ w', FirstModel.update 5 5 0%Q w = Normal w' ∧
         count_cars (SingleLane.lane w') = count_cars lane ∧
         SingleLane.stdout w' = [] ∧
         length (SingleLane.lane w') = length lane ∧
         Forall (cell_ok 5) (SingleLane.lane w') ∧
         SingleLane.gen w' = []).
Proof.
  intros lane w. apply (single_update_conserves_vehicles w 5 5 0%Q).
  - reflexivity.
  - unfold w, lane. simpl. cells_within_bounds.
  - vm_compute. lia.
Defined.

Lemma two_lane_move_agrees_with_single_lane_witness :
  let lane := [mkCell 1 1; empty_cell; mkCell 1 2; empty_cell; empty_cell] in
  TwoLane.move 5 lane =
    Normal (SingleLane.lane
              (final (SingleLane.move 5 (SingleLane.mkWorld lane [] tt)))) ∧
  ∃ cells', TwoLane.move 5 lane = Normal cells' ∧ count_cars cells' = count_cars lane.
Proof.
  intros lane.
  destruct (two_lane_move_agrees_with_single_lane lane 5 [] tt) as [Hsame Hcount];
    [reflexivity|apply two_vehicles_collision_free|].
  split; [exact Hsame|]. apply Hcount, two_vehicles_collision_free.
Defined.

Lemma lane_change_phase_conserves_vehicles_witness :
  let E := empty_cell in
  let snapshot := [[E; E; E; E; E; mkCell 1 2; E];
                   [mkCell 1 4; mkCell 1 5; E; E; E; E; mkCell 1 3]] in
  ∃ w', TwoLane.for_lanes (TwoLane.lane_change_body snapshot 7 [5; 7])
          (TwoLane.mkWorld snapshot ([] : list Q)) = Normal w' ∧
        two_lanes (TwoLane.road w') 7 ∧
        count_road (TwoLane.road w') = count_road snapshot ∧
        TwoLane.gen w' = [].
Proof.
  intros E snapshot.
  apply (lane_change_phase_conserves_vehicles snapshot 7 [5; 7] ([] : list Q));
    [by eexists _, _|reflexivity].
Defined.

Lemma two_lane_update_conserves_without_lane_change_witness :
  let E := empty_cell in
  let cells := [[mkCell 1 0; E; E; mkCell 1 0; E]; [E; E; mkCell 1 2; E; E]] in
  ∃ w', TwoLane.update 5 [5; 7] 0%Q (TwoLane.mkWorld cells ([] : list Q)) = Normal w' ∧
        two_lanes (TwoLane.road w') 5 ∧ road_ok [5; 7] (TwoLane.road w') ∧
        count_cars <$> TwoLane.road w' = count_cars <$> cells.
Proof.
  intros E cells.
  apply (two_lane_update_conserves_without_lane_change 5 [5; 7] 0%Q
           (TwoLane.mkWorld cells ([] : list Q))
           (TwoLane.mkWorld [[mkCell 1 1; E; E; mkCell 1 1; E]; [E; E; mkCell 1 3; E; E]]
                            ([] : list Q))).
  - reflexivity.
  - by eexists _, _.
  - apply road_ok_two. unfold E. split; cells_within_bounds.
  - reflexivity.
  - intros [|[|i]] k; [| |reflexivity];
      do 5 (destruct k as [|k]; [reflexivity|]); reflexivity.
Defined.

Lemma add_impulse_keeps_bounds_witness :
  let w := SingleLane.mkWorld [mkCell 1 4; empty_cell; mkCell 1 1] [] tt in
  let w' := SingleLane.add_impulse 2 w in
  state <$> SingleLane.lane w' = state <$> SingleLane.lane w ∧
  count_cars (SingleLane.lane w') = count_cars (SingleLane.lane w) ∧
  SingleLane.stdout w' = SingleLane.stdout w ∧ SingleLane.gen w' = SingleLane.gen w ∧
  Forall (λ c, state c = 1 → velocity c ≤ max_vel) (SingleLane.lane w') ∧
  Forall (cell_ok 5) (SingleLane.lane w').
Proof.
  intros w w'.
  destruct (add_impulse_keeps_bounds 2 5 w) as (Hst & Hcount & Hout & Hgen & Hcap & Hok).
  do 5 (split; [assumption|]).
  apply Hok; [lia|unfold max_vel; lia|]. unfold w. simpl. cells_within_bounds.
Defined.

Lemma single_initilize_places_cars_witness :
  ∃ w, SingleLane.initilize floor_percent 10 40%Q ([] : list Q) = Normal w ∧
       length (SingleLane.lane w) = Z.to_nat 10 ∧
       SingleLane.stdout w = [] ∧
       Forall (cell_ok 5) (SingleLane.lane w) ∧
       count_cars (SingleLane.lane w) = Z.to_nat (floor_percent 40%Q 10).
Proof.
  apply (single_initilize_places_cars floor_percent 10 40%Q ([] : list Q));
    [apply replay_lawful|vm_compute; split; discriminate].
Defined.

Lemma two_lane_initilize_builds_road_witness :
  ∃ w, TwoLane.initilize floor_percent 10 [40%Q; 20%Q] [5; 7] ([] : list Q) = Normal w ∧
       two_lanes (TwoLane.road w) (Z.to_nat 10) ∧
       road_ok [5; 7] (TwoLane.road w) ∧
       count_cars <$> TwoLane.road w =
         [Z.to_nat (floor_percent 40%Q 10); Z.to_nat (floor_percent 20%Q 10)].
Proof.
  apply (two_lane_initilize_builds_road floor_percent 10 [40%Q; 20%Q] [5; 7]
           ([] : list Q) 40%Q 20%Q).
  - apply replay_lawful.
  - reflexivity.
  - repeat (apply Forall_cons_2; [lia|]). apply Forall_nil_2.
  - reflexivity.
  - reflexivity.
  - vm_compute. split; discriminate.
  - vm_compute. split; discriminate.
Defined.

Lemma single_simulate_runs_to_completion_witness :
  let seed := [(1 # 4)%Q; (3 # 4)%Q] in
  ∃ r, SingleLane.simulate floor_percent 5 40%Q 10 3 (1 # 2)%Q 2 seed = Normal r ∧
       let lane := SingleLane.lane (SingleLane.world r) in
       length (SingleLane.velocities r) = Z.to_nat 3 ∧
       Forall (λ row, length row = Z.to_nat 10 ∧
                      Forall (λ v, -1 ≤ v ≤ 5) row) (SingleLane.velocities r) ∧
       (0 < 3 → last (SingleLane.velocities r) = Some (velocity <$> lane)) ∧
       length lane = Z.to_nat 10 ∧
       Forall (cell_ok 5) lane ∧
       count_cars lane = Z.to_nat (floor_percent 40%Q 10) ∧
       SingleLane.stdout (SingleLane.world r) = [].
Proof.
  intros seed.
  apply (single_simulate_runs_to_completion floor_percent 5 40%Q 10 3 (1 # 2)%Q 2 seed).
  - apply replay_lawful.
  - vm_compute. split; discriminate.
  - vm_compute. discriminate.
  - lia.
  - lia.
Defined.

Lemma two_lane_simulate_runs_to_completion_witness :
  let seed := [(1 # 4)%Q; (3 # 4)%Q] in
  ∃ r, TwoLane.simulate floor_percent [5; 7] [40%Q; 20%Q] 10 3 (1 # 2)%Q seed = Normal r ∧
       let n := Z.to_nat 10 in
       let T := Z.to_nat 3 in
       let both := TwoLane.velocities_both r in
       let left := TwoLane.velocities_left r in
       let right := TwoLane.velocities_right r in
       two_lanes (TwoLane.road (TwoLane.world r)) n ∧
       road_ok [5; 7] (TwoLane.road (TwoLane.world r)) ∧
       length both = (3 * T + 2)%nat ∧ length left = (T + 1)%nat ∧
       length right = (T + 1)%nat ∧
       Forall (λ row, length row = n) both ∧
       Forall (λ row, length row = n) left ∧
       Forall (λ row, length row = n) right ∧
       (∀ t, (t ≤ T)%nat → both !! (3 * t)%nat = left !! t ∧
                            both !! (3 * t + 1)%nat = right !! t) ∧
       (∀ t, (t < T)%nat → both !! (3 * t + 2)%nat = Some (replicate n 0)) ∧
       left !! T = (λ lane : list Cell, velocity <$> lane)
                     <$> TwoLane.road (TwoLane.world r) !! 0%nat ∧
       right !! T = (λ lane : list Cell, velocity <$> lane)
                      <$> TwoLane.road (TwoLane.world r) !! 1%nat.
Proof.
  intros seed.
  apply (two_lane_simulate_runs_to_completion floor_percent [5; 7] [40%Q; 20%Q] 10 3
           (1 # 2)%Q seed 40%Q 20%Q).
  - apply replay_lawful.
  - reflexivity.
  - repeat (apply Forall_cons_2; [lia|]). apply Forall_nil_2.
  - reflexivity.
  - reflexivity.
  - vm_compute. split; discriminate.
  - vm_compute. split; discriminate.
  - lia.
Defined.

Lemma stochastic_step_without_dally_witness :
  let w := SingleLane.mkWorld [mkCell 1 0; empty_cell; mkCell 1 0; empty_cell; empty_cell]
                              [] ([] : list Q) in
  outcome_rel (same_world (λ g1 _, never_dallies 0%Q g1))
    (SingleLane.update 5 5 0%Q w) (FirstModel.update 5 5 0%Q w).
Proof.
  intros w. apply (stochastic_step_without_dally 5 5 0%Q w w);
    [reflexivity|reflexivity|apply replay_never_dallies].
Defined.

Lemma single_simulate_lone_car_raises_witness :
  ∃ r, SingleLane.simulate floor_percent 5 10%Q 10 3 (1 # 2)%Q 0 ([] : list Q)
         = Raised TypeError r ∧
       SingleLane.velocities r = replicate (Z.to_nat 3) (replicate (Z.to_nat 10) 0) ∧
       length (SingleLane.lane (SingleLane.world r)) = Z.to_nat 10 ∧
       count_cars (SingleLane.lane (SingleLane.world r)) = 1%nat.
Proof.
  apply (single_simulate_lone_car_raises floor_percent 5 10%Q 10 3 (1 # 2)%Q 0
           ([] : list Q)); [apply replay_lawful|reflexivity|lia|lia].
Defined.
